(** * Session manager and version cache of the pyright playground server

    A shallow embedding of [server/src/sessionManager.ts] (session registry,
    process launcher, idle reaper, version resolver and installer) and of the
    two client-side [getPyrightVersions] variants, with the properties the
    specification states about them.

    Conventions of the embedding.
    - JavaScript runs every synchronous block to completion, so each call of
      an exported function up to the callback it hands to a promise, each
      such callback, each event handler and each timer callback is one atomic
      transition on an explicit [World] (module-level variables, session
      objects, the part of the file system the code touches, and a trace of
      collaborator calls).
    - Objects shared between the registry and the closures of
      [startSession] live in a heap and are named by references, so that a
      mutation through one alias is seen through the other.
    - Results of collaborators the code does not control (clock, uuid, npm
      index, installer, child process, file-system failures) are read from
      an environment record [Env] supplied to each transition.
      [fs.mkdtempSync], [fs.writeFileSync] and [fork] are taken to return
      normally; the code has no handler for their failure.
    - A path is the list of its components, and a version string is one
      component of it.
    - The [await]s inside one call of [installPyright] run without another
      transition in between. [createNewSession] is two transitions: the turn
      of its caller, which schedules the timer and installs, and the [then]
      callback, which starts the session in a later turn; timer callbacks,
      process events and other calls may run between the two.
    - [logger] calls do not influence any state and are left out. *)

From stdpp Require Import base option list strings gmap fin_maps.
From Stdlib Require Import Ascii ZArith Lia.

Open Scope string_scope.
Open Scope Z_scope.
Open Scope list_scope.

(** ** Thrown values and results *)

(** What a [throw] or a promise rejection carries in this code base: an
    [Error] object ([new Error(msg)]) or a bare string. *)
Inductive Thrown : Type :=
  | JsError (message : string)
  | JsString (s : string).

(** The text [`${err}`] inserts for a thrown value. *)
Definition template (err : Thrown) : string :=
  match err with
  | JsError message => "Error: " +:+ message
  | JsString s => s
  end.

Inductive Result (A : Type) : Type :=
  | Ok (a : A)
  | Throw (e : Thrown).
Arguments Ok {A} a.
Arguments Throw {A} e.

(** ** Version listing (server and client) *)

Module Versions.

(** [verion.includes('-')] *)
Fixpoint includes_hyphen (s : string) : bool :=
  match s with
  | EmptyString => false
  | String c rest => if Ascii.eqb c "-"%char then true else includes_hyphen rest
  end.

Definition is_release (verion : string) : bool := negb (includes_hyphen verion).

(** Maximum number of pyright versions to return to the caller. *)
Definition maxPyrightVersionCount : nat := 50.

(** The answer of the package index to an all-versions query, reduced to
    what the code reads: [Object.keys(response.versions)], in the key order
    of the object. *)
Record Packument : Type := { versions : list string }.

(** The answer to the default query (the manifest of the package's latest
    version), reduced to [response.version]; [None] stands for a value
    whose [typeof] is not ['string']. *)
Record Manifest : Type := { version : option string }.

(** Server, [getPyrightVersions]. *)
Definition getPyrightVersions (answer : Result Packument) : Result (list string) :=
  match answer with
  | Ok response =>
      let versions := versions response in
      let versions := List.filter is_release versions in
      let versions := reverse versions in
      let versions := take maxPyrightVersionCount versions in
      Ok versions
  | Throw err => Throw (JsError ("Failed to get versions of pyright: " +:+ template err))
  end.

(** Server, [getPyrightLatestVersion]. The [throw] inside [then] is caught
    by the [catch] that follows it and wrapped a second time. *)
Definition getPyrightLatestVersion (answer : Result Manifest) : Result string :=
  let inner :=
    match answer with
    | Ok response =>
        match version response with
        | Some v => Ok v
        | None => Throw (JsError "Received unexpected latest version for pyright")
        end
    | Throw err => Throw err
    end in
  match inner with
  | Ok v => Ok v
  | Throw err => Throw (JsError ("Failed to get latest version of pyright: " +:+ template err))
  end.

(** Client, [client/sessionManager.ts]: [getPyrightVersions]. *)
Definition client_getPyrightVersions (answer : Result Packument) : Result (list string) :=
  match answer with
  | Ok response =>
      let versions := versions response in
      let releaseVersions := List.filter is_release versions in
      let versions := if bool_decide (length releaseVersions ≠ 0%nat)
                      then releaseVersions else versions in
      let versions := reverse versions in
      let versions := take maxPyrightVersionCount versions in
      Ok versions
  | Throw err => Throw (JsError ("Failed to get versions of pyright: " +:+ template err))
  end.

(** Client, second copy of the module (no cap on the number of versions). *)
Definition client_getPyrightVersions_uncapped (answer : Result Packument)
  : Result (list string) :=
  match answer with
  | Ok response =>
      let versions := versions response in
      let releaseVersions := List.filter is_release versions in
      let versions := if bool_decide (length releaseVersions ≠ 0%nat)
                      then releaseVersions else versions in
      let versions := reverse versions in
      Ok versions
  | Throw err => Throw (JsError ("Failed to get versions of pyright: " +:+ template err))
  end.

End Versions.

(** ** Session options and the synthesized configuration *)

Record SessionOptions : Type := {
  pythonVersion : option string;
  pythonPlatform : option string;
  pyrightVersion : option string;
  typeCheckingMode : option string;
  configOverrides : option (gmap string bool);
  locale : option string;
}.

(** Truthiness of an optional string: [undefined] and [''] are falsy. *)
Definition truthy (v : option string) : bool :=
  match v with
  | Some s => negb (String.eqb s "")
  | None => false
  end.

(** [sessionOptions?.field] *)
Definition opt_field {A} (field : SessionOptions → option A)
    (sessionOptions : option SessionOptions) : option A :=
  sessionOptions ≫= field.

Inductive JsonValue : Type :=
  | JString (s : string)
  | JBool (b : bool).

(** A plain object as a finite map from its own property names. *)
Abbreviation JsObject := (gmap string JsonValue).

(** [config[key] = value] on an object created by [{}]: the name
    ["__proto__"] reaches the accessor inherited from [Object.prototype],
    which ignores a value that is neither an object nor [null]; every other
    name creates or overwrites an own property. *)
Definition assign (key : string) (value : JsonValue) (config : JsObject) : JsObject :=
  if decide (key = "__proto__") then config else <[key := value]> config.

Definition defaultPythonVersion : string := "3.12".
Definition defaultPythonPlatform : string := "All".

(** The object [synthesizePyrightConfigFile] builds before it serializes
    it. [Object.keys(...).forEach] visits each own key once. *)
Definition synthesizeConfig (sessionOptions : option SessionOptions) : JsObject :=
  let config : JsObject := ∅ in
  let config :=
    if truthy (opt_field pythonVersion sessionOptions)
    then assign "pythonVersion" (JString (default "" (opt_field pythonVersion sessionOptions))) config
    else assign "pythonVersion" (JString defaultPythonVersion) config in
  let config :=
    if truthy (opt_field pythonPlatform sessionOptions)
    then assign "pythonPlatform" (JString (default "" (opt_field pythonPlatform sessionOptions))) config
    else assign "pythonPlatform" (JString defaultPythonPlatform) config in
  let config :=
    if truthy (opt_field typeCheckingMode sessionOptions)
    then assign "typeCheckingMode" (JString (default "" (opt_field typeCheckingMode sessionOptions))) config
    else config in
  match opt_field configOverrides sessionOptions with
  | Some overrides =>
      foldl (λ config kv, assign kv.1 (JBool kv.2) config) config (map_to_list overrides)
  | None => config
  end.

(** ** The world the session manager runs in *)

Abbreviation SessionId := string.

(** A path as the list of its components; relative paths are resolved
    against the working directory of the server process, and a version
    string is one component. *)
Abbreviation Path := (list string).

(** Handle of a forked child process. *)
Abbreviation Proc := nat.

(** [new LspClient(langServerProcess)] *)
Inductive LspClient : Type := NewLspClient (process : Proc).

Record Session : Type := {
  id : SessionId;
  lastAccessTime : Z;
  tempDirPath : Path;
  langServerProcess : option Proc;
  langClient : option LspClient;
}.

Definition set_lastAccessTime (t : Z) (s : Session) : Session :=
  {| id := id s; lastAccessTime := t; tempDirPath := tempDirPath s;
     langServerProcess := langServerProcess s; langClient := langClient s |}.

Definition set_langServerProcess (p : option Proc) (s : Session) : Session :=
  {| id := id s; lastAccessTime := lastAccessTime s; tempDirPath := tempDirPath s;
     langServerProcess := p; langClient := langClient s |}.

Definition set_langClient (c : option LspClient) (s : Session) : Session :=
  {| id := id s; lastAccessTime := lastAccessTime s; tempDirPath := tempDirPath s;
     langServerProcess := langServerProcess s; langClient := c |}.

(** The promise [startSession] returns. *)
Inductive Promise : Type :=
  | Pending
  | Resolved (value : SessionId)
  | Rejected (reason : string).

(** Where the [initialize] call of a session stands. *)
Inductive Handshake : Type := NotCalled | InFlight | Settled.

(** One heap cell per [startSession] call: the [session] object, and the
    constants and the promise its callbacks close over. The registry and the
    callbacks both hold the address of the cell. *)
Record Closure : Type := {
  c_session : Session;
  c_sessionId : SessionId;
  c_process : Proc;
  c_promise : Promise;
  c_handshake : Handshake;
}.

Abbreviation Ref := nat.

Definition with_session (f : Session → Session) (c : Closure) : Closure :=
  {| c_session := f (c_session c); c_sessionId := c_sessionId c; c_process := c_process c;
     c_promise := c_promise c; c_handshake := c_handshake c |}.

Definition with_promise (p : Promise) (c : Closure) : Closure :=
  {| c_session := c_session c; c_sessionId := c_sessionId c; c_process := c_process c;
     c_promise := p; c_handshake := c_handshake c |}.

Definition with_handshake (h : Handshake) (c : Closure) : Closure :=
  {| c_session := c_session c; c_sessionId := c_sessionId c; c_process := c_process c;
     c_promise := c_promise c; c_handshake := h |}.

Inductive Node : Type :=
  | Dir
  | File (content : JsObject).

(** Calls to collaborators, in the order they are made. *)
Inductive Call : Type :=
  | CancelRequests (client : LspClient)
  | Kill (process : Proc) (delivered : bool)
  | RmSync (path : Path)
  | QueryLatest
  | Mkdir (path : Path)
  | Install (pluginsPath : Path) (version : string)
  | Fork (binaryPath cwd : Path) (LC_ALL : option string) (process : Proc)
  | Initialize (client : LspClient) (projectRoot : Path).

(** The timer [setTimeout] returns; its callback is the sweep below. *)
Record Timeout : Type := { delay : Z }.

Record World : Type := {
  heap : list Closure;
  (** [activeSessions]: a [Map], hence in insertion order and with unique keys. *)
  activeSessions : list (SessionId * Ref);
  lifetimeTimer : option Timeout;
  fs : gmap Path Node;
  calls : list Call;
}.

Definition set_heap (h : list Closure) (w : World) : World :=
  {| heap := h; activeSessions := activeSessions w; lifetimeTimer := lifetimeTimer w;
     fs := fs w; calls := calls w |}.

Definition set_activeSessions (m : list (SessionId * Ref)) (w : World) : World :=
  {| heap := heap w; activeSessions := m; lifetimeTimer := lifetimeTimer w;
     fs := fs w; calls := calls w |}.

Definition set_lifetimeTimer (t : option Timeout) (w : World) : World :=
  {| heap := heap w; activeSessions := activeSessions w; lifetimeTimer := t;
     fs := fs w; calls := calls w |}.

Definition set_fs (f : gmap Path Node) (w : World) : World :=
  {| heap := heap w; activeSessions := activeSessions w; lifetimeTimer := lifetimeTimer w;
     fs := f; calls := calls w |}.

Definition set_calls (cs : list Call) (w : World) : World :=
  {| heap := heap w; activeSessions := activeSessions w; lifetimeTimer := lifetimeTimer w;
     fs := fs w; calls := cs |}.

(** What the collaborators answer during one transition. *)
Record Env : Type := {
  now : Z;                                   (* Date.now() *)
  uuid : SessionId;                          (* uuid() *)
  mkdtemp : Path;                            (* the directory fs.mkdtempSync creates *)
  fork : Proc;                               (* the handle fork returns *)
  kill : Proc → bool;                        (* what ChildProcess.kill() returns *)
  rmSync_fails : Path → bool;                (* fs.rmSync throws on an existing path *)
  latest : Result Versions.Manifest;         (* packageJson('basedpyright') *)
  mkdir_fails : Path → bool;                 (* mkdir throws *)
  install_fails : string → bool;             (* manager.install rejects *)
}.

(** ** A state monad with exceptions *)

Definition M (A : Type) : Type := World → Result A * World.

#[global] Instance M_ret : MRet M := λ A a w, (Ok a, w).

#[global] Instance M_bind : MBind M := λ A B f m w,
  match m w with
  | (Ok a, w') => f a w'
  | (Throw e, w') => (Throw e, w')
  end.

Definition get_world : M World := λ w, (Ok w, w).
Definition modify (f : World → World) : M unit := λ w, (Ok (), f w).
Definition throw {A} (e : Thrown) : M A := λ w, (Throw e, w).

(** [try { body } catch (err) { handler }] *)
Definition try_catch {A} (body : M A) (handler : Thrown → M A) : M A := λ w,
  match body w with
  | (Ok a, w') => (Ok a, w')
  | (Throw e, w') => handler e w'
  end.

Definition call (c : Call) : M unit := modify (λ w, set_calls (calls w ++ [c]) w).

(** [xs.forEach(f)] *)
Fixpoint forEach {A} (xs : list A) (f : A → M unit) : M unit :=
  match xs with
  | [] => mret ()
  | x :: rest => f x ;; forEach rest f
  end.

(** ** The [Map] of active sessions *)

Fixpoint map_get (k : SessionId) (m : list (SessionId * Ref)) : option Ref :=
  match m with
  | [] => None
  | (k', r) :: rest => if decide (k' = k) then Some r else map_get k rest
  end.

Fixpoint map_set (k : SessionId) (r : Ref) (m : list (SessionId * Ref))
  : list (SessionId * Ref) :=
  match m with
  | [] => [(k, r)]
  | (k', r') :: rest =>
      if decide (k' = k) then (k, r) :: rest else (k', r') :: map_set k r rest
  end.

Fixpoint map_delete (k : SessionId) (m : list (SessionId * Ref))
  : list (SessionId * Ref) :=
  match m with
  | [] => []
  | (k', r') :: rest =>
      if decide (k' = k) then map_delete k rest else (k', r') :: map_delete k rest
  end.

(** [activeSessions.get(id)], followed through to the object. *)
Definition lookup_session (sessionId : SessionId) (w : World) : option (Ref * Session) :=
  r ← map_get sessionId (activeSessions w);
  c ← heap w !! r;
  Some (r, c_session c).

Definition update_cell (r : Ref) (f : Closure → Closure) : M unit :=
  modify (λ w, set_heap (alter f r (heap w)) w).

(** ** File system *)

(** All non-empty prefixes of a path, shortest first. *)
Fixpoint path_prefixes (p : Path) : list Path :=
  match p with
  | [] => []
  | c :: rest => [c] :: map (cons c) (path_prefixes rest)
  end.

Definition existsSync (p : Path) (w : World) : bool :=
  bool_decide (is_Some (fs w !! p)).

Definition is_file (n : option Node) : bool :=
  match n with Some (File _) => true | _ => false end.

(** [mkdir(path, { recursive: true })]: creates the missing directories on
    the way; fails when the environment says so or a component is a file. *)
Definition mkdir (env : Env) (p : Path) : M unit :=
  call (Mkdir p) ;;
  w ← get_world;
  if mkdir_fails env p || existsb (λ q, is_file (fs w !! q)) (path_prefixes p)
  then throw (JsError "mkdir failed")
  else modify (λ w, set_fs (foldr (λ q f, <[q := Dir]> f) (fs w) (path_prefixes p)) w).

(** [fs.rmSync(path, { recursive: true })]: without [force] a missing path
    throws; otherwise the path and everything below it is removed. *)
Definition rmSync (env : Env) (p : Path) : M unit :=
  call (RmSync p) ;;
  w ← get_world;
  if negb (existsSync p w) || rmSync_fails env p
  then throw (JsError "rmSync failed")
  else modify (λ w, set_fs (filter (λ kv, ¬ p `prefix_of` kv.1) (fs w)) w).

Definition writeFileSync (p : Path) (content : JsObject) : M unit :=
  modify (λ w, set_fs (<[p := File content]> (fs w)) w).

(** [synthesizePyrightConfigFile]: the file holds [JSON.stringify(config)],
    kept here as the object it denotes. *)
Definition synthesizePyrightConfigFile (tempDirPath : Path)
    (sessionOptions : option SessionOptions) : M unit :=
  let configFilePath := tempDirPath ++ ["pyrightconfig.json"] in
  let config := synthesizeConfig sessionOptions in
  writeFileSync configFilePath config.

(** ** Session registry *)

(** Maximum time a session can be idle before it is closed. *)
Definition maxSessionLifetime : Z := 1 * 60 * 1000.

Definition getSessionById (env : Env) (id : SessionId) : M (option Session) :=
  w ← get_world;
  match lookup_session id w with
  | Some (r, session) =>
      update_cell r (with_session (set_lastAccessTime (now env))) ;;
      mret (Some (set_lastAccessTime (now env) session))
  | None => mret None
  end.

(** Attempts to close the session and cleans up its resources. It silently
    fails if it cannot. [kill()] reports a signal that could not be delivered
    through its boolean result, which the code discards; the result is kept
    in the trace only. *)
Definition closeSession (env : Env) (sessionId : SessionId) : M unit :=
  w ← get_world;
  match lookup_session sessionId w with
  | None => mret ()
  | Some (r, session) =>
      match langClient session with
      | Some client => call (CancelRequests client)
      | None => mret ()
      end ;;
      match langServerProcess session with
      | Some process => call (Kill process (kill env process))
      | None => mret ()
      end ;;
      update_cell r (with_session (set_langServerProcess None)) ;;
      modify (λ w, set_activeSessions (map_delete sessionId (activeSessions w)) w) ;;
      try_catch (rmSync env (tempDirPath session)) (λ _, mret ())
  end.

(** ** Idle reaper *)

Definition lifetimeTimerFrequency : Z := 1 * 60 * 1000.

(** If there is no session lifetime timer, schedule one. *)
Definition scheduleSessionLifetimeTimer : M unit :=
  w ← get_world;
  match lifetimeTimer w with
  | Some _ => mret ()
  | None => modify (set_lifetimeTimer (Some {| delay := lifetimeTimerFrequency |}))
  end.

(** The body of the [forEach] in the timer callback: [closeSession] and
    the [delete] that follows it remove only the entry being visited. *)
Definition reap (env : Env) (curTime : Z) (entry : SessionId * Ref) : M unit :=
  let '(sessionId, r) := entry in
  w ← get_world;
  match heap w !! r with
  | Some c =>
      if bool_decide (curTime - lastAccessTime (c_session c) > maxSessionLifetime)
      then closeSession env sessionId ;;
           modify (λ w, set_activeSessions (map_delete sessionId (activeSessions w)) w)
      else mret ()
  | None => mret ()
  end.

(** The callback handed to [setTimeout]. [forEach] of a [Map] visits the
    entries in insertion order. *)
Definition lifetimeTimer_callback (env : Env) : M unit :=
  modify (set_lifetimeTimer None) ;;
  let curTime := now env in
  w ← get_world;
  forEach (activeSessions w) (reap env curTime) ;;
  w ← get_world;
  if bool_decide (length (activeSessions w) = 0%nat)
  then scheduleSessionLifetimeTimer
  else mret ().

(** ** Version resolver and installer *)

Module Info.
Record InstallPyrightInfo : Type := {
  pyrightVersion : string;
  localDirectory : Path;
}.
End Info.
Import (notations) Info.
Abbreviation InstallPyrightInfo := Info.InstallPyrightInfo.

(** Lifts the settled result of an awaited promise. *)
Definition await {A} (r : Result A) : M A := λ w, (r, w).

(** [`./pyright_local/${version}`] *)
Definition dirName (version : string) : Path := ["pyright_local"; version].

(** Lines 219-224 of [installPyright]: the requested version when it is
    truthy, else the latest version the index reports. *)
Definition resolveVersion (env : Env) (requestedVersion : option string) : M string :=
  if truthy requestedVersion
  then mret (default "" requestedVersion)
  else call QueryLatest ;; await (Versions.getPyrightLatestVersion (latest env)).

(** [manager.install('basedpyright', version)] with the given plugins path:
    on success the package directory exists below it. *)
Definition install (env : Env) (pluginsPath : Path) (version : string) : M unit :=
  call (Install pluginsPath version) ;;
  if install_fails env version
  then throw (JsError "install failed")
  else modify (λ w, set_fs (<[pluginsPath ++ ["basedpyright"] := Dir]> (fs w)) w).

Definition installPyright (env : Env) (requestedVersion : option string)
  : M InstallPyrightInfo :=
  version ← resolveVersion env requestedVersion;
  let dirName := dirName version in
  w ← get_world;
  if existsSync dirName w
  then mret {| Info.pyrightVersion := version; Info.localDirectory := dirName |}
  else
    try_catch
      (mkdir env (dirName ++ ["node_modules"]) ;;
       install env (dirName ++ ["node_modules"]) version)
      (λ err, throw (JsString ("Failed to install pyright@" +:+ version))) ;;
    mret {| Info.pyrightVersion := version; Info.localDirectory := dirName |}.

(** ** Process launcher *)

(** The synchronous body of the promise executor of [startSession]. The
    result is the address of the new cell, which names the returned promise. *)
Definition startSession (env : Env) (binaryDirPath : Path)
    (sessionOptions : option SessionOptions) : M Ref :=
  let binaryPath := binaryDirPath ++ ["node_modules"; "basedpyright"; "langserver.index.js"] in
  let tempDirPath := mkdtemp env in
  modify (λ w, set_fs (<[tempDirPath := Dir]> (fs w)) w) ;;
  synthesizePyrightConfigFile tempDirPath sessionOptions ;;
  let LC_ALL := if truthy (opt_field locale sessionOptions)
                then opt_field locale sessionOptions else None in
  let langServerProcess := fork env in
  call (Fork binaryPath tempDirPath LC_ALL langServerProcess) ;;
  let sessionId := uuid env in
  let session := {| id := sessionId; lastAccessTime := now env; tempDirPath := tempDirPath;
                    langServerProcess := None; langClient := None |} in
  w ← get_world;
  let r := length (heap w) in
  modify (λ w, set_heap (heap w ++ [{| c_session := session; c_sessionId := sessionId;
                                       c_process := langServerProcess;
                                       c_promise := Pending;
                                       c_handshake := NotCalled |}]) w) ;;
  (* Start tracking the session. *)
  modify (λ w, set_activeSessions (map_set sessionId r (activeSessions w)) w) ;;
  mret r.

(** [resolve] and [reject] settle a promise once; later calls do nothing. *)
Definition settle (p : Promise) (c : Closure) : Closure :=
  match c_promise c with
  | Pending => with_promise p c
  | _ => c
  end.

(** The listeners [startSession] registers, for the cell [r]. *)
Definition on_spawn (r : Ref) : M unit :=
  w ← get_world;
  match heap w !! r with
  | Some c =>
      let client := NewLspClient (c_process c) in
      update_cell r (with_session (set_langServerProcess (Some (c_process c)))) ;;
      update_cell r (with_session (set_langClient (Some client))) ;;
      call (Initialize client (tempDirPath (c_session c))) ;;
      update_cell r (with_handshake InFlight)
  | None => mret ()
  end.

Definition on_initialize_then (r : Ref) : M unit :=
  w ← get_world;
  match heap w !! r with
  | Some c =>
      update_cell r (with_handshake Settled) ;;
      update_cell r (settle (Resolved (c_sessionId c)))
  | None => mret ()
  end.

Definition on_initialize_catch (env : Env) (r : Ref) : M unit :=
  w ← get_world;
  match heap w !! r with
  | Some c =>
      update_cell r (with_handshake Settled) ;;
      update_cell r (settle (Rejected "Failed to start pyright language server connection")) ;;
      closeSession env (c_sessionId c)
  | None => mret ()
  end.

Definition on_error (env : Env) (r : Ref) : M unit :=
  w ← get_world;
  match heap w !! r with
  | Some c =>
      match langServerProcess (c_session c) with
      | None => update_cell r (settle (Rejected "Failed to spawn pyright language server instance"))
      | Some _ => mret ()
      end ;;
      closeSession env (c_sessionId c)
  | None => mret ()
  end.

Definition on_exit (env : Env) (r : Ref) : M unit :=
  w ← get_world;
  match heap w !! r with
  | Some c => closeSession env (c_sessionId c)
  | None => mret ()
  end.

Definition on_close (env : Env) (r : Ref) : M unit := on_exit env r.

(** Allocate a new session and return its ID: the turn of the caller. The
    timer is scheduled and [installPyright] is called; the result is what the
    promise of [installPyright] settles with. [startSession] is not called in
    this turn: it is the body of the [then] callback below. A failed install
    rejects the returned promise and the callback never runs. *)
Definition createNewSession (env : Env) (sessionOptions : option SessionOptions)
  : M InstallPyrightInfo :=
  scheduleSessionLifetimeTimer ;;
  installPyright env (opt_field pyrightVersion sessionOptions).

(** The callback [createNewSession] hands to [then]. The event loop runs it
    in a later turn, with the world and the collaborators of that turn. *)
Definition createNewSession_then (env : Env) (sessionOptions : option SessionOptions)
    (info : InstallPyrightInfo) : M Ref :=
  startSession env (Info.localDirectory info) sessionOptions.

(** ** Transitions *)

Inductive ProcessEvent : Type :=
  | Spawn | InitializeResolved | InitializeRejected | Error | Exit | Close.

(** The turns of the event loop. [CallCreateNewSession] is the turn of the
    caller of [createNewSession]; its [then] callback is a later
    [CallStartSession], which is also a call of the exported [startSession]. *)
Inductive Action : Type :=
  | CallGetSessionById (id : SessionId)
  | CallCloseSession (sessionId : SessionId)
  | CallCreateNewSession (sessionOptions : option SessionOptions)
  | CallStartSession (binaryDirPath : Path) (sessionOptions : option SessionOptions)
  | CallScheduleTimer
  | CallInstallPyright (requestedVersion : option string)
  | TimerFires
  | Event (r : Ref) (e : ProcessEvent).

(** What can happen in a world: a process emits ['spawn'] once, before its
    handshake; the handshake settles once, after it was started; the timer
    fires only while it is pending. *)
Definition enabled (a : Action) (w : World) : bool :=
  match a with
  | TimerFires => bool_decide (is_Some (lifetimeTimer w))
  | Event r e =>
      match heap w !! r with
      | Some c =>
          match e, c_handshake c with
          | Spawn, NotCalled => true
          | Spawn, _ => false
          | (InitializeResolved | InitializeRejected), InFlight => true
          | (InitializeResolved | InitializeRejected), _ => false
          | _, _ => true
          end
      | None => false
      end
  | _ => true
  end.

Definition perform (env : Env) (a : Action) : M unit :=
  match a with
  | CallGetSessionById id => getSessionById env id ;; mret ()
  | CallCloseSession sessionId => closeSession env sessionId
  | CallCreateNewSession sessionOptions => createNewSession env sessionOptions ;; mret ()
  | CallStartSession binaryDirPath sessionOptions =>
      startSession env binaryDirPath sessionOptions ;; mret ()
  | CallScheduleTimer => scheduleSessionLifetimeTimer
  | CallInstallPyright requestedVersion => installPyright env requestedVersion ;; mret ()
  | TimerFires => lifetimeTimer_callback env
  | Event r Spawn => on_spawn r
  | Event r InitializeResolved => on_initialize_then r
  | Event r InitializeRejected => on_initialize_catch env r
  | Event r Error => on_error env r
  | Event r Exit => on_exit env r
  | Event r Close => on_close env r
  end.

(** An exception that escapes a transition is reported to its caller or
    dropped by the event loop; the world it leaves behind stays. *)
Definition step (ea : Env * Action) (w : World) : option World :=
  if enabled ea.2 w then Some (perform ea.1 ea.2 w).2 else None.

Fixpoint run (eas : list (Env * Action)) (w : World) : option World :=
  match eas with
  | [] => Some w
  | ea :: rest => w' ← step ea w; run rest w'
  end.

(** A freshly started server: no sessions, no timer, any disk content. *)
Definition initial (disk : gmap Path Node) : World :=
  {| heap := []; activeSessions := []; lifetimeTimer := None; fs := disk; calls := [] |}.

Definition reachable (w : World) : Prop :=
  ∃ disk eas, run eas (initial disk) = Some w.

(** ** Runs in which every action is enabled *)

(** The world after performing the actions one after the other. *)
Definition perform_all (eas : list (Env * Action)) (w : World) : World :=
  foldl (λ w ea, (perform ea.1 ea.2 w).2) w eas.

(** Whether each action is enabled in the world it meets. *)
Fixpoint enabled_along (eas : list (Env * Action)) (w : World) : bool :=
  match eas with
  | [] => true
  | ea :: rest => enabled ea.2 w && enabled_along rest (perform ea.1 ea.2 w).2
  end.

(** ** Scenarios *)

(** Collaborators that all succeed, for the concrete runs below. *)
Definition calm : Env :=
  {| now := 1000;
     uuid := "0b5e7c0e-session-1";
     mkdtemp := ["tmp"; "pyright_playgroundA1b2C3"];
     fork := 1%nat;
     kill := λ _, true;
     rmSync_fails := λ _, false;
     latest := Ok {| Versions.version := Some "2.1.0" |};
     mkdir_fails := λ _, false;
     install_fails := λ _, false |}.

Definition with_now (t : Z) (env : Env) : Env :=
  {| now := t; uuid := uuid env; mkdtemp := mkdtemp env; fork := fork env;
     kill := kill env; rmSync_fails := rmSync_fails env; latest := latest env;
     mkdir_fails := mkdir_fails env; install_fails := install_fails env |}.

Definition with_latest (answer : Result Versions.Manifest) (env : Env) : Env :=
  {| now := now env; uuid := uuid env; mkdtemp := mkdtemp env; fork := fork env;
     kill := kill env; rmSync_fails := rmSync_fails env; latest := answer;
     mkdir_fails := mkdir_fails env; install_fails := install_fails env |}.

(** The installer rejects every version. *)
Definition broken_installer (env : Env) : Env :=
  {| now := now env; uuid := uuid env; mkdtemp := mkdtemp env; fork := fork env;
     kill := kill env; rmSync_fails := rmSync_fails env; latest := latest env;
     mkdir_fails := mkdir_fails env; install_fails := λ _, true |}.

(** [kill()] reports failure and removing a directory throws. *)
Definition broken_teardown (env : Env) : Env :=
  {| now := now env; uuid := uuid env; mkdtemp := mkdtemp env; fork := fork env;
     kill := λ _, false; rmSync_fails := λ _, true; latest := latest env;
     mkdir_fails := mkdir_fails env; install_fails := install_fails env |}.

(** Runs [installPyright] for each version in turn, each call starting
    after the previous one has settled. *)
Definition install_all (env : Env) (versions : list string) (w : World)
  : list (Result InstallPyrightInfo) * World :=
  foldl (λ acc v, let res := installPyright env (Some v) acc.2 in
                  (acc.1 ++ [res.1], res.2))
        ([], w) versions.

Definition succeeded {A} (r : Result A) : bool :=
  match r with Ok _ => true | Throw _ => false end.

(** A directory [./pyright_local/<version>]. *)
Definition is_version_dir (p : Path) : bool :=
  match p with
  | [top; _] => String.eqb top "pyright_local"
  | _ => false
  end.

(** The versions that count as installed: the directories the cache-hit
    test of [installPyright] looks for. *)
Definition installed_versions (w : World) : list Path :=
  List.filter is_version_dir (map_to_list (fs w)).*1.

(** A session is created with no options and its worker comes up: the
    turn of the caller, then the [then] callback with the directory of the
    version the index reports. *)
Definition creation : list (Env * Action) :=
  [(calm, CallCreateNewSession None);
   (calm, CallStartSession ["pyright_local"; "2.1.0"] None)].

Definition successful_launch : list (Env * Action) :=
  creation ++ [(calm, Event 0%nat Spawn); (calm, Event 0%nat InitializeResolved)].

(** The world after [creation] and the ['spawn'] event of the worker. *)
Definition spawned_world : World :=
  perform_all (creation ++ [(calm, Event 0%nat Spawn)]) (initial ∅).

(** Collaborators of a second request: another id, scratch directory and
    worker. *)
Definition second : Env :=
  {| now := 2000;
     uuid := "5d2c91aa-session-2";
     mkdtemp := ["tmp"; "pyright_playgroundX7y8Z9"];
     fork := 2%nat;
     kill := λ _, true;
     rmSync_fails := λ _, false;
     latest := Ok {| Versions.version := Some "2.1.0" |};
     mkdir_fails := λ _, false;
     install_fails := λ _, false |}.

(** Two sessions whose workers have come up. *)
Definition two_launches : list (Env * Action) :=
  creation ++ [(calm, Event 0%nat Spawn)]
  ++ [(second, CallCreateNewSession None);
      (second, CallStartSession ["pyright_local"; "2.1.0"] None);
      (second, Event 1%nat Spawn)].

Definition two_sessions : World := perform_all two_launches (initial ∅).

(** A second creation during which the timer fires: the first session has
    come up, the second request is made, and the timer fires before the
    [then] callback of the second request runs. *)
Definition creation_across_sweep : list (Env * Action) :=
  creation ++ [(calm, Event 0%nat Spawn);
               (second, CallCreateNewSession None);
               (with_now 61000 second, TimerFires)].

(** Options that leave the Python version open and carry two overrides. *)
Definition sample_options : SessionOptions :=
  {| pythonVersion := None;
     pythonPlatform := Some "Linux";
     pyrightVersion := None;
     typeCheckingMode := None;
     configOverrides := Some {[ "reportMissingImports" := false; "pythonPlatform" := true ]};
     locale := None |}.

Definition twenty_one_versions : list string :=
  ["1.0.0"; "1.0.1"; "1.0.2"; "1.0.3"; "1.0.4"; "1.0.5"; "1.0.6";
   "1.0.7"; "1.0.8"; "1.0.9"; "1.0.10"; "1.0.11"; "1.0.12"; "1.0.13";
   "1.0.14"; "1.0.15"; "1.0.16"; "1.0.17"; "1.0.18"; "1.0.19"; "1.0.20"].

(** ** Registry invariant *)

(** The worker handle and the client handle of a session record are both
    present or both absent. *)
Definition handles_agree (s : Session) : Prop :=
  langServerProcess s = None ↔ langClient s = None.

(** Every key of the registry leads to a session object of that id whose
    handles agree. *)
Definition registry_inv (w : World) : Prop :=
  ∀ sessionId r, map_get sessionId (activeSessions w) = Some r →
    ∃ c, heap w !! r = Some c
         ∧ c_sessionId c = sessionId
         ∧ id (c_session c) = sessionId
         ∧ handles_agree (c_session c).

(** The handles of a record follow the ['spawn'] of its worker: none before
    [initialize] has been called, which happens in the ['spawn'] listener,
    and from then on the handle of its worker and the client made for it. *)
Definition handles_follow_spawn (c : Closure) : Prop :=
  match c_handshake c with
  | NotCalled =>
      langServerProcess (c_session c) = None ∧ langClient (c_session c) = None
  | _ =>
      langServerProcess (c_session c) = Some (c_process c)
      ∧ langClient (c_session c) = Some (NewLspClient (c_process c))
  end.

(** Every key of the registry leads to a session object of that id whose
    handles follow the ['spawn'] of its worker. *)
Definition launch_inv (w : World) : Prop :=
  ∀ sessionId r, map_get sessionId (activeSessions w) = Some r →
    ∃ c, heap w !! r = Some c
         ∧ c_sessionId c = sessionId
         ∧ id (c_session c) = sessionId
         ∧ handles_follow_spawn c.

(** The cell [startSession] allocates. *)
Definition new_cell (env : Env) : Closure :=
  {| c_session := {| id := uuid env; lastAccessTime := now env; tempDirPath := mkdtemp env;
                     langServerProcess := None; langClient := None |};
     c_sessionId := uuid env;
     c_process := fork env;
     c_promise := Pending;
     c_handshake := NotCalled |}.

(** What [on_spawn] does to its cell. *)
Definition spawned (c : Closure) : Closure :=
  with_handshake InFlight
    (with_session (set_langClient (Some (NewLspClient (c_process c))))
       (with_session (set_langServerProcess (Some (c_process c))) c)).

(** ** The launch protocol seen from outside *)

(** What the callbacks of one [startSession] call have settled so far. *)
Record Status : Type := {
  st_id : SessionId;
  st_handshake : Handshake;
  st_promise : Promise;
}.

Definition status_of (c : Closure) : Status :=
  {| st_id := c_sessionId c; st_handshake := c_handshake c; st_promise := c_promise c |}.

Definition statuses (w : World) : list Status := status_of <$> heap w.

Definition fresh_status (sessionId : SessionId) : Status :=
  {| st_id := sessionId; st_handshake := NotCalled; st_promise := Pending |}.

(** How one transition may change the statuses: not at all, by a new
    launch, or at the launch the event belongs to, where the handshake
    starts only on ['spawn'] and the promise resolves only when a started
    handshake succeeds. *)
Definition status_step (a : Action) (S S' : list Status) : Prop :=
  S' = S
  ∨ (∃ sessionId, S' = S ++ [fresh_status sessionId])
  ∨ (∃ r e s s',
        a = Event r e ∧ S !! r = Some s ∧ S' = <[r := s']> S
        ∧ st_id s' = st_id s
        ∧ (st_handshake s' ≠ NotCalled → st_handshake s ≠ NotCalled ∨ e = Spawn)
        ∧ (∀ v, st_promise s' = Resolved v →
                st_promise s = Resolved v
                ∨ (v = st_id s ∧ st_handshake s ≠ NotCalled ∧ e = InitializeResolved))).

(** A history of actions accounts for the statuses when every started
    handshake has its ['spawn'] in the history and every resolved promise
    carries the id of its session and has, in this order, its ['spawn'] and
    the success of its handshake in the history. *)
Definition accounts_for (acts : list Action) (S : list Status) : Prop :=
  ∀ r s, S !! r = Some s →
    (st_handshake s ≠ NotCalled → Event r Spawn ∈ acts)
    ∧ (∀ v, st_promise s = Resolved v →
            v = st_id s
            ∧ ∃ pre mid post,
                acts = pre ++ Event r Spawn :: mid ++ Event r InitializeResolved :: post).

(** ** Auxiliary definitions for the proofs *)

(** The [forEach] over the overrides, on the list of their entries. *)
Definition merge_overrides (config : JsObject) (l : list (string * bool)) : JsObject :=
  foldl (λ config kv, assign kv.1 (JBool kv.2) config) config l.

(** [overrides] of the options, empty when there are none. *)
Definition overrides_of (sessionOptions : option SessionOptions) : gmap string bool :=
  default ∅ (opt_field configOverrides sessionOptions).

(** The world [closeSession] leaves for a registered session, up to the
    collaborator calls it made and what became of the scratch directory. *)
Definition closed_world (sessionId : SessionId) (r : Ref) (w : World)
    (disk : gmap Path Node) (cs : list Call) : World :=
  {| heap := alter (with_session (set_langServerProcess None)) r (heap w);
     activeSessions := map_delete sessionId (activeSessions w);
     lifetimeTimer := lifetimeTimer w;
     fs := disk;
     calls := cs |}.

(** What [mkdir] followed by [manager.install] leaves behind. *)
Definition after_mkdir (p : Path) (w : World) : World :=
  set_fs (foldr (λ q f, <[q := Dir]> f) (fs w) (path_prefixes p))
         (set_calls (calls w ++ [Mkdir p]) w).

Definition after_install_call (p : Path) (version : string) (w : World) : World :=
  set_calls (calls (after_mkdir p w) ++ [Install p version]) (after_mkdir p w).

(** Unfolds the monad operations at the head of a computation. *)
Ltac mrun :=
  unfold call, await, update_cell;
  unfold mbind, M_bind, mret, M_ret, get_world, modify, throw, try_catch;
  cbn beta iota.

(** ** Idle sessions *)

(** The test of the sweep: the session of the cell has been idle for longer
    than [maxSessionLifetime] at the time the environment reports. *)
Definition idle (env : Env) (c : Closure) : bool :=
  bool_decide (now env - lastAccessTime (c_session c) > maxSessionLifetime).

(** Whether the sweep closes the session behind a reference. *)
Definition idle_at (env : Env) (w : World) (r : Ref) : bool :=
  match heap w !! r with
  | Some c => idle env c
  | None => false
  end.

(** While a sweep runs over the world [w0]: the registry entries still
    present are entries of [w0] with their cells untouched, and no cell has
    changed its last access time. *)
Definition sweeping (w0 w : World) : Prop :=
  registry_inv w
  ∧ (∀ r, lastAccessTime ∘ c_session <$> heap w !! r
          = lastAccessTime ∘ c_session <$> heap w0 !! r)
  ∧ (∀ sessionId r, map_get sessionId (activeSessions w) = Some r →
       map_get sessionId (activeSessions w0) = Some r ∧ heap w !! r = heap w0 !! r).

(** ** Process events *)

(** What the listener of an event does to the cell it belongs to, apart
    from closing the session. *)
Definition event_cell (e : ProcessEvent) (c : Closure) : Closure :=
  match e with
  | Spawn => spawned c
  | InitializeResolved => settle (Resolved (c_sessionId c)) (with_handshake Settled c)
  | InitializeRejected =>
      settle (Rejected "Failed to start pyright language server connection")
             (with_handshake Settled c)
  | Error =>
      match langServerProcess (c_session c) with
      | None => settle (Rejected "Failed to spawn pyright language server instance") c
      | Some _ => c
      end
  | Exit | Close => c
  end.

(** Whether the listener of an event ends in [closeSession]. *)
Definition event_closes (e : ProcessEvent) : bool :=
  match e with
  | Spawn | InitializeResolved => false
  | InitializeRejected | Error | Exit | Close => true
  end.

(** The world after a successful launch, and what may still happen to its
    worker afterwards. *)
Definition launched_world : World := (on_initialize_then 0%nat spawned_world).2.

Definition later_trouble : list (Env * Action) :=
  [(broken_teardown calm, Event 0%nat Error);
   (calm, Event 0%nat Exit);
   (calm, CallCloseSession (uuid calm))].

(** ** The in-browser client: worker script and configuration *)

Module Browser.

(** [packageName] of [client/sessionManager.ts]. *)
Definition packageName : string := "browser-basedpyright".

(** How the first [await] of [initialize] can end. *)
Inductive Outcome (A : Type) : Type :=
  | Fulfilled (a : A)
  | TypeErrorThrown
  | RejectedWith (e : Thrown).
Arguments Fulfilled {A} a.
Arguments TypeErrorThrown {A}.
Arguments RejectedWith {A} e.

(** [`${x}`] for a string that may be [undefined]. *)
Definition template_opt (x : option string) : string :=
  match x with
  | Some s => s
  | None => "undefined"
  end.

(** The first statement of [LspClient.initialize] after the notification:
    [sessionOptions.pyrightVersion] throws a [TypeError] when the options are
    [undefined]; [??] falls through to the listing only for a missing
    version, not for an empty one; [[0]] of an empty listing is [undefined]. *)
Definition workerScript (sessionOptions : option SessionOptions)
    (answer : Result Versions.Packument) : Outcome string :=
  match sessionOptions with
  | None => TypeErrorThrown
  | Some options =>
      let url version :=
        "https://cdn.jsdelivr.net/npm/" +:+ packageName +:+ "@" +:+ version
          +:+ "/dist/pyright.worker.js" in
      match pyrightVersion options with
      | Some v => Fulfilled (url v)
      | None =>
          match Versions.client_getPyrightVersions answer with
          | Ok listed => Fulfilled (url (template_opt (listed !! 0%nat)))
          | Throw e => RejectedWith e
          end
      end
  end.

(** A value in the configuration object of the client: a string option, a
    flag, or the nested object of overrides. *)
Inductive ConfigValue : Type :=
  | CString (s : string)
  | CFlag (b : bool)
  | COverrides (m : gmap string bool).

(** A property of the options that is defined, as [JSON.stringify] keeps it. *)
Definition option_entry (key : string) (value : option string)
    (config : gmap string ConfigValue) : gmap string ConfigValue :=
  match value with
  | Some v => <[key := CString v]> config
  | None => config
  end.

(** [{typeshedPath: '/typeshed', ...sessionOptions, ...sessionOptions.configOverrides}]
    as [JSON.stringify] writes it: properties whose value is [undefined] are
    left out, and spreading defines own properties, later ones replacing
    earlier ones of the same name. *)
Definition pyrightconfig (options : SessionOptions) : gmap string ConfigValue :=
  let config : gmap string ConfigValue := {[ "typeshedPath" := CString "/typeshed" ]} in
  let config := option_entry "pythonVersion" (pythonVersion options) config in
  let config := option_entry "pythonPlatform" (pythonPlatform options) config in
  let config := option_entry "pyrightVersion" (pyrightVersion options) config in
  let config := option_entry "typeCheckingMode" (typeCheckingMode options) config in
  let config :=
    match configOverrides options with
    | Some m => <["configOverrides" := COverrides m]> config
    | None => config
    end in
  let config := option_entry "locale" (locale options) config in
  match configOverrides options with
  | Some m => (CFlag <$> m) ∪ config
  | None => config
  end.

End Browser.

(** ** The language client of the browser build: diagnostics requests *)

Module Lsp.

(** A diagnostic, as far as the client looks into it. *)
Inductive Diagnostic : Type := Diag (message : string).

(** [PublishDiagnosticsParams]: the version is optional. *)
Record Published : Type := {
  version : option Z;
  diagnostics : list Diagnostic;
}.

(** The promise [getDiagnostics] returns. *)
Inductive Answer : Type :=
  | Waiting
  | Resolved (diagnostics : list Diagnostic)
  | Rejected (message : string).

(** A [DiagnosticRequest] is a callback bound to one promise; the address of
    the promise stands for it. *)
Abbreviation Request := nat.

Record Client : Type := {
  documentVersion : Z;
  documentText : string;
  documentDiags : option Published;
  (** [_pendingDiagRequests]: requests by document version. *)
  pendingDiagRequests : gmap Z (list Request);
  (** The promises handed out, by address. *)
  answers : list Answer;
  (** Executors suspended at [await this.updateTextDocument(code)], with the
      version that call will return. *)
  suspended : list (Request * Z);
  (** [textDocument/didChange] notifications sent: version and text. *)
  sent : list (Z * string);
  (** Calls of [onNotification]. *)
  shown : list (list Diagnostic);
}.

(** A client as its constructor leaves it. *)
Definition fresh : Client :=
  {| documentVersion := 1; documentText := ""; documentDiags := None;
     pendingDiagRequests := ∅; answers := []; suspended := []; sent := []; shown := [] |}.

(** Field updates. *)
Definition set_text (t : string) (c : Client) : Client :=
  {| documentVersion := documentVersion c; documentText := t;
     documentDiags := documentDiags c; pendingDiagRequests := pendingDiagRequests c;
     answers := answers c; suspended := suspended c; sent := sent c; shown := shown c |}.

Definition set_pending (m : gmap Z (list Request)) (c : Client) : Client :=
  {| documentVersion := documentVersion c; documentText := documentText c;
     documentDiags := documentDiags c; pendingDiagRequests := m;
     answers := answers c; suspended := suspended c; sent := sent c; shown := shown c |}.

Definition set_answers (a : list Answer) (c : Client) : Client :=
  {| documentVersion := documentVersion c; documentText := documentText c;
     documentDiags := documentDiags c; pendingDiagRequests := pendingDiagRequests c;
     answers := a; suspended := suspended c; sent := sent c; shown := shown c |}.

Definition set_suspended (s : list (Request * Z)) (c : Client) : Client :=
  {| documentVersion := documentVersion c; documentText := documentText c;
     documentDiags := documentDiags c; pendingDiagRequests := pendingDiagRequests c;
     answers := answers c; suspended := s; sent := sent c; shown := shown c |}.

(** [updateCode] *)
Definition updateCode (code : string) (c : Client) : Client := set_text code c.

(** The synchronous part of [updateTextDocument]: bump the version, keep the
    text, send the change. *)
Definition updateTextDocument (code : string) (c : Client) : Z * Client :=
  let documentVersion := documentVersion c + 1 in
  (documentVersion,
   {| documentVersion := documentVersion; documentText := code;
      documentDiags := documentDiags c; pendingDiagRequests := pendingDiagRequests c;
      answers := answers c; suspended := suspended c;
      sent := sent c ++ [(documentVersion, code)]; shown := shown c |}).

(** Queue a request for diagnostics. *)
Definition queue (documentVersion : Z) (request : Request) (c : Client) : Client :=
  let requestList := default [] (pendingDiagRequests c !! documentVersion) in
  set_pending (<[documentVersion := requestList ++ [request]]> (pendingDiagRequests c)) c.

(** [resolve] and [reject] of a promise act once. *)
Definition answer_once (a : Answer) (old : Answer) : Answer :=
  match old with
  | Waiting => a
  | _ => old
  end.

(** [getDiagnostics], up to its first suspension. The result is the address
    of the promise it returns. *)
Definition getDiagnostics (code : string) (c : Client) : Request * Client :=
  let codeChanged := negb (String.eqb (documentText c) code) in
  let p := length (answers c) in
  match codeChanged, documentDiags c with
  | false, Some cached =>
      (* the cached diagnostics *)
      (p, set_answers (answers c ++ [Resolved (diagnostics cached)]) c)
  | false, None =>
      (p, queue (documentVersion c) p (set_answers (answers c ++ [Waiting]) c))
  | true, _ =>
      let c := set_answers (answers c ++ [Waiting]) c in
      let '(documentVersion, c) := updateTextDocument code c in
      (p, set_suspended (suspended c ++ [(p, documentVersion)]) c)
  end.

(** The notification of [updateTextDocument] has been sent, or sending has
    failed: the executor suspended for the request goes on and queues it, or
    ends with the exception, which leaves its promise as it is. *)
Definition afterSend (request : Request) (delivered : bool) (c : Client) : Client :=
  match list_find (λ entry, entry.1 = request) (suspended c) with
  | Some (i, (_, documentVersion)) =>
      let c := set_suspended (delete i (suspended c)) c in
      if delivered then queue documentVersion request c else c
  | None => c
  end.

(** The handler of [textDocument/publishDiagnostics]. *)
Definition onPublishDiagnostics (diagInfo : Published) (c : Client) : Client :=
  let diagVersion := default (-1) (version diagInfo) in
  let replace :=
    match documentDiags c with
    | None => true
    | Some cached =>
        match version cached with
        | Some v => bool_decide (v < diagVersion)
        | None => false
        end
    end in
  {| documentVersion := documentVersion c; documentText := documentText c;
     documentDiags := if replace then Some diagInfo else documentDiags c;
     pendingDiagRequests := delete diagVersion (pendingDiagRequests c);
     answers := answers c; suspended := suspended c; sent := sent c;
     shown := shown c ++ [diagnostics diagInfo] |}.

(** Cancels all pending requests. *)
Definition cancelRequests (c : Client) : Client :=
  let requests := mjoin (map_to_list (pendingDiagRequests c)).*2 in
  set_pending ∅
    (set_answers
       (foldl (λ a request, alter (answer_once (Rejected "Request canceled")) request a)
              (answers c) requests)
       c).

(** What can happen to a client between two turns of the event loop: a call
    of one of its methods, the end of a send, or a notification of the
    server. *)
Inductive Input : Type :=
  | UpdateCode (code : string)
  | GetDiagnostics (code : string)
  | AfterSend (request : Request) (delivered : bool)
  | Publish (diagInfo : Published)
  | CancelRequests.

Definition react (s : Input) (c : Client) : Client :=
  match s with
  | UpdateCode code => updateCode code c
  | GetDiagnostics code => (getDiagnostics code c).2
  | AfterSend request delivered => afterSend request delivered c
  | Publish diagInfo => onPublishDiagnostics diagInfo c
  | CancelRequests => cancelRequests c
  end.

(** The client after a sequence of inputs. *)
Definition reacts (ss : list Input) (c : Client) : Client := foldl (λ c s, react s c) c ss.

(** The requests still held somewhere: queued under a version or suspended. *)
Definition held (request : Request) (c : Client) : Prop :=
  (∃ v requestList, pendingDiagRequests c !! v = Some requestList ∧ request ∈ requestList)
  ∨ (∃ v, (request, v) ∈ suspended c).

End Lsp.

(** Every request held by a client has been handed out by it. *)
Definition lsp_wf (c : Lsp.Client) : Prop :=
  ∀ p, Lsp.held p c → (p < length (Lsp.answers c))%nat.

(** * Properties *)

(** ** Version listing *)

Section VersionListing.
Import Versions.

Lemma filter_all_prerelease (vs : list string) :
  Forall (λ v, includes_hyphen v = true) vs → List.filter is_release vs = [].
Proof.
  induction 1 as [|v vs Hv _ IH]; simpl; [done|].
  unfold is_release at 1. by rewrite Hv.
Qed.

Lemma reverse_nil_inv {A} (l : list A) : reverse l = [] → l = [].
Proof.
  intros H. apply (f_equal length) in H. rewrite length_reverse in H.
  by destruct l.
Qed.

Lemma take_reverse_nonempty {A} (n : nat) (l : list A) :
  l ≠ [] → take (S n) (reverse l) ≠ [].
Proof.
  intros Hl H. destruct (reverse l) as [|x r] eqn:E; [|done].
  by apply reverse_nil_inv in E.
Qed.

(** C10. In both client copies of [getPyrightVersions], when every
    version string of the response contains a hyphen the release filter is
    not applied: the listing is the response newest first (cut to 50 in
    the capped copy), and it is empty only when the response is. *)
Theorem client_listing_keeps_prereleases (vs : list string) :
  Forall (λ v, includes_hyphen v = true) vs →
  client_getPyrightVersions_uncapped (Ok {| versions := vs |}) = Ok (reverse vs)
  ∧ client_getPyrightVersions (Ok {| versions := vs |})
    = Ok (take maxPyrightVersionCount (reverse vs))
  ∧ (vs ≠ [] →
     client_getPyrightVersions_uncapped (Ok {| versions := vs |}) ≠ Ok []
     ∧ client_getPyrightVersions (Ok {| versions := vs |}) ≠ Ok []).
Proof.
  intros Hall.
  unfold client_getPyrightVersions_uncapped, client_getPyrightVersions; simpl.
  rewrite (filter_all_prerelease vs Hall); simpl.
  split; [done|]. split; [done|].
  intros Hne. split; intros [= H].
  - by apply reverse_nil_inv in H.
  - by apply (take_reverse_nonempty 49 vs Hne).
Qed.

Lemma client_listing_keeps_prereleases_witness :
  client_getPyrightVersions (Ok {| versions := ["1.3.0-dev1"; "1.3.0-dev2"] |})
  = Ok ["1.3.0-dev2"; "1.3.0-dev1"].
Proof.
  refine (proj1 (proj2 (client_listing_keeps_prereleases ["1.3.0-dev1"; "1.3.0-dev2"] _))).
  repeat constructor.
Defined.

(** The other direction: as soon as one release exists, only releases are
    listed. *)
Lemma client_listing_filters_when_release_exists (vs : list string) :
  Exists (λ v, includes_hyphen v = false) vs →
  client_getPyrightVersions_uncapped (Ok {| versions := vs |})
  = Ok (reverse (List.filter is_release vs)).
Proof.
  intros Hex. unfold client_getPyrightVersions_uncapped; simpl.
  rewrite bool_decide_eq_true_2; [done|].
  induction Hex as [v vs Hv | v vs _ IH]; simpl.
  - unfold is_release at 1. by rewrite Hv.
  - destruct (is_release v); simpl; [lia | done].
Qed.

(** The server listing on the scenario of the specification: the index
    lists oldest first, so after filtering and reversing the first entry is
    the last release of the response. *)
Example server_listing_scenario :
  getPyrightVersions (Ok {| versions := ["2.1.0"; "2.0.9-beta"; "2.0.8"] |})
  = Ok ["2.0.8"; "2.1.0"].
Proof. reflexivity. Qed.

End VersionListing.

(** ** Synthesized configuration *)

Section Config.

Lemma assign_lookup_ne (key k : string) (v : JsonValue) (config : JsObject) :
  key ≠ k → assign key v config !! k = config !! k.
Proof. intros. unfold assign. case_decide; [done|]. by rewrite lookup_insert_ne. Qed.

Lemma assign_lookup_eq (key : string) (v : JsonValue) (config : JsObject) :
  key ≠ "__proto__" → assign key v config !! key = Some v.
Proof. intros. unfold assign. case_decide; [done|]. by rewrite lookup_insert_eq. Qed.

Lemma merge_overrides_absent (l : list (string * bool)) (config : JsObject) (k : string) :
  k ∉ l.*1 → merge_overrides config l !! k = config !! k.
Proof.
  revert config. induction l as [|[k' b'] l IH]; intros config Hk; simpl; [done|].
  rewrite fmap_cons, not_elem_of_cons in Hk. destruct Hk as [Hne Hk].
  unfold merge_overrides in *. simpl. rewrite IH by done.
  by apply assign_lookup_ne.
Qed.

Lemma merge_overrides_present (l : list (string * bool)) (config : JsObject)
    (k : string) (b : bool) :
  NoDup l.*1 → (k, b) ∈ l → k ≠ "__proto__" →
  merge_overrides config l !! k = Some (JBool b).
Proof.
  revert config. induction l as [|[k' b'] l IH]; intros config Hnd Hin Hk.
  - by apply elem_of_nil in Hin.
  - rewrite fmap_cons in Hnd. apply NoDup_cons in Hnd as [Hfresh Hnd].
    apply elem_of_cons in Hin as [Heq | Hin].
    + injection Heq as <- <-. unfold merge_overrides; simpl.
      fold (merge_overrides (assign k (JBool b) config) l).
      rewrite merge_overrides_absent by done. by apply assign_lookup_eq.
    + unfold merge_overrides; simpl. by apply IH.
Qed.

Lemma synthesizeConfig_lookup (sessionOptions : option SessionOptions) (k : string) :
  overrides_of sessionOptions !! k = None →
  synthesizeConfig sessionOptions !! k =
    (if decide (k = "pythonVersion") then
       Some (JString (if truthy (opt_field pythonVersion sessionOptions)
                      then default "" (opt_field pythonVersion sessionOptions)
                      else defaultPythonVersion))
     else if decide (k = "pythonPlatform") then
       Some (JString (if truthy (opt_field pythonPlatform sessionOptions)
                      then default "" (opt_field pythonPlatform sessionOptions)
                      else defaultPythonPlatform))
     else if decide (k = "typeCheckingMode") then
       (if truthy (opt_field typeCheckingMode sessionOptions)
        then Some (JString (default "" (opt_field typeCheckingMode sessionOptions)))
        else None)
     else None).
Proof.
  intros Hov. unfold synthesizeConfig, overrides_of in *.
  match goal with
  | |- (match _ with Some _ => _ | None => ?b end) !! _ = ?rhs =>
      set (base := b); assert (Hbase : base !! k = rhs)
  end.
  2: { destruct (opt_field configOverrides sessionOptions) as [ov|]; simpl in Hov.
       - fold (merge_overrides base (map_to_list ov)).
         rewrite merge_overrides_absent; [exact Hbase|].
         intros Hin. apply list_elem_of_fmap in Hin as [[k' b] [-> Hin]].
         apply elem_of_map_to_list in Hin. simpl in Hov. congruence.
       - exact Hbase. }
  subst base. unfold assign.
  repeat (case_decide; try done);
    destruct (truthy (opt_field pythonVersion sessionOptions));
    destruct (truthy (opt_field pythonPlatform sessionOptions));
    destruct (truthy (opt_field typeCheckingMode sessionOptions));
    subst; simplify_map_eq; done.
Qed.

(** C8. The object written to [pyrightconfig.json] in the scratch
    directory has [pythonVersion] "3.12" and [pythonPlatform] "All" when
    the caller gave none, has no [typeCheckingMode] key when the caller
    gave none, and carries every caller override, which is merged last and
    so replaces a computed value under the same key (the defaults hold for
    keys the overrides leave alone). *)
Theorem config_defaults_and_overrides (tempDirPath : Path)
    (sessionOptions : option SessionOptions) (w : World) :
  let overrides := overrides_of sessionOptions in
  let config := synthesizeConfig sessionOptions in
  fs (synthesizePyrightConfigFile tempDirPath sessionOptions w).2
    !! (tempDirPath ++ ["pyrightconfig.json"]) = Some (File config)
  ∧ (truthy (opt_field pythonVersion sessionOptions) = false →
     overrides !! "pythonVersion" = None →
     config !! "pythonVersion" = Some (JString "3.12"))
  ∧ (truthy (opt_field pythonPlatform sessionOptions) = false →
     overrides !! "pythonPlatform" = None →
     config !! "pythonPlatform" = Some (JString "All"))
  ∧ (truthy (opt_field typeCheckingMode sessionOptions) = false →
     overrides !! "typeCheckingMode" = None →
     config !! "typeCheckingMode" = None)
  ∧ (∀ key b, overrides !! key = Some b → key ≠ "__proto__" →
     config !! key = Some (JBool b)).
Proof.
  intros overrides config. subst overrides config.
  split; [| split; [| split; [| split]]].
  - unfold synthesizePyrightConfigFile, writeFileSync, modify; simpl.
    by rewrite lookup_insert_eq.
  - intros Ht Hov. rewrite synthesizeConfig_lookup by done. simpl. by rewrite Ht.
  - intros Ht Hov. rewrite synthesizeConfig_lookup by done. simpl. by rewrite Ht.
  - intros Ht Hov. rewrite synthesizeConfig_lookup by done. simpl. by rewrite Ht.
  - intros key b Hov Hkey. unfold synthesizeConfig, overrides_of in *.
    destruct (opt_field configOverrides sessionOptions) as [ov|]; simpl in Hov.
    + apply merge_overrides_present; [apply NoDup_fst_map_to_list| |done].
      by apply elem_of_map_to_list.
    + by rewrite lookup_empty in Hov.
Qed.

Lemma config_defaults_and_overrides_witness :
  synthesizeConfig (Some sample_options) !! "pythonVersion" = Some (JString "3.12")
  ∧ synthesizeConfig (Some sample_options) !! "typeCheckingMode" = None
  ∧ synthesizeConfig (Some sample_options) !! "pythonPlatform" = Some (JBool true).
Proof.
  destruct (config_defaults_and_overrides (mkdtemp calm) (Some sample_options) (initial ∅))
    as (_ & Hversion & _ & Hmode & Hover).
  split; [apply Hversion; vm_compute; reflexivity|].
  split; [apply Hmode; vm_compute; reflexivity|].
  apply Hover; [vm_compute; reflexivity | discriminate].
Defined.

End Config.

(** ** Running monadic code *)

Section MonadLemmas.

Lemma bind_run {A B} (m : M A) (k : A → M B) (w : World) :
  (m ≫= k) w = match m w with
               | (Ok a, w') => k a w'
               | (Throw e, w') => (Throw e, w')
               end.
Proof. reflexivity. Qed.

Lemma discard_world {A} (m : M A) (w : World) : ((m ;; mret ()) w).2 = (m w).2.
Proof. rewrite bind_run. by destruct (m w) as [[a|e] w']. Qed.

Lemma forEach_cons {A} (x : A) (xs : list A) (f : A → M unit) (w : World) :
  forEach (x :: xs) f w = match f x w with
                          | (Ok _, w') => forEach xs f w'
                          | (Throw e, w') => (Throw e, w')
                          end.
Proof. reflexivity. Qed.

(** A loop whose body keeps a property of the world keeps it. *)
Lemma forEach_preserves {A} (P : World → Prop) (xs : list A) (f : A → M unit) :
  (∀ x w, P w → P (f x w).2) → ∀ w, P w → P (forEach xs f w).2.
Proof.
  intros Hf. induction xs as [|x xs IH]; intros w Hw; [done|].
  rewrite forEach_cons. specialize (Hf x w Hw).
  destruct (f x w) as [[[]|e] w']; simpl in *; auto.
Qed.

Lemma forEach_ok {A} (xs : list A) (f : A → M unit) :
  (∀ x w, (f x w).1 = Ok ()) → ∀ w, (forEach xs f w).1 = Ok ().
Proof.
  intros Hf. induction xs as [|x xs IH]; intros w; [done|].
  rewrite forEach_cons. specialize (Hf x w).
  destruct (f x w) as [[[]|e] w']; simpl in *; [apply IH | done].
Qed.

End MonadLemmas.

(** ** Closing a session *)

Section MapLemmas.

Lemma map_get_delete_eq (k : SessionId) (m : list (SessionId * Ref)) :
  map_get k (map_delete k m) = None.
Proof.
  induction m as [|[k' r'] m IH]; simpl; [done|].
  case_decide; simpl; [done|]. by rewrite decide_False.
Qed.

Lemma map_get_delete_ne (k k' : SessionId) (m : list (SessionId * Ref)) :
  k ≠ k' → map_get k' (map_delete k m) = map_get k' m.
Proof.
  intros Hne. induction m as [|[k0 r0] m IH]; simpl; [done|].
  destruct (decide (k0 = k)) as [->|]; simpl.
  - by rewrite decide_False.
  - by rewrite IH.
Qed.

Lemma map_get_set_eq (k : SessionId) (r : Ref) (m : list (SessionId * Ref)) :
  map_get k (map_set k r m) = Some r.
Proof.
  induction m as [|[k0 r0] m IH]; simpl.
  - by rewrite decide_True.
  - destruct (decide (k0 = k)); simpl; [by rewrite decide_True|].
    by rewrite decide_False.
Qed.

Lemma map_get_set_ne (k k' : SessionId) (r : Ref) (m : list (SessionId * Ref)) :
  k ≠ k' → map_get k' (map_set k r m) = map_get k' m.
Proof.
  intros Hne. induction m as [|[k0 r0] m IH]; simpl.
  - by rewrite decide_False.
  - destruct (decide (k0 = k)) as [->|]; simpl.
    + by rewrite !decide_False.
    + by rewrite IH.
Qed.

Lemma map_delete_absent (k : SessionId) (m : list (SessionId * Ref)) :
  map_get k m = None → map_delete k m = m.
Proof.
  induction m as [|[k0 r0] m IH]; simpl; [done|].
  case_decide; [done|]. intros Hg. by rewrite IH.
Qed.

End MapLemmas.

Section Close.

Lemma closeSession_unknown (env : Env) (sessionId : SessionId) (w : World) :
  lookup_session sessionId w = None → closeSession env sessionId w = (Ok (), w).
Proof.
  intros H. unfold closeSession, mbind, M_bind, get_world. by rewrite H.
Qed.

Lemma closeSession_known (env : Env) (sessionId : SessionId) (w : World)
    (r : Ref) (session : Session) :
  lookup_session sessionId w = Some (r, session) →
  ∃ disk cs, closeSession env sessionId w = (Ok (), closed_world sessionId r w disk cs).
Proof.
  intros H. unfold closeSession, mbind, M_bind, get_world. rewrite H.
  unfold try_catch, rmSync, call, update_cell, modify, throw, mbind, M_bind, mret, M_ret,
    get_world.
  destruct (langClient session), (langServerProcess session); simpl;
    match goal with |- context [if ?b then _ else _] => destruct b end; simpl;
    eexists _, _; reflexivity.
Qed.

Lemma closeSession_ok (env : Env) (sessionId : SessionId) (w : World) :
  (closeSession env sessionId w).1 = Ok ().
Proof.
  destruct (lookup_session sessionId w) as [[r s]|] eqn:E.
  - destruct (closeSession_known env _ _ _ _ E) as (disk & cs & ->). done.
  - by rewrite closeSession_unknown.
Qed.

Lemma closeSession_deregisters (env : Env) (sessionId : SessionId) (w : World) :
  lookup_session sessionId (closeSession env sessionId w).2 = None.
Proof.
  destruct (lookup_session sessionId w) as [[r s]|] eqn:E.
  - destruct (closeSession_known env _ _ _ _ E) as (disk & cs & ->).
    unfold lookup_session; simpl. by rewrite map_get_delete_eq.
  - by rewrite closeSession_unknown.
Qed.

(** C6. [closeSession] never raises, whatever [kill()] returns and
    whether or not removing the scratch directory fails; on an id that is
    not registered it changes nothing and calls no collaborator; and a
    second call on the same id changes nothing and calls no collaborator. *)
Theorem closeSession_idempotent (env env' : Env) (sessionId : SessionId) (w : World) :
  (closeSession env sessionId w).1 = Ok ()
  ∧ (map_get sessionId (activeSessions w) = None →
     closeSession env sessionId w = (Ok (), w))
  ∧ closeSession env' sessionId (closeSession env sessionId w).2
    = (Ok (), (closeSession env sessionId w).2).
Proof.
  split; [apply closeSession_ok|]. split.
  - intros H. apply closeSession_unknown. unfold lookup_session. by rewrite H.
  - apply closeSession_unknown, closeSession_deregisters.
Qed.

Lemma closeSession_idempotent_witness :
  closeSession (broken_teardown calm) "no-such-session" spawned_world
  = (Ok (), spawned_world).
Proof.
  refine (proj1 (proj2 (closeSession_idempotent (broken_teardown calm) calm
                          "no-such-session" spawned_world)) _).
  vm_compute; reflexivity.
Defined.

(** C9. For a registered session, when [closeSession] returns the id is
    gone from the registry and the worker handle of the session object is
    cleared, also when [kill()] reports failure and removing the scratch
    directory throws. *)
Theorem closeSession_always_deregisters (env : Env) (sessionId : SessionId)
    (w : World) (r : Ref) (c : Closure) :
  map_get sessionId (activeSessions w) = Some r →
  heap w !! r = Some c →
  let w' := (closeSession env sessionId w).2 in
  (closeSession env sessionId w).1 = Ok ()
  ∧ map_get sessionId (activeSessions w') = None
  ∧ ∃ c', heap w' !! r = Some c' ∧ langServerProcess (c_session c') = None.
Proof.
  intros Hreg Hcell w'. subst w'.
  assert (E : lookup_session sessionId w = Some (r, c_session c)).
  { unfold lookup_session. rewrite Hreg; simpl. by rewrite Hcell. }
  destruct (closeSession_known env _ _ _ _ E) as (disk & cs & ->).
  unfold closed_world; cbn [fst snd heap activeSessions].
  split; [done|]. split; [apply map_get_delete_eq|].
  exists (with_session (set_langServerProcess None) c). split; [|done].
  by rewrite list_lookup_alter_eq, Hcell.
Qed.

Lemma closeSession_always_deregisters_witness :
  (closeSession (broken_teardown calm) (uuid calm) spawned_world).1 = Ok ()
  ∧ map_get (uuid calm)
      (activeSessions (closeSession (broken_teardown calm) (uuid calm) spawned_world).2)
    = None
  ∧ ∃ c', heap (closeSession (broken_teardown calm) (uuid calm) spawned_world).2 !! 0%nat
          = Some c'
          ∧ langServerProcess (c_session c') = None.
Proof.
  eapply (closeSession_always_deregisters (broken_teardown calm) (uuid calm)
            spawned_world 0%nat);
    vm_compute; reflexivity.
Defined.

End Close.

(** ** Idle reaper *)

Section Reaper.

Lemma closeSession_lifetimeTimer (env : Env) (sessionId : SessionId) (w : World) :
  lifetimeTimer (closeSession env sessionId w).2 = lifetimeTimer w.
Proof.
  destruct (lookup_session sessionId w) as [[r s]|] eqn:E.
  - by destruct (closeSession_known env _ _ _ _ E) as (disk & cs & ->).
  - by rewrite closeSession_unknown.
Qed.

Lemma lifetimeTimer_callback_unfold (env : Env) (w : World) :
  lifetimeTimer_callback env w =
  match forEach (activeSessions w) (reap env (now env)) (set_lifetimeTimer None w) with
  | (Ok _, w1) =>
      (if bool_decide (length (activeSessions w1) = 0%nat)
       then scheduleSessionLifetimeTimer
       else mret ()) w1
  | (Throw e, w1) => (Throw e, w1)
  end.
Proof. reflexivity. Qed.

Lemma reap_spec (env : Env) (curTime : Z) (entry : SessionId * Ref) (w : World) :
  reap env curTime entry w = (Ok (), w)
  ∨ reap env curTime entry w =
      (Ok (), set_activeSessions
                (map_delete entry.1 (activeSessions (closeSession env entry.1 w).2))
                (closeSession env entry.1 w).2).
Proof.
  destruct entry as [sessionId r]. unfold reap. rewrite bind_run; simpl.
  destruct (heap w !! r) as [c|]; [|by left].
  case_bool_decide; [|by left]. right.
  unfold mbind, M_bind. pose proof (closeSession_ok env sessionId w) as Hok.
  destruct (closeSession env sessionId w) as [[[]|e] w']; simpl in *; done.
Qed.

Lemma reap_ok (env : Env) (curTime : Z) (entry : SessionId * Ref) (w : World) :
  (reap env curTime entry w).1 = Ok ().
Proof. by destruct (reap_spec env curTime entry w) as [-> | ->]. Qed.

Lemma reap_lifetimeTimer (env : Env) (curTime : Z) (entry : SessionId * Ref) (w : World) :
  lifetimeTimer (reap env curTime entry w).2 = lifetimeTimer w.
Proof.
  destruct (reap_spec env curTime entry w) as [-> | ->]; [done|].
  simpl. apply closeSession_lifetimeTimer.
Qed.

(** What the code does after a sweep: it arms the next timer exactly when
    no session is left. *)
Lemma sweep_rearms_iff_registry_empty (env : Env) (w : World) :
  let w' := (lifetimeTimer_callback env w).2 in
  is_Some (lifetimeTimer w') ↔ activeSessions w' = [].
Proof.
  rewrite lifetimeTimer_callback_unfold.
  set (w0 := set_lifetimeTimer None w).
  pose proof (forEach_ok (activeSessions w) (reap env (now env))
                (reap_ok env (now env)) w0) as Hok.
  pose proof (forEach_preserves (λ w, lifetimeTimer w = None) (activeSessions w)
                (reap env (now env))) as Hpres.
  specialize (Hpres (λ x w Hw, eq_trans (reap_lifetimeTimer env _ x w) Hw) w0 eq_refl).
  destruct (forEach (activeSessions w) (reap env (now env)) w0) as [[[]|e] w1];
    [|done].
  cbn [fst snd] in *. case_bool_decide as Hlen.
  - unfold scheduleSessionLifetimeTimer. rewrite bind_run.
    unfold get_world. rewrite Hpres. cbn.
    split; [intros _; by destruct (activeSessions w1) | intros _; by eexists].
  - cbn. rewrite Hpres.
    split; [by intros [? ?] | intros Hnil; by rewrite Hnil in Hlen].
Qed.

End Reaper.

(** ** Installer *)

Section Installer.

Lemma resolveVersion_run (env : Env) (requestedVersion : option string) (w : World) :
  resolveVersion env requestedVersion w =
  if truthy requestedVersion
  then (Ok (default "" requestedVersion), w)
  else (Versions.getPyrightLatestVersion (latest env),
        set_calls (calls w ++ [QueryLatest]) w).
Proof. unfold resolveVersion. by destruct (truthy requestedVersion). Qed.

Lemma mkdir_install_run (env : Env) (p : Path) (version : string) (w : World) :
  (mkdir env p ;; install env p version) w =
  if mkdir_fails env p || existsb (λ q, is_file (fs w !! q)) (path_prefixes p)
  then (Throw (JsError "mkdir failed"), set_calls (calls w ++ [Mkdir p]) w)
  else if install_fails env version
       then (Throw (JsError "install failed"), after_install_call p version w)
       else (Ok (), set_fs (<[p ++ ["basedpyright"] := Dir]>
                              (fs (after_install_call p version w)))
                           (after_install_call p version w)).
Proof.
  unfold mkdir, install. mrun. cbn [fs set_calls].
  destruct (mkdir_fails env p || existsb _ (path_prefixes p)); [done|].
  by destruct (install_fails env version).
Qed.

Lemma installPyright_run (env : Env) (requestedVersion : option string) (w : World) :
  installPyright env requestedVersion w =
  match resolveVersion env requestedVersion w with
  | (Ok version, w1) =>
      let info := {| Info.pyrightVersion := version;
                     Info.localDirectory := dirName version |} in
      if existsSync (dirName version) w1
      then (Ok info, w1)
      else match (mkdir env (dirName version ++ ["node_modules"]) ;;
                  install env (dirName version ++ ["node_modules"]) version) w1 with
           | (Ok _, w2) => (Ok info, w2)
           | (Throw _, w2) => (Throw (JsString ("Failed to install pyright@" +:+ version)), w2)
           end
  | (Throw e, w1) => (Throw e, w1)
  end.
Proof.
  unfold installPyright. rewrite bind_run.
  destruct (resolveVersion env requestedVersion w) as [[version|e] w1]; [|done].
  cbv zeta. rewrite bind_run. unfold get_world.
  destruct (existsSync (dirName version) w1); [done|].
  rewrite bind_run. unfold try_catch.
  by destruct ((mkdir env _ ;; install env _ _) w1) as [[[]|e] w2].
Qed.

Lemma installPyright_cache_hit (env : Env) (version : string) (w : World) :
  truthy (Some version) = true →
  existsSync (dirName version) w = true →
  installPyright env (Some version) w
  = (Ok {| Info.pyrightVersion := version; Info.localDirectory := dirName version |}, w).
Proof.
  intros Ht Hex. rewrite installPyright_run, resolveVersion_run, Ht.
  cbn. by rewrite Hex.
Qed.

(** A failure of [installPyright] always carries a name: that of the
    failed resolution or that of the failed install. *)
Lemma installPyright_named_failure (env : Env) (requestedVersion : option string)
    (w : World) (e : Thrown) :
  (installPyright env requestedVersion w).1 = Throw e →
  (∃ reason, e = JsError ("Failed to get latest version of pyright: " +:+ reason))
  ∨ (∃ version, e = JsString ("Failed to install pyright@" +:+ version)).
Proof.
  rewrite installPyright_run, resolveVersion_run.
  assert (Hinstall : ∀ version w1,
    (let info := {| Info.pyrightVersion := version;
                    Info.localDirectory := dirName version |} in
     if existsSync (dirName version) w1 then (Ok info, w1)
     else match (mkdir env (dirName version ++ ["node_modules"]) ;;
                 install env (dirName version ++ ["node_modules"]) version) w1 with
          | (Ok _, w2) => (Ok info, w2)
          | (Throw _, w2) =>
              (Throw (JsString ("Failed to install pyright@" +:+ version)), w2)
          end).1 = Throw e →
    ∃ version, e = JsString ("Failed to install pyright@" +:+ version)).
  { intros version w1. cbv zeta. destruct (existsSync _ w1); [done|].
    destruct ((mkdir env _ ;; install env _ _) w1) as [[[]|e'] w2]; [done|].
    intros [= <-]. by eexists. }
  destruct (truthy requestedVersion); cbn beta iota;
    [intros H; right; exact (Hinstall _ _ H)|].
  unfold Versions.getPyrightLatestVersion.
  destruct (latest env) as [[[v|]]|err]; cbn beta iota.
  - intros H. right. exact (Hinstall _ _ H).
  - intros [= <-]. left. by eexists.
  - intros [= <-]. left. by eexists.
Qed.

Lemma foldr_insert_dir_is_Some (disk : gmap Path Node) (qs : list Path) (p : Path) :
  is_Some (disk !! p) → is_Some (foldr (λ q f, <[q := Dir]> f) disk qs !! p).
Proof.
  intros H. induction qs as [|q qs IH]; simpl; [done|].
  destruct (decide (q = p)) as [->|Hne].
  - rewrite lookup_insert_eq. by eexists.
  - by rewrite lookup_insert_ne.
Qed.

(** [installPyright] removes nothing: whatever exists before a call exists
    after it, whether the call hits the cache, installs or fails. *)
Lemma installPyright_keeps_every_path (env : Env) (requestedVersion : option string)
    (w : World) (p : Path) :
  is_Some (fs w !! p) → is_Some (fs (installPyright env requestedVersion w).2 !! p).
Proof.
  intros Hp. rewrite installPyright_run, resolveVersion_run.
  assert (Hinstall : ∀ version w1, fs w1 = fs w →
    is_Some (fs (let info := {| Info.pyrightVersion := version;
                                Info.localDirectory := dirName version |} in
     if existsSync (dirName version) w1 then (Ok info, w1)
     else match (mkdir env (dirName version ++ ["node_modules"]) ;;
                 install env (dirName version ++ ["node_modules"]) version) w1 with
          | (Ok _, w2) => (Ok info, w2)
          | (Throw _, w2) =>
              (Throw (JsString ("Failed to install pyright@" +:+ version)), w2)
          end).2 !! p)).
  { intros version w1 Hfs. cbv zeta.
    destruct (existsSync _ w1); [cbn [snd]; by rewrite Hfs|].
    rewrite mkdir_install_run.
    destruct (mkdir_fails env _ || existsb _ _); [cbn; by rewrite Hfs|].
    assert (is_Some (fs (after_install_call (dirName version ++ ["node_modules"])
                           version w1) !! p)) as Hafter.
    { unfold after_install_call, after_mkdir. cbn [fs set_fs set_calls].
      rewrite Hfs. by apply foldr_insert_dir_is_Some. }
    destruct (install_fails env version); [done|].
    cbn [snd fs set_fs].
    destruct (decide ((dirName version ++ ["node_modules"]) ++ ["basedpyright"] = p))
      as [<-|Hne].
    - rewrite lookup_insert_eq. by eexists.
    - by rewrite lookup_insert_ne. }
  destruct (truthy requestedVersion); cbn beta iota; [by apply Hinstall|].
  destruct (Versions.getPyrightLatestVersion (latest env)) as [v|e]; cbn beta iota;
    [by apply Hinstall | done].
Qed.

End Installer.

Section InstallerClaims.

Lemma prefix_created (disk : gmap Path Node) (qs : list Path) (p : Path) :
  p ∈ qs → foldr (λ q f, <[q := Dir]> f) disk qs !! p = Some Dir.
Proof.
  induction qs as [|q qs IH]; intros Hin; [by apply elem_of_nil in Hin|].
  simpl. destruct (decide (q = p)) as [->|Hne]; [by rewrite lookup_insert_eq|].
  rewrite lookup_insert_ne by done. apply IH.
  apply elem_of_cons in Hin as [->|]; done.
Qed.

(** What the code does when the installer rejects: the directory made for
    the version stays, so the version passes the cache-hit test from then on. *)
Lemma failed_install_keeps_directory (env : Env) (version : string) (w : World) :
  truthy (Some version) = true →
  existsSync (dirName version) w = false →
  mkdir_fails env (dirName version ++ ["node_modules"]) = false →
  existsb (λ q, is_file (fs w !! q)) (path_prefixes (dirName version ++ ["node_modules"])) = false →
  install_fails env version = true →
  (installPyright env (Some version) w).1
    = Throw (JsString ("Failed to install pyright@" +:+ version))
  ∧ existsSync (dirName version) (installPyright env (Some version) w).2 = true.
Proof.
  intros Ht Hex Hmk Hfile Hinst.
  rewrite installPyright_run, resolveVersion_run, Ht. cbn beta iota zeta.
  change (default "" (Some version)) with version.
  rewrite Hex, mkdir_install_run, Hmk, Hfile, Hinst. cbn [orb fst snd].
  split; [done|]. unfold existsSync. apply bool_decide_eq_true_2.
  unfold after_install_call, after_mkdir. cbn [fs set_fs set_calls].
  rewrite prefix_created; [by eexists|].
  unfold dirName. cbn. set_solver.
Qed.

(** C4, evaluated: the installer rejects version 1.0.0 on an empty
    store. The call fails with its name, the directory of the version stays
    on disk, and the next request for 1.0.0 takes the cache-hit path: it
    succeeds without a second call to the installer. *)
Theorem failed_install_then_cache_hit :
  let first := installPyright (broken_installer calm) (Some "1.0.0") (initial ∅) in
  let second := installPyright calm (Some "1.0.0") first.2 in
  first.1 = Throw (JsString "Failed to install pyright@1.0.0")
  ∧ existsSync (dirName "1.0.0") first.2 = true
  ∧ second.1 = Ok {| Info.pyrightVersion := "1.0.0";
                     Info.localDirectory := ["pyright_local"; "1.0.0"] |}
  ∧ calls second.2 = [Mkdir ["pyright_local"; "1.0.0"; "node_modules"];
                      Install ["pyright_local"; "1.0.0"; "node_modules"] "1.0.0"].
Proof. vm_compute. repeat split; reflexivity. Qed.

(** C2, evaluated: twenty-one distinct versions installed one after the
    other into an empty store, every install succeeding. All twenty-one
    directories are there afterwards. *)
Theorem installs_never_evict :
  let run := install_all calm twenty_one_versions (initial ∅) in
  NoDup twenty_one_versions
  ∧ forallb succeeded run.1 = true
  ∧ length run.1 = 21%nat
  ∧ forallb (λ v, existsSync (dirName v) run.2) twenty_one_versions = true
  ∧ length (installed_versions run.2) = 21%nat.
Proof.
  split; [refine (bool_decide_unpack _ _); by vm_compute|].
  vm_compute. repeat split; reflexivity.
Qed.

(** C5, evaluated: version 1.0.0 is installed at time 1000 and requested
    again at time 5000. The second request returns the directory and leaves
    the world as it was: no installer call, and nothing written that could
    record the use. *)
Theorem cache_hit_changes_nothing :
  let w := (installPyright calm (Some "1.0.0") (initial ∅)).2 in
  existsSync (dirName "1.0.0") w = true
  ∧ installPyright (with_now 5000 calm) (Some "1.0.0") w
    = (Ok {| Info.pyrightVersion := "1.0.0";
             Info.localDirectory := ["pyright_local"; "1.0.0"] |}, w).
Proof.
  cbv zeta. split; [by vm_compute|].
  apply installPyright_cache_hit; by vm_compute.
Qed.

End InstallerClaims.

Section ResolverClaims.

(** C7, as stated, fails: with no requested version the resolver returns
    what the index reports as latest, here a prerelease, although the
    releases 2.1.0 and 2.0.8 exist. *)
Lemma resolver_returns_prerelease_latest :
  let env := with_latest (Ok {| Versions.version := Some "2.0.9-beta" |}) calm in
  (installPyright env None (initial ∅)).1
    = Ok {| Info.pyrightVersion := "2.0.9-beta";
            Info.localDirectory := ["pyright_local"; "2.0.9-beta"] |}
  ∧ Versions.includes_hyphen "2.0.9-beta" = true
  ∧ Versions.getPyrightVersions
      (Ok {| Versions.versions := ["2.1.0"; "2.0.9-beta"; "2.0.8"] |})
    = Ok ["2.0.8"; "2.1.0"].
Proof. vm_compute. repeat split; reflexivity. Qed.

(** C7, amended. A truthy requested version is used as it is. Without
    one, the resolver returns the version string the index reports as the
    latest of the package, unfiltered. When that query fails or reports no
    string, resolution fails with the name of the failed resolution and
    [installPyright] fails with it after the query only: it neither installs
    nor falls back to a version on disk. No other failure of the resolution
    exists. *)
Theorem resolver_follows_index (env : Env) (requestedVersion : option string) (w : World) :
  (truthy requestedVersion = true →
   resolveVersion env requestedVersion w = (Ok (default "" requestedVersion), w))
  ∧ (truthy requestedVersion = false →
     (∀ v, latest env = Ok {| Versions.version := Some v |} →
           (resolveVersion env requestedVersion w).1 = Ok v)
     ∧ (∀ err, latest env = Throw err →
          let e := JsError ("Failed to get latest version of pyright: " +:+ template err) in
          (resolveVersion env requestedVersion w).1 = Throw e
          ∧ installPyright env requestedVersion w
            = (Throw e, set_calls (calls w ++ [QueryLatest]) w))
     ∧ (latest env = Ok {| Versions.version := None |} →
        let e := JsError ("Failed to get latest version of pyright: "
                          +:+ template (JsError
                                "Received unexpected latest version for pyright")) in
        (resolveVersion env requestedVersion w).1 = Throw e
        ∧ installPyright env requestedVersion w
          = (Throw e, set_calls (calls w ++ [QueryLatest]) w))
     ∧ (∀ e, (resolveVersion env requestedVersion w).1 = Throw e →
             (∃ reason,
                 e = JsError ("Failed to get latest version of pyright: " +:+ reason))
             ∧ installPyright env requestedVersion w
               = (Throw e, set_calls (calls w ++ [QueryLatest]) w))).
Proof.
  split; intros Ht.
  - by rewrite resolveVersion_run, Ht.
  - split; [|split; [|split]].
    + intros v Hv. by rewrite resolveVersion_run, Ht, Hv.
    + intros err Herr e. subst e.
      rewrite installPyright_run, resolveVersion_run, Ht, Herr. done.
    + intros Hnone e. subst e.
      rewrite installPyright_run, resolveVersion_run, Ht, Hnone. done.
    + intros e. rewrite installPyright_run, resolveVersion_run, Ht. cbn [fst].
      unfold Versions.getPyrightLatestVersion.
      destruct (latest env) as [[[v|]]|err]; intros [= <-]; (split; [by eexists|done]).
Qed.

Lemma resolver_follows_index_witness :
  resolveVersion (with_latest (Ok {| Versions.version := Some "2.0.9-beta" |}) calm)
    (Some "") (initial ∅) = resolveVersion
    (with_latest (Ok {| Versions.version := Some "2.0.9-beta" |}) calm) None (initial ∅)
  ∧ (resolveVersion (with_latest (Ok {| Versions.version := Some "2.0.9-beta" |}) calm)
       None (initial ∅)).1 = Ok "2.0.9-beta"
  ∧ resolveVersion calm (Some "1.1.400") (initial ∅) = (Ok "1.1.400", initial ∅)
  ∧ installPyright (with_latest (Throw (JsString "ENOTFOUND")) calm) None (initial ∅)
    = (Throw (JsError "Failed to get latest version of pyright: ENOTFOUND"),
       set_calls [QueryLatest] (initial ∅))
  ∧ (resolveVersion (with_latest (Ok {| Versions.version := None |}) calm) None
       (initial ∅)).1
    = Throw (JsError ("Failed to get latest version of pyright: "
                      +:+ "Error: Received unexpected latest version for pyright")).
Proof.
  split; [reflexivity|]. split; [|split; [|split]].
  - refine (proj1 (proj2 (resolver_follows_index _ None (initial ∅)) _) "2.0.9-beta" _);
      reflexivity.
  - refine (proj1 (resolver_follows_index calm (Some "1.1.400") (initial ∅)) _).
    reflexivity.
  - refine (proj2 (proj1 (proj2 (proj2 (resolver_follows_index
              (with_latest (Throw (JsString "ENOTFOUND")) calm) None (initial ∅)) _))
              (JsString "ENOTFOUND") _)); reflexivity.
  - refine (proj1 (proj1 (proj2 (proj2 (proj2 (resolver_follows_index
              (with_latest (Ok {| Versions.version := None |}) calm) None (initial ∅))
              _))) _)); reflexivity.
Defined.

End ResolverClaims.

(** ** Registry invariant *)

Section RegistryInvariant.

Lemma closeSession_eq (env : Env) (sessionId : SessionId) (w : World) :
  closeSession env sessionId w = (Ok (), (closeSession env sessionId w).2).
Proof.
  pose proof (closeSession_ok env sessionId w) as H.
  destruct (closeSession env sessionId w) as [[[]|e] w']; simpl in *; done.
Qed.

Lemma startSession_run (env : Env) (binaryDirPath : Path)
    (sessionOptions : option SessionOptions) (w : World) :
  ∃ disk cs,
    startSession env binaryDirPath sessionOptions w
    = (Ok (length (heap w)),
       {| heap := heap w ++ [new_cell env];
          activeSessions := map_set (uuid env) (length (heap w)) (activeSessions w);
          lifetimeTimer := lifetimeTimer w;
          fs := disk;
          calls := cs |}).
Proof.
  unfold startSession, synthesizePyrightConfigFile, writeFileSync. mrun.
  eexists _, _. reflexivity.
Qed.

Lemma on_spawn_run (r : Ref) (w : World) (c : Closure) :
  heap w !! r = Some c →
  ∃ cs, on_spawn r w
        = (Ok (), {| heap := alter spawned r (heap w);
                     activeSessions := activeSessions w;
                     lifetimeTimer := lifetimeTimer w;
                     fs := fs w;
                     calls := cs |}).
Proof.
  intros Hc. unfold on_spawn. mrun. rewrite Hc. mrun.
  eexists. unfold set_heap, set_calls; cbn [heap activeSessions lifetimeTimer fs calls].
  rewrite !list_alter_alter_eq. f_equal. f_equal.
  apply list_alter_ext; [|done]. intros c' Hc'. rewrite Hc in Hc'. by injection Hc' as <-.
Qed.

Lemma inv_frame (w w' : World) :
  heap w' = heap w → activeSessions w' = activeSessions w →
  registry_inv w → registry_inv w'.
Proof. unfold registry_inv. intros -> ->. done. Qed.

Lemma inv_alter (r : Ref) (f : Closure → Closure) (w : World) :
  (∀ c, c_sessionId (f c) = c_sessionId c
        ∧ id (c_session (f c)) = id (c_session c)
        ∧ (handles_agree (c_session c) → handles_agree (c_session (f c)))) →
  registry_inv w → registry_inv (set_heap (alter f r (heap w)) w).
Proof.
  intros Hf Hinv sessionId r0 Hget. cbn [set_heap heap activeSessions] in *.
  destruct (Hinv _ _ Hget) as (c & Hc & Hid & Hid' & Hag).
  destruct (Hf c) as (Hf1 & Hf2 & Hf3).
  destruct (decide (r = r0)) as [->|Hne].
  - exists (f c). rewrite list_lookup_alter_eq, Hc. cbn.
    repeat split; [congruence | congruence | apply Hf3, Hag..].
  - exists c. by rewrite list_lookup_alter_ne.
Qed.

Lemma inv_delete (k : SessionId) (w : World) :
  registry_inv w →
  registry_inv (set_activeSessions (map_delete k (activeSessions w)) w).
Proof.
  intros Hinv sessionId r Hget. cbn [set_activeSessions heap activeSessions] in *.
  destruct (decide (k = sessionId)) as [->|Hne].
  - by rewrite map_get_delete_eq in Hget.
  - rewrite map_get_delete_ne in Hget by done. by apply Hinv.
Qed.

Lemma inv_closeSession (env : Env) (sessionId : SessionId) (w : World) :
  registry_inv w → registry_inv (closeSession env sessionId w).2.
Proof.
  intros Hinv. destruct (lookup_session sessionId w) as [[r s]|] eqn:E.
  2: { by rewrite closeSession_unknown. }
  destruct (closeSession_known env _ _ _ _ E) as (disk & cs & ->).
  unfold lookup_session in E.
  destruct (map_get sessionId (activeSessions w)) as [r1|] eqn:Hreg; [|done].
  cbn in E. destruct (heap w !! r1) as [c1|] eqn:Hc1; [|done].
  injection E as -> <-.
  destruct (Hinv _ _ Hreg) as (c & Hc & Hid & _). rewrite Hc1 in Hc. injection Hc as ->.
  intros sid r0 Hget. unfold closed_world in *. cbn [snd heap activeSessions] in *.
  destruct (decide (sessionId = sid)) as [->|Hne].
  { by rewrite map_get_delete_eq in Hget. }
  rewrite map_get_delete_ne in Hget by done.
  destruct (Hinv _ _ Hget) as (c0 & Hc0 & Hid0 & Hrest).
  exists c0. rewrite list_lookup_alter_ne; [done|].
  intros ->. rewrite Hc1 in Hc0. injection Hc0 as ->. congruence.
Qed.

Lemma inv_startSession (env : Env) (binaryDirPath : Path)
    (sessionOptions : option SessionOptions) (w : World) :
  registry_inv w → registry_inv (startSession env binaryDirPath sessionOptions w).2.
Proof.
  intros Hinv.
  destruct (startSession_run env binaryDirPath sessionOptions w) as (disk & cs & ->).
  intros sid r Hget. cbn [snd heap activeSessions] in *.
  destruct (decide (uuid env = sid)) as [<-|Hne].
  - rewrite map_get_set_eq in Hget. injection Hget as <-.
    exists (new_cell env). rewrite lookup_app_r by done.
    rewrite Nat.sub_diag. by repeat split.
  - rewrite map_get_set_ne in Hget by done.
    destruct (Hinv _ _ Hget) as (c & Hc & Hrest).
    exists c. rewrite lookup_app_l; [done|]. by eapply lookup_lt_Some.
Qed.

Lemma inv_reap (env : Env) (curTime : Z) (entry : SessionId * Ref) (w : World) :
  registry_inv w → registry_inv (reap env curTime entry w).2.
Proof.
  intros Hinv. destruct (reap_spec env curTime entry w) as [-> | ->]; [done|].
  cbn [snd]. by apply inv_delete, inv_closeSession.
Qed.

Lemma inv_sweep (env : Env) (w : World) :
  registry_inv w → registry_inv (lifetimeTimer_callback env w).2.
Proof.
  intros Hinv. rewrite lifetimeTimer_callback_unfold.
  pose proof (forEach_preserves registry_inv (activeSessions w) (reap env (now env))
                (λ x w0, inv_reap env (now env) x w0) (set_lifetimeTimer None w)) as H.
  specialize (H (inv_frame w _ eq_refl eq_refl Hinv)).
  destruct (forEach _ _ _) as [[[]|e] w1]; cbn [snd] in *; [|done].
  case_bool_decide; [|done].
  unfold scheduleSessionLifetimeTimer. mrun.
  destruct (lifetimeTimer w1); [done|]. by eapply inv_frame.
Qed.

Lemma installPyright_frame (env : Env) (requestedVersion : option string) (w : World) :
  heap (installPyright env requestedVersion w).2 = heap w
  ∧ activeSessions (installPyright env requestedVersion w).2 = activeSessions w
  ∧ lifetimeTimer (installPyright env requestedVersion w).2 = lifetimeTimer w.
Proof.
  rewrite installPyright_run, resolveVersion_run.
  assert (Hinstall : ∀ version w1,
    heap w1 = heap w ∧ activeSessions w1 = activeSessions w
      ∧ lifetimeTimer w1 = lifetimeTimer w →
    let res := (let info := {| Info.pyrightVersion := version;
                               Info.localDirectory := dirName version |} in
     if existsSync (dirName version) w1 then (Ok info, w1)
     else match (mkdir env (dirName version ++ ["node_modules"]) ;;
                 install env (dirName version ++ ["node_modules"]) version) w1 with
          | (Ok _, w2) => (Ok info, w2)
          | (Throw _, w2) =>
              (Throw (JsString ("Failed to install pyright@" +:+ version)), w2)
          end) in
    heap res.2 = heap w ∧ activeSessions res.2 = activeSessions w
      ∧ lifetimeTimer res.2 = lifetimeTimer w).
  { intros version w1 H1. cbv zeta. destruct (existsSync _ w1); [done|].
    rewrite mkdir_install_run.
    destruct (mkdir_fails env _ || existsb _ _); [done|].
    by destruct (install_fails env version). }
  destruct (truthy requestedVersion); cbn beta iota; [by apply Hinstall|].
  destruct (Versions.getPyrightLatestVersion (latest env)) as [v|e]; cbn beta iota;
    [by apply Hinstall | done].
Qed.

Lemma scheduleSessionLifetimeTimer_frame (w : World) :
  scheduleSessionLifetimeTimer w = (Ok (), (scheduleSessionLifetimeTimer w).2)
  ∧ heap (scheduleSessionLifetimeTimer w).2 = heap w
  ∧ activeSessions (scheduleSessionLifetimeTimer w).2 = activeSessions w
  ∧ fs (scheduleSessionLifetimeTimer w).2 = fs w.
Proof. unfold scheduleSessionLifetimeTimer. mrun. by destruct (lifetimeTimer w). Qed.

Lemma getSessionById_run (env : Env) (sessionId : SessionId) (w : World)
    (r : Ref) (s : Session) :
  lookup_session sessionId w = Some (r, s) →
  getSessionById env sessionId w
  = (Ok (Some (set_lastAccessTime (now env) s)),
     set_heap (alter (with_session (set_lastAccessTime (now env))) r (heap w)) w).
Proof.
  intros E. unfold getSessionById. mrun. by rewrite E.
Qed.

Lemma inv_getSessionById (env : Env) (sessionId : SessionId) (w : World) :
  registry_inv w → registry_inv (getSessionById env sessionId w).2.
Proof.
  intros Hinv. destruct (lookup_session sessionId w) as [[r s]|] eqn:E.
  - rewrite (getSessionById_run env _ _ _ _ E). cbn [snd].
    apply inv_alter; [|done]. intros c. split; [done|]. split; [done|]. intros H. exact H.
  - unfold getSessionById. mrun. by rewrite E.
Qed.

Lemma settle_keeps (p : Promise) (c : Closure) :
  c_sessionId (settle p c) = c_sessionId c
  ∧ id (c_session (settle p c)) = id (c_session c)
  ∧ (handles_agree (c_session c) → handles_agree (c_session (settle p c))).
Proof. unfold settle. by destruct (c_promise c). Qed.

Lemma with_handshake_keeps (h : Handshake) (c : Closure) :
  c_sessionId (with_handshake h c) = c_sessionId c
  ∧ id (c_session (with_handshake h c)) = id (c_session c)
  ∧ (handles_agree (c_session c) → handles_agree (c_session (with_handshake h c))).
Proof. done. Qed.

Lemma spawned_keeps (c : Closure) :
  c_sessionId (spawned c) = c_sessionId c
  ∧ id (c_session (spawned c)) = id (c_session c)
  ∧ (handles_agree (c_session c) → handles_agree (c_session (spawned c))).
Proof. split; [done|]. split; [done|]. intros _. by split. Qed.

Lemma createNewSession_run (env : Env) (sessionOptions : option SessionOptions)
    (w : World) :
  createNewSession env sessionOptions w =
  installPyright env (opt_field pyrightVersion sessionOptions)
    (scheduleSessionLifetimeTimer w).2.
Proof.
  unfold createNewSession. rewrite bind_run.
  destruct (scheduleSessionLifetimeTimer_frame w) as (Heq & _).
  by rewrite Heq at 1.
Qed.

Lemma inv_createNewSession (env : Env) (sessionOptions : option SessionOptions)
    (w : World) :
  registry_inv w → registry_inv (createNewSession env sessionOptions w).2.
Proof.
  intros Hinv. rewrite createNewSession_run.
  destruct (scheduleSessionLifetimeTimer_frame w) as (_ & Hh & Ha & _).
  destruct (installPyright_frame env (opt_field pyrightVersion sessionOptions)
              (scheduleSessionLifetimeTimer w).2) as (Hh' & Ha' & _).
  eapply inv_frame; [| |exact Hinv]; congruence.
Qed.

Lemma inv_perform (env : Env) (a : Action) (w : World) :
  registry_inv w → registry_inv (perform env a w).2.
Proof.
  intros Hinv. destruct a as [sid|sid|opts|dir opts| |rv| |r e]; cbn [perform].
  - rewrite discard_world. by apply inv_getSessionById.
  - by apply inv_closeSession.
  - rewrite discard_world. by apply inv_createNewSession.
  - rewrite discard_world. by apply inv_startSession.
  - destruct (scheduleSessionLifetimeTimer_frame w) as (_ & Hh & Ha & _).
    by eapply inv_frame.
  - rewrite discard_world. destruct (installPyright_frame env rv w) as (Hh & Ha & _).
    by eapply inv_frame.
  - by apply inv_sweep.
  - destruct e; cbn [perform].
    + unfold on_spawn. mrun. destruct (heap w !! r) as [c|] eqn:Hc; [|done].
      destruct (on_spawn_run r w c Hc) as (cs & Hrun).
      unfold on_spawn in Hrun. revert Hrun. mrun. rewrite Hc. intros ->. cbn [snd].
      apply (inv_frame (set_heap (alter spawned r (heap w)) w)); [done..|].
      apply inv_alter; [apply spawned_keeps | done].
    + unfold on_initialize_then. mrun. destruct (heap w !! r) as [c|]; [|done].
      cbn [snd]. apply inv_alter; [apply settle_keeps|].
      apply inv_alter; [apply with_handshake_keeps | done].
    + unfold on_initialize_catch. mrun. destruct (heap w !! r) as [c|]; [|done].
      apply inv_closeSession.
      apply inv_alter; [apply settle_keeps|].
      apply inv_alter; [apply with_handshake_keeps | done].
    + unfold on_error. mrun. destruct (heap w !! r) as [c|]; [|done].
      destruct (langServerProcess (c_session c)); cbn beta iota.
      * by apply inv_closeSession.
      * apply inv_closeSession. apply inv_alter; [apply settle_keeps | done].
    + unfold on_exit. mrun. destruct (heap w !! r) as [c|]; [|done].
      by apply inv_closeSession.
    + unfold on_close, on_exit. mrun. destruct (heap w !! r) as [c|]; [|done].
      by apply inv_closeSession.
Qed.

Lemma inv_run (eas : list (Env * Action)) (w w' : World) :
  registry_inv w → run eas w = Some w' → registry_inv w'.
Proof.
  revert w. induction eas as [|[env a] eas IH]; intros w Hinv Hrun; cbn in Hrun.
  - by injection Hrun as <-.
  - unfold step in Hrun. cbn [fst snd] in Hrun.
    destruct (enabled a w); [|done]. cbn in Hrun.
    eapply IH; [|exact Hrun]. by apply inv_perform.
Qed.

Lemma inv_reachable (w : World) : reachable w → registry_inv w.
Proof.
  intros (disk & eas & Hrun). eapply inv_run; [|exact Hrun].
  intros sid r Hget. done.
Qed.

End RegistryInvariant.

(** ** Launch protocol *)

Section Launch.

Lemma statuses_frame (w w' : World) : heap w' = heap w → statuses w' = statuses w.
Proof. unfold statuses. by intros ->. Qed.

Lemma statuses_alter_cell (r : Ref) (f : Closure → Closure) (w : World) (c : Closure) :
  heap w !! r = Some c →
  statuses (set_heap (alter f r (heap w)) w) = <[r := status_of (f c)]> (statuses w).
Proof.
  intros Hc. unfold statuses. cbn [set_heap heap].
  apply list_eq. intros i. rewrite list_lookup_fmap.
  destruct (decide (r = i)) as [<-|Hne].
  - rewrite list_lookup_alter_eq, Hc, list_lookup_insert_eq; [done|].
    rewrite length_fmap. by eapply lookup_lt_Some.
  - rewrite list_lookup_alter_ne, list_lookup_insert_ne, list_lookup_fmap by done. done.
Qed.

Lemma statuses_alter_session (r : Ref) (f : Closure → Closure) (w : World) :
  (∀ c, status_of (f c) = status_of c) →
  statuses (set_heap (alter f r (heap w)) w) = statuses w.
Proof.
  intros Hf. destruct (heap w !! r) as [c|] eqn:Hc.
  - rewrite (statuses_alter_cell r f w c Hc), Hf. apply list_insert_id.
    unfold statuses. by rewrite list_lookup_fmap, Hc.
  - unfold statuses. cbn [set_heap heap]. f_equal.
    apply list_eq. intros i. destruct (decide (r = i)) as [<-|Hne].
    + by rewrite list_lookup_alter_eq, Hc.
    + by rewrite list_lookup_alter_ne.
Qed.

Lemma statuses_closeSession (env : Env) (sessionId : SessionId) (w : World) :
  statuses (closeSession env sessionId w).2 = statuses w.
Proof.
  destruct (lookup_session sessionId w) as [[r s]|] eqn:E.
  - destruct (closeSession_known env _ _ _ _ E) as (disk & cs & ->).
    by apply (statuses_alter_session r (with_session (set_langServerProcess None)) w).
  - by rewrite closeSession_unknown.
Qed.

Lemma statuses_reap (env : Env) (curTime : Z) (entry : SessionId * Ref) (w : World) :
  statuses (reap env curTime entry w).2 = statuses w.
Proof.
  destruct (reap_spec env curTime entry w) as [-> | ->]; [done|].
  cbn [snd]. apply statuses_closeSession.
Qed.

Lemma statuses_sweep (env : Env) (w : World) :
  statuses (lifetimeTimer_callback env w).2 = statuses w.
Proof.
  rewrite lifetimeTimer_callback_unfold.
  pose proof (forEach_preserves (λ w0, statuses w0 = statuses w) (activeSessions w)
                (reap env (now env))) as H.
  specialize (H (λ x w0 Hw0, eq_trans (statuses_reap env _ x w0) Hw0)
                (set_lifetimeTimer None w) eq_refl).
  destruct (forEach _ _ _) as [[[]|e] w1]; cbn [snd] in *; [|done].
  case_bool_decide; [|done].
  destruct (scheduleSessionLifetimeTimer_frame w1) as (_ & Hh & _).
  by rewrite (statuses_frame _ _ Hh).
Qed.

Lemma statuses_getSessionById (env : Env) (sessionId : SessionId) (w : World) :
  statuses (getSessionById env sessionId w).2 = statuses w.
Proof.
  destruct (lookup_session sessionId w) as [[r s]|] eqn:E.
  - rewrite (getSessionById_run env _ _ _ _ E). cbn [snd].
    by apply statuses_alter_session.
  - unfold getSessionById. mrun. by rewrite E.
Qed.

Lemma statuses_startSession (env : Env) (binaryDirPath : Path)
    (sessionOptions : option SessionOptions) (w : World) :
  statuses (startSession env binaryDirPath sessionOptions w).2
  = statuses w ++ [fresh_status (uuid env)].
Proof.
  destruct (startSession_run env binaryDirPath sessionOptions w) as (disk & cs & ->).
  unfold statuses. cbn [snd heap]. by rewrite fmap_app.
Qed.

Lemma fmap_status_alter (h : list Closure) (r : Ref) (f : Closure → Closure) (c : Closure) :
  h !! r = Some c →
  status_of <$> alter f r h = <[r := status_of (f c)]> (status_of <$> h).
Proof.
  intros Hc. apply (statuses_alter_cell r f (set_heap h (initial ∅)) c Hc).
Qed.

Lemma status_step_event (r : Ref) (e : ProcessEvent) (f : Closure → Closure)
    (c : Closure) (w w' : World) :
  heap w !! r = Some c →
  heap w' = alter f r (heap w) →
  c_sessionId (f c) = c_sessionId c →
  (c_handshake (f c) ≠ NotCalled → c_handshake c ≠ NotCalled ∨ e = Spawn) →
  (∀ v, c_promise (f c) = Resolved v →
        c_promise c = Resolved v
        ∨ (v = c_sessionId c ∧ c_handshake c ≠ NotCalled ∧ e = InitializeResolved)) →
  status_step (Event r e) (statuses w) (statuses w').
Proof.
  intros Hc Hheap Hid Hhs Hpr. right. right.
  exists r, e, (status_of c), (status_of (f c)).
  split; [done|]. split; [unfold statuses; by rewrite list_lookup_fmap, Hc|].
  split; [unfold statuses; rewrite Hheap; by apply fmap_status_alter|].
  done.
Qed.

Lemma settle_promise (p : Promise) (c : Closure) :
  c_promise (settle p c) = match c_promise c with Pending => p | q => q end
  ∧ c_handshake (settle p c) = c_handshake c
  ∧ c_sessionId (settle p c) = c_sessionId c.
Proof. unfold settle. by destruct (c_promise c) eqn:E; cbn; rewrite ?E. Qed.

Lemma step_statuses (env : Env) (a : Action) (w : World) :
  enabled a w = true → status_step a (statuses w) (statuses (perform env a w).2).
Proof.
  intros Hen. destruct a as [sid|sid|opts|dir opts| |rv| |r e]; cbn [perform].
  - left. rewrite discard_world. apply statuses_getSessionById.
  - left. apply statuses_closeSession.
  - rewrite discard_world, createNewSession_run.
    destruct (scheduleSessionLifetimeTimer_frame w) as (_ & Hh & _).
    destruct (installPyright_frame env (opt_field pyrightVersion opts)
                (scheduleSessionLifetimeTimer w).2) as (Hh' & _).
    left. apply statuses_frame. congruence.
  - right. left. exists (uuid env). rewrite discard_world.
    apply statuses_startSession.
  - left. destruct (scheduleSessionLifetimeTimer_frame w) as (_ & Hh & _).
    by apply statuses_frame.
  - left. rewrite discard_world. destruct (installPyright_frame env rv w) as (Hh & _).
    by apply statuses_frame.
  - left. apply statuses_sweep.
  - cbn [enabled] in Hen. destruct (heap w !! r) as [c|] eqn:Hc; [|done].
    destruct e; cbn [perform].
    + destruct (on_spawn_run r w c Hc) as (cs & ->). cbn [snd].
      by apply (status_step_event r Spawn spawned c); [..|right|left].
    + destruct (c_handshake c) eqn:Hhs; try done.
      unfold on_initialize_then. mrun. rewrite Hc. cbn [snd].
      apply (status_step_event r InitializeResolved
               (settle (Resolved (c_sessionId c)) ∘ with_handshake Settled) c);
        [done | cbn; by rewrite list_alter_alter_eq | cbn; exact (proj2 (proj2 (settle_promise _ _))) | ..].
      * intros _. left. by rewrite Hhs.
      * intros v. cbn. destruct (settle_promise (Resolved (c_sessionId c))
                                   (with_handshake Settled c)) as (-> & _).
        cbn. destruct (c_promise c); [|by left..].
        intros [= <-]. right. by rewrite Hhs.
    + destruct (c_handshake c) eqn:Hhs; try done.
      unfold on_initialize_catch. mrun. rewrite Hc.
      rewrite statuses_closeSession.
      apply (status_step_event r InitializeRejected
               (settle (Rejected "Failed to start pyright language server connection")
                  ∘ with_handshake Settled) c);
        [done | cbn; by rewrite list_alter_alter_eq | cbn; exact (proj2 (proj2 (settle_promise _ _))) | ..].
      * intros _. left. by rewrite Hhs.
      * intros v. cbn. destruct (settle_promise
                                   (Rejected "Failed to start pyright language server connection")
                                   (with_handshake Settled c)) as (-> & _).
        cbn. destruct (c_promise c); [done|by left..].
    + unfold on_error. mrun. rewrite Hc.
      destruct (langServerProcess (c_session c)); cbn beta iota;
        rewrite statuses_closeSession; [by left|].
      apply (status_step_event r Error
               (settle (Rejected "Failed to spawn pyright language server instance")) c);
        [done | done | exact (proj2 (proj2 (settle_promise _ _))) | ..].
      * destruct (settle_promise
                    (Rejected "Failed to spawn pyright language server instance") c)
          as (_ & -> & _). by left.
      * intros v. destruct (settle_promise
                              (Rejected "Failed to spawn pyright language server instance") c)
          as (-> & _).
        destruct (c_promise c); [done|by left..].
    + left. unfold on_exit. mrun. rewrite Hc. apply statuses_closeSession.
    + left. unfold on_close, on_exit. mrun. rewrite Hc. apply statuses_closeSession.
Qed.

Lemma accounts_for_later (acts : list Action) (a : Action) (r : Ref) (s : Status) :
  ((st_handshake s ≠ NotCalled → Event r Spawn ∈ acts)
   ∧ (∀ v, st_promise s = Resolved v →
           v = st_id s
           ∧ ∃ pre mid post,
               acts = pre ++ Event r Spawn :: mid ++ Event r InitializeResolved :: post)) →
  (st_handshake s ≠ NotCalled → Event r Spawn ∈ acts ++ [a])
  ∧ (∀ v, st_promise s = Resolved v →
          v = st_id s
          ∧ ∃ pre mid post,
              acts ++ [a]
              = pre ++ Event r Spawn :: mid ++ Event r InitializeResolved :: post).
Proof.
  intros [Hs Hp]. split.
  - intros H. apply elem_of_app. left. by apply Hs.
  - intros v Hv. destruct (Hp v Hv) as (Hid & pre & mid & post & ->).
    split; [done|]. exists pre, mid, (post ++ [a]).
    rewrite <- app_assoc. cbn. rewrite <- app_assoc. done.
Qed.

Lemma accounts_for_step (acts : list Action) (a : Action) (S S' : list Status) :
  accounts_for acts S → status_step a S S' → accounts_for (acts ++ [a]) S'.
Proof.
  intros Hacc [-> | [(sid & ->) | (r0 & e & s0 & s' & -> & Hs0 & -> & Hid & Hhs & Hpr)]];
    intros r s Hs.
  - by apply accounts_for_later, Hacc.
  - apply lookup_app_Some in Hs as [Hs | [Hlen Hs]].
    + by apply accounts_for_later, Hacc.
    + destruct (r - length S)%nat; [|done]. injection Hs as <-. by split.
  - destruct (decide (r0 = r)) as [->|Hne].
    2: { rewrite list_lookup_insert_ne in Hs by done. by apply accounts_for_later, Hacc. }
    rewrite list_lookup_insert_eq in Hs by (by eapply lookup_lt_Some).
    injection Hs as <-. destruct (Hacc _ _ Hs0) as [Hspawn Hres].
    split.
    + intros Hne. apply elem_of_app.
      destruct (Hhs Hne) as [H | ->]; [left; by apply Hspawn|].
      right. by apply list_elem_of_singleton.
    + intros v Hv. destruct (Hpr v Hv) as [Hold | (-> & Hstarted & ->)].
      * destruct (accounts_for_later acts (Event r e) r s0 (conj Hspawn Hres)) as [_ H].
        destruct (H v Hold) as (-> & Hsplit). by rewrite Hid.
      * split; [done|].
        destruct (list_elem_of_split _ _ (Hspawn Hstarted)) as (pre & mid & ->).
        exists pre, mid, []. by rewrite <- app_assoc.
Qed.

Lemma accounts_for_run (eas : list (Env * Action)) (acts : list Action) (w w' : World) :
  accounts_for acts (statuses w) → run eas w = Some w' →
  accounts_for (acts ++ eas.*2) (statuses w').
Proof.
  revert acts w. induction eas as [|[env a] eas IH]; intros acts w Hacc Hrun; cbn in Hrun.
  - injection Hrun as <-. by rewrite app_nil_r.
  - unfold step in Hrun. cbn [fst snd] in Hrun.
    destruct (enabled a w) eqn:Hen; [|done]. cbn in Hrun.
    rewrite fmap_cons. cbn [snd].
    change (acts ++ a :: eas.*2) with (acts ++ [a] ++ eas.*2). rewrite app_assoc.
    eapply IH; [|exact Hrun].
    eapply accounts_for_step; [exact Hacc|]. by apply step_statuses.
Qed.

End Launch.

(** ** Claims about the registry, the launcher and the reaper *)

Section SessionClaims.

(** C1, as stated, fails: right after a creation request, before the
    worker has reported ['spawn'] and before any handshake, the registry
    holds the new id, and a lookup returns the record without worker handle
    and without client handle. *)
Lemma lookup_returns_unspawned_session :
  match run creation (initial ∅) with
  | Some w =>
      map_get (uuid calm) (activeSessions w) = Some 0%nat
      ∧ status_of <$> heap w !! 0%nat = Some (fresh_status (uuid calm))
      ∧ (getSessionById (with_now 1500 calm) (uuid calm) w).1
        = Ok (Some {| id := uuid calm; lastAccessTime := 1500;
                      tempDirPath := mkdtemp calm;
                      langServerProcess := None; langClient := None |})
  | None => False
  end.
Proof. vm_compute. repeat split; reflexivity. Qed.

(** C3, evaluated: a session is created at time 1000 and its worker comes
    up; the timer fires one minute later. The session is not yet idle for
    longer than a minute and stays, and no further timer is pending, so no
    sweep looks at it again unless another session is created. A sweep that
    finds the registry empty does arm the next timer. *)
Theorem sweep_leaves_sessions_without_timer :
  match run (successful_launch ++ [(with_now 61000 calm, TimerFires)]) (initial ∅) with
  | Some w =>
      activeSessions w = [(uuid calm, 0%nat)]
      ∧ lifetimeTimer w = None
      ∧ enabled TimerFires w = false
  | None => False
  end
  ∧ lifetimeTimer (lifetimeTimer_callback calm
                     (set_lifetimeTimer (Some {| delay := 60000 |}) (initial ∅))).2
    = Some {| delay := 60000 |}.
Proof. vm_compute. repeat split; reflexivity. Qed.

End SessionClaims.

(** * Further properties *)

(** ** Runs *)

Section Runs.

Lemma run_enabled_along (eas : list (Env * Action)) (w : World) :
  enabled_along eas w = true → run eas w = Some (perform_all eas w).
Proof.
  revert w. induction eas as [|[env a] eas IH]; intros w H; cbn in *; [done|].
  apply andb_true_iff in H as [Hen Hrest]. unfold step. cbn [fst snd].
  rewrite Hen. cbn. by apply IH.
Qed.

Lemma spawned_world_reachable : reachable spawned_world.
Proof.
  exists ∅, (creation ++ [(calm, Event 0%nat Spawn)]).
  apply run_enabled_along. vm_compute. reflexivity.
Qed.

Lemma two_sessions_reachable : reachable two_sessions.
Proof. exists ∅, two_launches. apply run_enabled_along. vm_compute. reflexivity. Qed.

End Runs.

(** ** More about the registry *)

Section RegistryExtras.

Lemma map_delete_idem (k : SessionId) (m : list (SessionId * Ref)) :
  map_delete k (map_delete k m) = map_delete k m.
Proof. apply map_delete_absent, map_get_delete_eq. Qed.

Lemma map_delete_set_fresh (k : SessionId) (r : Ref) (m : list (SessionId * Ref)) :
  map_get k m = None → map_delete k (map_set k r m) = m.
Proof.
  induction m as [|[k0 r0] m IH]; simpl.
  - by rewrite decide_True.
  - destruct (decide (k0 = k)) as [->|Hne]; [done|]. intros Hg. simpl.
    rewrite decide_False by done. by rewrite IH.
Qed.

(** A lookup of an unknown id returns nothing and changes nothing. A lookup
    of a registered id returns its session with the last access time set to
    now, and the registry holds that updated session afterwards; no other
    session, the registry order, the file system, the collaborator calls
    and the timer are touched. *)
Theorem getSessionById_touches (env : Env) (sessionId : SessionId) (w : World) :
  reachable w →
  let res := getSessionById env sessionId w in
  match lookup_session sessionId w with
  | None => res = (Ok None, w)
  | Some (r, s) =>
      res.1 = Ok (Some (set_lastAccessTime (now env) s))
      ∧ lookup_session sessionId res.2 = Some (r, set_lastAccessTime (now env) s)
  end
  ∧ (∀ other, other ≠ sessionId →
       lookup_session other res.2 = lookup_session other w)
  ∧ activeSessions res.2 = activeSessions w
  ∧ fs res.2 = fs w ∧ calls res.2 = calls w ∧ lifetimeTimer res.2 = lifetimeTimer w.
Proof.
  intros Hinv%inv_reachable res. subst res.
  destruct (lookup_session sessionId w) as [[r s]|] eqn:E.
  - rewrite (getSessionById_run env _ _ _ _ E). cbn [fst snd].
    unfold lookup_session in E |- *. cbn [set_heap heap activeSessions].
    destruct (map_get sessionId (activeSessions w)) as [r1|] eqn:Hreg; [|done]. cbn in E.
    destruct (heap w !! r1) as [c1|] eqn:Hc1; [|done]. injection E as -> <-.
    split; [split; [done|]|split; [|done]].
    + cbn. by rewrite list_lookup_alter_eq, Hc1.
    + intros other Hne.
      destruct (map_get other (activeSessions w)) as [r2|] eqn:Hreg2; [|done]. cbn.
      rewrite list_lookup_alter_ne; [done|]. intros ->.
      destruct (Hinv _ _ Hreg) as (c & Hc & Hid & _).
      destruct (Hinv _ _ Hreg2) as (c' & Hc' & Hid' & _). congruence.
  - unfold getSessionById. mrun. rewrite E. done.
Qed.

Lemma getSessionById_touches_witness :
  (getSessionById (with_now 5000 calm) (uuid calm) spawned_world).1
  = Ok (Some (set_lastAccessTime 5000 (c_session (spawned (new_cell calm))))).
Proof.
  refine (proj1 (proj1 (getSessionById_touches (with_now 5000 calm) (uuid calm)
                          spawned_world spawned_world_reachable))).
Defined.

End RegistryExtras.

Section CloseExtras.

Lemma closeSession_fs (env : Env) (sessionId : SessionId) (w : World)
    (r : Ref) (s : Session) :
  lookup_session sessionId w = Some (r, s) →
  fs (closeSession env sessionId w).2
  = if negb (existsSync (tempDirPath s) w) || rmSync_fails env (tempDirPath s)
    then fs w
    else filter (λ kv, ¬ tempDirPath s `prefix_of` kv.1) (fs w).
Proof.
  intros H. unfold closeSession, mbind, M_bind, get_world. rewrite H.
  unfold try_catch, rmSync, call, update_cell, modify, throw, mbind, M_bind, mret, M_ret,
    get_world, existsSync.
  destruct (langClient s), (langServerProcess s); cbn;
    match goal with |- context [if ?b then _ else _] => destruct b end; reflexivity.
Qed.

(** Closing one session leaves every other registered session, and the
    timer, as they were. *)
Theorem closeSession_spares_others (env : Env) (sessionId other : SessionId) (w : World) :
  reachable w →
  other ≠ sessionId →
  lookup_session other (closeSession env sessionId w).2 = lookup_session other w
  ∧ lifetimeTimer (closeSession env sessionId w).2 = lifetimeTimer w.
Proof.
  intros Hreach Hne. split; [|apply closeSession_lifetimeTimer].
  pose proof (inv_reachable w Hreach) as Hinv.
  destruct (lookup_session sessionId w) as [[r s]|] eqn:E.
  2: { by rewrite closeSession_unknown. }
  destruct (closeSession_known env _ _ _ _ E) as (disk & cs & ->).
  unfold lookup_session in *. unfold closed_world. cbn [snd heap activeSessions].
  rewrite map_get_delete_ne by done.
  destruct (map_get other (activeSessions w)) as [r2|] eqn:Hreg2; [|done]. cbn.
  destruct (map_get sessionId (activeSessions w)) as [r1|] eqn:Hreg; [|done]. cbn in E.
  destruct (heap w !! r1) as [c1|] eqn:Hc1; [|done]. injection E as -> <-.
  rewrite list_lookup_alter_ne; [done|]. intros ->.
  destruct (Hinv _ _ Hreg) as (c & Hc & Hid & _).
  destruct (Hinv _ _ Hreg2) as (c' & Hc' & Hid' & _). congruence.
Qed.

Lemma closeSession_spares_others_witness :
  is_Some (lookup_session (uuid second) two_sessions)
  ∧ lookup_session (uuid second) (closeSession calm (uuid second) two_sessions).2 = None
  ∧ is_Some (lookup_session (uuid calm) two_sessions)
  ∧ lookup_session (uuid calm) (closeSession calm (uuid second) two_sessions).2
    = lookup_session (uuid calm) two_sessions.
Proof.
  split; [vm_compute; by eexists|]. split; [vm_compute; reflexivity|].
  split; [vm_compute; by eexists|].
  refine (proj1 (closeSession_spares_others calm (uuid second) (uuid calm)
                   two_sessions two_sessions_reachable _)).
  discriminate.
Defined.

(** When the scratch directory exists and can be removed, closing a
    registered session removes it with everything below it and nothing else;
    when removing fails, the file system stays as it was. *)
Theorem closeSession_removes_scratch (env : Env) (sessionId : SessionId) (w : World)
    (r : Ref) (s : Session) :
  lookup_session sessionId w = Some (r, s) →
  let w' := (closeSession env sessionId w).2 in
  (existsSync (tempDirPath s) w = true → rmSync_fails env (tempDirPath s) = false →
   ∀ p, fs w' !! p = if decide (tempDirPath s `prefix_of` p) then None else fs w !! p)
  ∧ (existsSync (tempDirPath s) w = false ∨ rmSync_fails env (tempDirPath s) = true →
     fs w' = fs w).
Proof.
  intros E w'. subst w'. rewrite (closeSession_fs env _ _ _ _ E). split.
  - intros -> -> p. cbn [negb orb].
    destruct (fs w !! p) as [n|] eqn:Hp.
    + case_decide as Hpre.
      * apply map_lookup_filter_None. right. intros n' Hn' Hnot. by apply Hnot.
      * by apply map_lookup_filter_Some.
    + case_decide; apply map_lookup_filter_None; by left.
  - intros [-> | ->]; [done|]. by rewrite orb_true_r.
Qed.

Lemma closeSession_removes_scratch_witness :
  fs (closeSession calm (uuid calm) spawned_world).2
    !! (mkdtemp calm ++ ["pyrightconfig.json"]) = None
  ∧ is_Some (fs (closeSession calm (uuid calm) spawned_world).2
               !! ["pyright_local"; "2.1.0"]).
Proof.
  destruct (closeSession_removes_scratch calm (uuid calm) spawned_world 0%nat
              {| id := uuid calm; lastAccessTime := 1000; tempDirPath := mkdtemp calm;
                 langServerProcess := Some 1%nat;
                 langClient := Some (NewLspClient 1%nat) |})
    as [H _]; [vm_compute; reflexivity|].
  split.
  - rewrite H by (vm_compute; reflexivity). vm_compute. reflexivity.
  - rewrite H by (vm_compute; reflexivity). vm_compute. by eexists.
Defined.

Lemma startSession_fs (env : Env) (binaryDirPath : Path)
    (sessionOptions : option SessionOptions) (w : World) :
  fs (startSession env binaryDirPath sessionOptions w).2
  = <[mkdtemp env ++ ["pyrightconfig.json"] := File (synthesizeConfig sessionOptions)]>
      (<[mkdtemp env := Dir]> (fs w)).
Proof. reflexivity. Qed.

Lemma filter_scratch_fresh (tmp : Path) (n : Node) (disk : gmap Path Node) :
  (∀ p, tmp `prefix_of` p → disk !! p = None) →
  filter (λ kv : Path * Node, ¬ tmp `prefix_of` kv.1)
    (<[tmp ++ ["pyrightconfig.json"] := n]> (<[tmp := Dir]> disk)) = disk.
Proof.
  intros Hfresh. apply map_eq. intros p.
  destruct (decide (tmp `prefix_of` p)) as [Hpre|Hpre].
  - rewrite (Hfresh p Hpre). apply map_lookup_filter_None. right.
    intros n' _ Hnot. by apply Hnot.
  - destruct (disk !! p) as [n0|] eqn:Hp.
    + apply map_lookup_filter_Some. split; [|done].
      rewrite !lookup_insert_ne; [done|..]; intros <-; apply Hpre;
        [done | by apply prefix_app_r].
    + apply map_lookup_filter_None. left.
      rewrite !lookup_insert_ne; [done|..]; intros <-; apply Hpre;
        [done | by apply prefix_app_r].
Qed.

(** Starting a session and closing it again gives back the registry and the
    file system, when the id and the scratch directory were new and the
    directory can be removed. *)
Theorem start_then_close_restores (env env' : Env) (binaryDirPath : Path)
    (sessionOptions : option SessionOptions) (w : World) :
  map_get (uuid env) (activeSessions w) = None →
  (∀ p, mkdtemp env `prefix_of` p → fs w !! p = None) →
  rmSync_fails env' (mkdtemp env) = false →
  let started := (startSession env binaryDirPath sessionOptions w).2 in
  let closed := (closeSession env' (uuid env) started).2 in
  is_Some (lookup_session (uuid env) started)
  ∧ fs started !! (mkdtemp env ++ ["pyrightconfig.json"])
    = Some (File (synthesizeConfig sessionOptions))
  ∧ activeSessions closed = activeSessions w
  ∧ fs closed = fs w
  ∧ lifetimeTimer closed = lifetimeTimer w.
Proof.
  intros Hid Htmp Hrm started closed.
  assert (E : lookup_session (uuid env) started
              = Some (length (heap w), c_session (new_cell env))).
  { subst started.
    destruct (startSession_run env binaryDirPath sessionOptions w) as (disk & cs & ->).
    unfold lookup_session. cbn [snd heap activeSessions].
    rewrite map_get_set_eq. cbn. rewrite lookup_app_r by done.
    by rewrite Nat.sub_diag. }
  split; [by rewrite E|].
  split; [subst started; rewrite startSession_fs; by rewrite lookup_insert_eq|].
  subst closed.
  pose proof (closeSession_fs env' _ _ _ _ E) as Hfs.
  destruct (closeSession_known env' _ _ _ _ E) as (disk & cs & Hrun).
  rewrite Hrun in Hfs |- *. cbn [snd closed_world heap activeSessions fs lifetimeTimer] in *.
  subst started.
  split; [|split].
  - destruct (startSession_run env binaryDirPath sessionOptions w) as (disk' & cs' & ->).
    cbn [snd activeSessions]. by apply map_delete_set_fresh.
  - rewrite Hfs. cbn [new_cell c_session tempDirPath]. rewrite Hrm.
    unfold existsSync. rewrite startSession_fs.
    rewrite bool_decide_eq_true_2.
    2: { rewrite lookup_insert_ne, lookup_insert_eq; [by eexists|].
         intros Heq. apply (f_equal length) in Heq. rewrite length_app in Heq.
         cbn in Heq. lia. }
    cbn [negb orb]. by apply filter_scratch_fresh.
  - by destruct (startSession_run env binaryDirPath sessionOptions w) as (disk' & cs' & ->).
Qed.

Lemma start_then_close_restores_witness :
  fs (closeSession calm (uuid calm)
        (startSession calm ["pyright_local"; "2.1.0"] None (initial ∅)).2).2
  = fs (initial ∅).
Proof.
  refine (proj1 (proj2 (proj2 (proj2
            (start_then_close_restores calm calm ["pyright_local"; "2.1.0"] None
               (initial ∅) _ _ _))))); [reflexivity | | reflexivity].
  intros p _. apply lookup_empty.
Defined.

End CloseExtras.

(** ** What a sweep reclaims *)

Section SweepExtras.

Lemma keys_map_delete (k x : SessionId) (m : list (SessionId * Ref)) :
  x ∈ (map_delete k m).*1 → x ∈ m.*1.
Proof.
  induction m as [|[k0 r0] m IH]; simpl; [done|].
  case_decide; simpl; rewrite ?elem_of_cons; [by right; apply IH|].
  intros [->|Hin]; [by left | right; by apply IH].
Qed.

Lemma NoDup_map_delete (k : SessionId) (m : list (SessionId * Ref)) :
  NoDup m.*1 → NoDup (map_delete k m).*1.
Proof.
  induction m as [|[k0 r0] m IH]; simpl; [done|].
  rewrite NoDup_cons. intros [Hfresh Hnd].
  case_decide; simpl; [by apply IH|].
  apply NoDup_cons. split; [|by apply IH].
  intros Hin. by apply Hfresh, (keys_map_delete k).
Qed.

Lemma keys_map_set (k x : SessionId) (r : Ref) (m : list (SessionId * Ref)) :
  x ∈ (map_set k r m).*1 → x = k ∨ x ∈ m.*1.
Proof.
  induction m as [|[k0 r0] m IH]; simpl.
  - rewrite list_elem_of_singleton. by left.
  - case_decide; simpl; rewrite !elem_of_cons.
    + intros [->|Hin]; [by left | right; by right].
    + intros [->|Hin]; [right; by left|].
      destruct (IH Hin) as [->|?]; [by left | right; by right].
Qed.

Lemma NoDup_map_set (k : SessionId) (r : Ref) (m : list (SessionId * Ref)) :
  NoDup m.*1 → NoDup (map_set k r m).*1.
Proof.
  induction m as [|[k0 r0] m IH]; simpl.
  - intros _. apply NoDup_singleton.
  - rewrite NoDup_cons. intros [Hfresh Hnd].
    destruct (decide (k0 = k)) as [->|Hne]; simpl.
    + by apply NoDup_cons.
    + apply NoDup_cons. split; [|by apply IH].
      intros Hin. destruct (keys_map_set _ _ _ _ Hin) as [->|?]; done.
Qed.

Lemma map_get_elem (k : SessionId) (r : Ref) (m : list (SessionId * Ref)) :
  NoDup m.*1 → (k, r) ∈ m → map_get k m = Some r.
Proof.
  induction m as [|[k0 r0] m IH]; simpl; [by rewrite elem_of_nil|].
  rewrite NoDup_cons, elem_of_cons. intros [Hfresh Hnd] [[= <- <-]|Hin].
  - by rewrite decide_True.
  - rewrite decide_False; [by apply IH|].
    intros ->. apply Hfresh. apply list_elem_of_fmap. by exists (k, r).
Qed.

Lemma map_get_Some_elem (k : SessionId) (r : Ref) (m : list (SessionId * Ref)) :
  map_get k m = Some r → (k, r) ∈ m.
Proof.
  induction m as [|[k0 r0] m IH]; simpl; [done|].
  case_decide; [intros [= <-]; subst; by left | intros ?; right; by apply IH].
Qed.

Lemma closeSession_registry (env : Env) (sessionId : SessionId) (w : World) :
  activeSessions (closeSession env sessionId w).2
  = match lookup_session sessionId w with
    | Some _ => map_delete sessionId (activeSessions w)
    | None => activeSessions w
    end.
Proof.
  destruct (lookup_session sessionId w) as [[r s]|] eqn:E.
  - by destruct (closeSession_known env _ _ _ _ E) as (disk & cs & ->).
  - by rewrite closeSession_unknown.
Qed.

(** A property of the registry that deleting and setting a key keep is kept
    by every transition. *)
Lemma registry_perform (P : list (SessionId * Ref) → Prop) :
  (∀ k m, P m → P (map_delete k m)) →
  (∀ k r m, P m → P (map_set k r m)) →
  ∀ env a w, P (activeSessions w) → P (activeSessions (perform env a w).2).
Proof.
  intros Hdel Hset env a w HP.
  assert (Hclose : ∀ sid w0, P (activeSessions w0) →
                             P (activeSessions (closeSession env sid w0).2)).
  { intros sid w0 H0. rewrite closeSession_registry.
    destruct (lookup_session sid w0); [by apply Hdel | done]. }
  assert (Hstart : ∀ dir opts w0, P (activeSessions w0) →
                                  P (activeSessions (startSession env dir opts w0).2)).
  { intros dir opts w0 H0.
    destruct (startSession_run env dir opts w0) as (disk & cs & ->). by apply Hset. }
  destruct a as [sid|sid|opts|dir opts| |rv| |r e]; cbn [perform].
  - rewrite discard_world.
    destruct (lookup_session sid w) as [[r s]|] eqn:E.
    + by rewrite (getSessionById_run env _ _ _ _ E).
    + unfold getSessionById. mrun. by rewrite E.
  - by apply Hclose.
  - rewrite discard_world, createNewSession_run.
    destruct (scheduleSessionLifetimeTimer_frame w) as (_ & _ & Ha & _).
    destruct (installPyright_frame env (opt_field pyrightVersion opts)
                (scheduleSessionLifetimeTimer w).2) as (_ & Ha' & _).
    congruence.
  - rewrite discard_world. by apply Hstart.
  - destruct (scheduleSessionLifetimeTimer_frame w) as (_ & _ & Ha & _). congruence.
  - rewrite discard_world. destruct (installPyright_frame env rv w) as (_ & Ha & _).
    congruence.
  - rewrite lifetimeTimer_callback_unfold.
    pose proof (forEach_preserves (λ w0, P (activeSessions w0)) (activeSessions w)
                  (reap env (now env))) as H.
    assert (Hreap : ∀ x w0, P (activeSessions w0) →
                            P (activeSessions (reap env (now env) x w0).2)).
    { intros x w0 H0. destruct (reap_spec env (now env) x w0) as [-> | ->]; [done|].
      cbn [snd set_activeSessions activeSessions]. by apply Hdel, Hclose. }
    specialize (H Hreap (set_lifetimeTimer None w) HP).
    destruct (forEach _ _ _) as [[[]|e] w1]; cbn [snd] in *; [|done].
    case_bool_decide; [|done].
    destruct (scheduleSessionLifetimeTimer_frame w1) as (_ & _ & Ha & _). congruence.
  - destruct e; cbn [perform].
    + unfold on_spawn. mrun. by destruct (heap w !! r).
    + unfold on_initialize_then. mrun. by destruct (heap w !! r).
    + unfold on_initialize_catch. mrun. destruct (heap w !! r); [|done]. by apply Hclose.
    + unfold on_error. mrun. destruct (heap w !! r) as [c|]; [|done].
      destruct (langServerProcess (c_session c)); by apply Hclose.
    + unfold on_exit. mrun. destruct (heap w !! r); [|done]. by apply Hclose.
    + unfold on_close, on_exit. mrun. destruct (heap w !! r); [|done]. by apply Hclose.
Qed.

Lemma keys_nodup_reachable (w : World) : reachable w → NoDup (activeSessions w).*1.
Proof.
  intros (disk & eas & Hrun).
  assert (Hgen : ∀ eas w0, NoDup (activeSessions w0).*1 → run eas w0 = Some w →
                           NoDup (activeSessions w).*1).
  { clear. induction eas as [|[env a] eas IH]; intros w0 H0 Hrun; cbn in Hrun.
    - by injection Hrun as <-.
    - unfold step in Hrun. cbn [fst snd] in Hrun.
      destruct (enabled a w0); [|done]. cbn in Hrun.
      eapply IH; [|exact Hrun].
      apply (registry_perform (λ m, NoDup m.*1)); [apply NoDup_map_delete| |done].
      intros k r m. apply NoDup_map_set. }
  eapply Hgen; [|exact Hrun]. apply NoDup_nil_2.
Qed.

End SweepExtras.

Section SweepLoop.

Lemma reap_run (env : Env) (sessionId : SessionId) (r : Ref) (w : World) :
  reap env (now env) (sessionId, r) w
  = if idle_at env w r
    then (Ok (), set_activeSessions
                   (map_delete sessionId (activeSessions (closeSession env sessionId w).2))
                   (closeSession env sessionId w).2)
    else (Ok (), w).
Proof.
  unfold reap, idle_at, idle. rewrite bind_run. unfold get_world.
  destruct (heap w !! r) as [c|]; [|done].
  case_bool_decide; [|done].
  unfold mbind, M_bind. rewrite (closeSession_eq env sessionId w). done.
Qed.

Lemma closeSession_other_cells (env : Env) (sessionId other : SessionId) (w : World)
    (r : Ref) :
  registry_inv w → map_get other (activeSessions w) = Some r → other ≠ sessionId →
  heap (closeSession env sessionId w).2 !! r = heap w !! r.
Proof.
  intros Hinv Hreg2 Hne.
  destruct (lookup_session sessionId w) as [[r1 s]|] eqn:E.
  2: { by rewrite closeSession_unknown. }
  destruct (closeSession_known env _ _ _ _ E) as (disk & cs & ->).
  unfold lookup_session in E. cbn [snd closed_world heap].
  destruct (map_get sessionId (activeSessions w)) as [r0|] eqn:Hreg; [|done]. cbn in E.
  destruct (heap w !! r0) as [c1|] eqn:Hc1; [|done]. injection E as -> <-.
  rewrite list_lookup_alter_ne; [done|]. intros ->.
  destruct (Hinv _ _ Hreg) as (c & Hc & Hid & _).
  destruct (Hinv _ _ Hreg2) as (c' & Hc' & Hid' & _). congruence.
Qed.

Lemma closeSession_access_times (env : Env) (sessionId : SessionId) (w : World) (r : Ref) :
  lastAccessTime ∘ c_session <$> heap (closeSession env sessionId w).2 !! r
  = lastAccessTime ∘ c_session <$> heap w !! r.
Proof.
  destruct (lookup_session sessionId w) as [[r1 s]|] eqn:E.
  2: { by rewrite closeSession_unknown. }
  destruct (closeSession_known env _ _ _ _ E) as (disk & cs & ->).
  cbn [snd closed_world heap].
  destruct (decide (r1 = r)) as [->|Hne].
  - rewrite list_lookup_alter_eq. by destruct (heap w !! r).
  - by rewrite list_lookup_alter_ne.
Qed.

Lemma sweeping_idle_at (env : Env) (w0 w : World) (r : Ref) :
  sweeping w0 w → idle_at env w r = idle_at env w0 r.
Proof.
  intros (_ & Htimes & _). specialize (Htimes r). unfold idle_at, idle.
  destruct (heap w !! r), (heap w0 !! r); cbn in Htimes; try done.
  by injection Htimes as ->.
Qed.

(** One visit of the loop. *)
Lemma reap_sweeping (env : Env) (w0 w : World) (sessionId : SessionId) (r : Ref) :
  sweeping w0 w →
  let w' := (reap env (now env) (sessionId, r) w).2 in
  sweeping w0 w'
  ∧ (idle_at env w0 r = true → map_get sessionId (activeSessions w') = None)
  ∧ (∀ other r', map_get other (activeSessions w) = Some r' →
       other ≠ sessionId ∨ idle_at env w0 r = false →
       map_get other (activeSessions w') = Some r')
  ∧ (∀ other, map_get other (activeSessions w) = None →
       map_get other (activeSessions w') = None).
Proof.
  intros Hsw w'. subst w'. rewrite reap_run, (sweeping_idle_at env w0 w r Hsw).
  destruct (idle_at env w0 r) eqn:Hidle; cbn [snd].
  2: { split; [done|]. split; [done|]. split; [by intros|done]. }
  destruct Hsw as (Hinv & Htimes & Hentries).
  set (w1 := set_activeSessions
               (map_delete sessionId (activeSessions (closeSession env sessionId w).2))
               (closeSession env sessionId w).2).
  assert (Hreg : activeSessions w1 = map_delete sessionId (activeSessions w)).
  { subst w1. cbn [set_activeSessions activeSessions]. rewrite closeSession_registry.
    destruct (lookup_session sessionId w); [apply map_delete_idem | done]. }
  assert (Hheap : heap w1 = heap (closeSession env sessionId w).2) by done.
  split; [split; [|split]|split; [|split]].
  - subst w1. by apply inv_delete, inv_closeSession.
  - intros r0. rewrite Hheap. by rewrite closeSession_access_times.
  - intros other r' Hget. rewrite Hreg in Hget.
    destruct (decide (sessionId = other)) as [->|Hne].
    { by rewrite map_get_delete_eq in Hget. }
    rewrite map_get_delete_ne in Hget by done.
    destruct (Hentries _ _ Hget) as [H1 H2]. split; [done|].
    rewrite Hheap.
    by rewrite (closeSession_other_cells env sessionId other w r').
  - intros _. rewrite Hreg. apply map_get_delete_eq.
  - intros other r' Hget [Hne|?]; [|done]. rewrite Hreg. by rewrite map_get_delete_ne.
  - intros other Hget. rewrite Hreg. destruct (decide (sessionId = other)) as [->|Hne].
    + apply map_get_delete_eq.
    + by rewrite map_get_delete_ne.
Qed.

(** The whole loop, over any part of the entries that remain to be visited. *)
Lemma forEach_sweeping (env : Env) (w0 : World) (rest : list (SessionId * Ref)) :
  ∀ w, sweeping w0 w →
  let w' := (forEach rest (reap env (now env)) w).2 in
  sweeping w0 w'
  ∧ (∀ sessionId, map_get sessionId (activeSessions w) = None →
       map_get sessionId (activeSessions w') = None)
  ∧ (∀ sessionId r, (sessionId, r) ∈ rest → idle_at env w0 r = true →
       map_get sessionId (activeSessions w') = None)
  ∧ (∀ sessionId r, map_get sessionId (activeSessions w) = Some r →
       (∀ r', (sessionId, r') ∈ rest → idle_at env w0 r' = false) →
       map_get sessionId (activeSessions w') = Some r).
Proof.
  induction rest as [|[sid r] rest IH]; intros w Hsw w'; subst w'.
  - cbn. split; [done|]. split; [done|]. split; [|done].
    intros ? ? Hin. by apply elem_of_nil in Hin.
  - rewrite forEach_cons.
    destruct (reap_sweeping env w0 w sid r Hsw) as (Hsw1 & Hgone & Hstay & Hnone).
    pose proof (reap_ok env (now env) (sid, r) w) as Hok.
    destruct (reap env (now env) (sid, r) w) as [[[]|e] w1]; cbn [fst snd] in *; [|done].
    destruct (IH w1 Hsw1) as (Hsw2 & Hnone2 & Hgone2 & Hstay2).
    split; [done|]. split; [|split].
    + intros sessionId Hget. by apply Hnone2, Hnone.
    + intros sessionId r0 Hin Hidle. apply elem_of_cons in Hin as [[= -> ->]|Hin].
      * by apply Hnone2, Hgone.
      * by eapply Hgone2.
    + intros sessionId r0 Hget Hall. apply Hstay2.
      * apply Hstay; [done|]. destruct (decide (sessionId = sid)) as [->|?]; [|by left].
        right. apply Hall. by left.
      * intros r' Hin. apply Hall. by right.
Qed.

Lemma sweep_world (env : Env) (w : World) :
  heap (lifetimeTimer_callback env w).2
  = heap (forEach (activeSessions w) (reap env (now env)) (set_lifetimeTimer None w)).2
  ∧ activeSessions (lifetimeTimer_callback env w).2
    = activeSessions
        (forEach (activeSessions w) (reap env (now env)) (set_lifetimeTimer None w)).2.
Proof.
  rewrite lifetimeTimer_callback_unfold.
  pose proof (forEach_ok (activeSessions w) (reap env (now env)) (reap_ok env (now env))
                (set_lifetimeTimer None w)) as Hok.
  destruct (forEach _ _ _) as [[[]|e] w1]; cbn [fst snd] in *; [|done].
  case_bool_decide; [|done].
  by destruct (scheduleSessionLifetimeTimer_frame w1) as (_ & -> & -> & _).
Qed.

(** A sweep closes exactly the sessions that have been idle for longer
    than a minute: their ids are gone from the registry afterwards, every
    other registered session is still registered with its record untouched,
    and no id appears that was not registered before. *)
Theorem sweep_reclaims_idle_sessions (env : Env) (w : World) :
  reachable w →
  let w' := (lifetimeTimer_callback env w).2 in
  (∀ sessionId r c,
     map_get sessionId (activeSessions w) = Some r → heap w !! r = Some c →
     (now env - lastAccessTime (c_session c) > maxSessionLifetime →
      lookup_session sessionId w' = None)
     ∧ (now env - lastAccessTime (c_session c) ≤ maxSessionLifetime →
        lookup_session sessionId w' = Some (r, c_session c)))
  ∧ (∀ sessionId, map_get sessionId (activeSessions w) = None →
       map_get sessionId (activeSessions w') = None).
Proof.
  intros Hreach w'. subst w'.
  pose proof (inv_reachable w Hreach) as Hinv.
  pose proof (keys_nodup_reachable w Hreach) as Hnd.
  destruct (sweep_world env w) as [Hheap Hreg].
  assert (Hsw : sweeping w (set_lifetimeTimer None w)) by (by repeat split).
  destruct (forEach_sweeping env w (activeSessions w) (set_lifetimeTimer None w) Hsw)
    as ((_ & _ & Hent) & Hnone & Hgone & Hstay).
  unfold lookup_session. rewrite Hheap, Hreg. split; [|exact Hnone].
  intros sessionId r c Hget Hc. split.
  - intros Hidle. rewrite (Hgone sessionId r); [done|by apply map_get_Some_elem|].
    unfold idle_at, idle. rewrite Hc. by apply bool_decide_eq_true_2.
  - intros Hfresh.
    assert (Hkeep : map_get sessionId
                      (activeSessions
                         (forEach (activeSessions w) (reap env (now env))
                            (set_lifetimeTimer None w)).2) = Some r).
    { apply Hstay; [done|]. intros r' Hin.
      rewrite (map_get_elem _ _ _ Hnd Hin) in Hget. injection Hget as ->.
      unfold idle_at, idle. rewrite Hc. apply bool_decide_eq_false_2. lia. }
    rewrite Hkeep. cbn. destruct (Hent _ _ Hkeep) as [_ ->]. by rewrite Hc.
Qed.

Lemma sweep_reclaims_idle_sessions_witness :
  lookup_session (uuid calm) (lifetimeTimer_callback (with_now 61001 calm) spawned_world).2
  = None.
Proof.
  refine (proj1 (proj1 (sweep_reclaims_idle_sessions (with_now 61001 calm) spawned_world
                          spawned_world_reachable)
                   (uuid calm) 0%nat _ _ _) _);
    [vm_compute; reflexivity | vm_compute; reflexivity | vm_compute; reflexivity].
Defined.

End SweepLoop.

(** ** Failures of a launch *)

Section LaunchExtras.



(** The world a closing listener hands to [closeSession]. *)
Lemma closing_event_run (env : Env) (r : Ref) (e : ProcessEvent) (w : World) (c : Closure) :
  heap w !! r = Some c → event_closes e = true →
  perform env (Event r e) w
  = closeSession env (c_sessionId c) (set_heap (alter (event_cell e) r (heap w)) w).
Proof.
  intros Hc He. destruct e; try done; cbn [perform].
  - unfold on_initialize_catch. mrun. rewrite Hc. cbn [set_heap heap].
    rewrite list_alter_alter_eq. done.
  - unfold on_error. mrun. rewrite Hc.
    assert (Halt : alter (event_cell Error) r (heap w)
                   = match langServerProcess (c_session c) with
                     | None => alter (settle (Rejected
                         "Failed to spawn pyright language server instance")) r (heap w)
                     | Some _ => heap w
                     end).
    { unfold event_cell. destruct (langServerProcess (c_session c)) eqn:Hp.
      - apply list_eq. intros i. destruct (decide (r = i)) as [<-|Hne].
        + rewrite list_lookup_alter_eq, Hc. cbn. by rewrite Hp.
        + by rewrite list_lookup_alter_ne.
      - apply list_alter_ext; [|done]. intros c' Hc'. rewrite Hc in Hc'.
        injection Hc' as <-. by rewrite Hp. }
    rewrite Halt. destruct (langServerProcess (c_session c)); cbn beta iota; [|done].
    by destruct w.
  - unfold on_exit. mrun. rewrite Hc. f_equal. cbn. rewrite list_alter_id by done.
    by destruct w.
  - unfold on_close, on_exit. mrun. rewrite Hc. f_equal. cbn.
    rewrite list_alter_id by done. by destruct w.
Qed.



End LaunchExtras.

Section PromiseExtras.

Lemma event_statuses (env : Env) (r : Ref) (e : ProcessEvent) (w : World) (c : Closure) :
  heap w !! r = Some c →
  statuses (perform env (Event r e) w).2 = <[r := status_of (event_cell e c)]> (statuses w).
Proof.
  intros Hc. destruct (event_closes e) eqn:He.
  - rewrite (closing_event_run env r e w c Hc He), statuses_closeSession.
    by apply statuses_alter_cell.
  - destruct e; try done; cbn [perform event_cell].
    + destruct (on_spawn_run r w c Hc) as (cs & ->). cbn [snd].
      by apply (statuses_alter_cell r spawned (set_calls cs w)).
    + unfold on_initialize_then. mrun. rewrite Hc. cbn [snd].
      unfold statuses. cbn [set_heap heap]. rewrite list_alter_alter_eq.
      by apply (fmap_status_alter (heap w) r
                  (settle (Resolved (c_sessionId c)) ∘ with_handshake Settled) c).
Qed.

Lemma event_cell_settled (e : ProcessEvent) (c : Closure) :
  c_promise c ≠ Pending →
  c_promise (event_cell e c) = c_promise c ∧ c_sessionId (event_cell e c) = c_sessionId c.
Proof.
  intros Hp. destruct e; cbn; try done.
  - destruct (settle_promise (Resolved (c_sessionId c)) (with_handshake Settled c))
      as (-> & _ & ->). cbn. by destruct (c_promise c).
  - destruct (settle_promise
                (Rejected "Failed to start pyright language server connection")
                (with_handshake Settled c)) as (-> & _ & ->).
    cbn. by destruct (c_promise c).
  - destruct (langServerProcess (c_session c)); [done|].
    destruct (settle_promise
                (Rejected "Failed to spawn pyright language server instance") c)
      as (-> & _ & ->).
    by destruct (c_promise c).
Qed.

Lemma step_settled (env : Env) (a : Action) (w : World) (r : Ref) (s : Status) :
  enabled a w = true → statuses w !! r = Some s → st_promise s ≠ Pending →
  ∃ s', statuses (perform env a w).2 !! r = Some s'
        ∧ st_promise s' = st_promise s ∧ st_id s' = st_id s.
Proof.
  intros Hen Hs Hp.
  assert (Hother : (∀ r0 e, a ≠ Event r0 e) →
            ∃ s', statuses (perform env a w).2 !! r = Some s'
                  ∧ st_promise s' = st_promise s ∧ st_id s' = st_id s).
  { intros Hnot.
    destruct (step_statuses env a w Hen)
      as [-> | [(sid & ->) | (r0 & e & _ & _ & -> & _)]].
    - by exists s.
    - exists s. rewrite lookup_app_l; [done|]. by eapply lookup_lt_Some.
    - by destruct (Hnot r0 e). }
  destruct a as [sid|sid|opts|dir opts| |rv| |r0 e]; try (by apply Hother).
  clear Hother. cbn [enabled] in Hen. destruct (heap w !! r0) as [c|] eqn:Hc; [|done].
  rewrite (event_statuses env r0 e w c Hc).
  destruct (decide (r0 = r)) as [->|Hne].
  - rewrite list_lookup_insert_eq by (by eapply lookup_lt_Some).
    unfold statuses in Hs. rewrite list_lookup_fmap, Hc in Hs. injection Hs as <-.
    eexists. split; [done|]. cbn in *. by apply event_cell_settled.
  - rewrite list_lookup_insert_ne by done. by exists s.
Qed.

(** Once the promise of a creation is settled it stays as it is: no later
    call or event turns a resolved creation into a rejected one, a rejected
    one into a resolved one, or changes the id or reason it carries. *)
Theorem promise_settles_once (eas : list (Env * Action)) (w w' : World)
    (r : Ref) (c : Closure) :
  run eas w = Some w' →
  heap w !! r = Some c →
  c_promise c ≠ Pending →
  ∃ c', heap w' !! r = Some c'
        ∧ c_promise c' = c_promise c
        ∧ c_sessionId c' = c_sessionId c.
Proof.
  revert w c. induction eas as [|[env a] eas IH]; intros w c Hrun Hc Hp; cbn in Hrun.
  - injection Hrun as <-. by exists c.
  - unfold step in Hrun. cbn [fst snd] in Hrun.
    destruct (enabled a w) eqn:Hen; [|done]. cbn in Hrun.
    destruct (step_settled env a w r (status_of c) Hen) as (s' & Hs' & Hp' & Hid').
    { unfold statuses. by rewrite list_lookup_fmap, Hc. }
    { done. }
    unfold statuses in Hs'. rewrite list_lookup_fmap in Hs'.
    destruct (heap (perform env a w).2 !! r) as [c1|] eqn:Hc1; [|done].
    injection Hs' as <-. cbn in Hp', Hid'.
    destruct (IH _ c1 Hrun Hc1) as (c' & Hc' & Hpc' & Hidc'); [congruence|].
    exists c'. split; [done|]. split; congruence.
Qed.

Lemma promise_settles_once_witness :
  ∃ c', heap (perform_all later_trouble launched_world) !! 0%nat = Some c'
        ∧ c_promise c' = Resolved (uuid calm)
        ∧ c_sessionId c' = uuid calm.
Proof.
  refine (promise_settles_once later_trouble launched_world _ 0%nat
            {| c_session := {| id := uuid calm; lastAccessTime := 1000;
                               tempDirPath := mkdtemp calm;
                               langServerProcess := Some 1%nat;
                               langClient := Some (NewLspClient 1%nat) |};
               c_sessionId := uuid calm; c_process := 1%nat;
               c_promise := Resolved (uuid calm); c_handshake := Settled |}
            _ _ _);
    [apply run_enabled_along; vm_compute; reflexivity
    | vm_compute; reflexivity
    | discriminate].
Defined.

End PromiseExtras.

(** ** Registration, handles and the handshake *)

Section Registration.

Lemma follow_alter (r : Ref) (f : Closure → Closure) (w : World) :
  (∀ c, heap w !! r = Some c →
        c_sessionId (f c) = c_sessionId c
        ∧ id (c_session (f c)) = id (c_session c)
        ∧ (handles_follow_spawn c → handles_follow_spawn (f c))) →
  launch_inv w → launch_inv (set_heap (alter f r (heap w)) w).
Proof.
  intros Hf Hinv sessionId r0 Hget. cbn [set_heap heap activeSessions] in *.
  destruct (Hinv _ _ Hget) as (c & Hc & Hid & Hid' & Hfol).
  destruct (decide (r = r0)) as [->|Hne].
  - destruct (Hf c Hc) as (Hf1 & Hf2 & Hf3).
    exists (f c). rewrite list_lookup_alter_eq, Hc. cbn.
    repeat split; [congruence | congruence | by apply Hf3].
  - exists c. by rewrite list_lookup_alter_ne.
Qed.

Lemma follow_frame (w w' : World) :
  heap w' = heap w → activeSessions w' = activeSessions w →
  launch_inv w → launch_inv w'.
Proof. unfold launch_inv. intros -> ->. done. Qed.

Lemma follow_delete (k : SessionId) (w : World) :
  launch_inv w →
  launch_inv (set_activeSessions (map_delete k (activeSessions w)) w).
Proof.
  intros Hinv sessionId r Hget. cbn [set_activeSessions heap activeSessions] in *.
  destruct (decide (k = sessionId)) as [->|Hne].
  - by rewrite map_get_delete_eq in Hget.
  - rewrite map_get_delete_ne in Hget by done. by apply Hinv.
Qed.

(** [closeSession] clears the worker handle of the record it takes out of
    the registry, and of no other registered record. *)
Lemma follow_closeSession (env : Env) (sessionId : SessionId) (w : World) :
  launch_inv w → launch_inv (closeSession env sessionId w).2.
Proof.
  intros Hinv. destruct (lookup_session sessionId w) as [[r s]|] eqn:E.
  2: { by rewrite closeSession_unknown. }
  destruct (closeSession_known env _ _ _ _ E) as (disk & cs & ->).
  unfold lookup_session in E.
  destruct (map_get sessionId (activeSessions w)) as [r1|] eqn:Hreg; [|done].
  cbn in E. destruct (heap w !! r1) as [c1|] eqn:Hc1; [|done].
  injection E as -> <-.
  destruct (Hinv _ _ Hreg) as (c & Hc & Hid & _). rewrite Hc1 in Hc. injection Hc as ->.
  intros sid r0 Hget. unfold closed_world in *. cbn [snd heap activeSessions] in *.
  destruct (decide (sessionId = sid)) as [->|Hne].
  { by rewrite map_get_delete_eq in Hget. }
  rewrite map_get_delete_ne in Hget by done.
  destruct (Hinv _ _ Hget) as (c0 & Hc0 & Hid0 & Hrest).
  exists c0. rewrite list_lookup_alter_ne; [done|].
  intros ->. rewrite Hc1 in Hc0. injection Hc0 as ->. congruence.
Qed.

Lemma follow_startSession (env : Env) (binaryDirPath : Path)
    (sessionOptions : option SessionOptions) (w : World) :
  launch_inv w → launch_inv (startSession env binaryDirPath sessionOptions w).2.
Proof.
  intros Hinv.
  destruct (startSession_run env binaryDirPath sessionOptions w) as (disk & cs & ->).
  intros sid r Hget. cbn [snd heap activeSessions] in *.
  destruct (decide (uuid env = sid)) as [<-|Hne].
  - rewrite map_get_set_eq in Hget. injection Hget as <-.
    exists (new_cell env). rewrite lookup_app_r by done.
    rewrite Nat.sub_diag. by repeat split.
  - rewrite map_get_set_ne in Hget by done.
    destruct (Hinv _ _ Hget) as (c & Hc & Hrest).
    exists c. rewrite lookup_app_l; [done|]. by eapply lookup_lt_Some.
Qed.

Lemma follow_sweep (env : Env) (w : World) :
  launch_inv w → launch_inv (lifetimeTimer_callback env w).2.
Proof.
  intros Hinv. rewrite lifetimeTimer_callback_unfold.
  assert (Hreap : ∀ x w0, launch_inv w0 → launch_inv (reap env (now env) x w0).2).
  { intros x w0 H0. destruct (reap_spec env (now env) x w0) as [-> | ->]; [done|].
    cbn [snd]. by apply follow_delete, follow_closeSession. }
  pose proof (forEach_preserves launch_inv (activeSessions w) (reap env (now env))
                Hreap (set_lifetimeTimer None w)) as H.
  specialize (H (follow_frame w _ eq_refl eq_refl Hinv)).
  destruct (forEach _ _ _) as [[[]|e] w1]; cbn [snd] in *; [|done].
  case_bool_decide; [|done].
  unfold scheduleSessionLifetimeTimer. mrun.
  destruct (lifetimeTimer w1); [done|]. by eapply follow_frame.
Qed.

Lemma follow_settle (p : Promise) (c : Closure) :
  c_sessionId (settle p c) = c_sessionId c
  ∧ id (c_session (settle p c)) = id (c_session c)
  ∧ (handles_follow_spawn c → handles_follow_spawn (settle p c)).
Proof. unfold settle. by destruct (c_promise c). Qed.

Lemma follow_settled (c : Closure) :
  c_handshake c ≠ NotCalled →
  c_sessionId (with_handshake Settled c) = c_sessionId c
  ∧ id (c_session (with_handshake Settled c)) = id (c_session c)
  ∧ (handles_follow_spawn c → handles_follow_spawn (with_handshake Settled c)).
Proof.
  intros Hne. split; [done|]. split; [done|].
  unfold handles_follow_spawn. cbn. by destruct (c_handshake c).
Qed.

(** Every enabled transition keeps the handles in step with ['spawn']. *)
Lemma follow_perform (env : Env) (a : Action) (w : World) :
  enabled a w = true → launch_inv w → launch_inv (perform env a w).2.
Proof.
  intros Hen Hinv. destruct a as [sid|sid|opts|dir opts| |rv| |r e]; cbn [perform].
  - rewrite discard_world. destruct (lookup_session sid w) as [[r s]|] eqn:E.
    + rewrite (getSessionById_run env _ _ _ _ E). cbn [snd].
      apply follow_alter; [|done]. intros c _. split; [done|]. split; [done|].
      intros H. exact H.
    + unfold getSessionById. mrun. by rewrite E.
  - by apply follow_closeSession.
  - rewrite discard_world, createNewSession_run.
    destruct (scheduleSessionLifetimeTimer_frame w) as (_ & Hh & Ha & _).
    destruct (installPyright_frame env (opt_field pyrightVersion opts)
                (scheduleSessionLifetimeTimer w).2) as (Hh' & Ha' & _).
    eapply follow_frame; [| |exact Hinv]; congruence.
  - rewrite discard_world. by apply follow_startSession.
  - destruct (scheduleSessionLifetimeTimer_frame w) as (_ & Hh & Ha & _).
    by eapply follow_frame.
  - rewrite discard_world. destruct (installPyright_frame env rv w) as (Hh & Ha & _).
    by eapply follow_frame.
  - by apply follow_sweep.
  - cbn [enabled] in Hen. destruct (heap w !! r) as [c|] eqn:Hc; [|done].
    destruct e; cbn [perform].
    + destruct (on_spawn_run r w c Hc) as (cs & ->). cbn [snd].
      apply (follow_frame (set_heap (alter spawned r (heap w)) w)); [done..|].
      apply follow_alter; [|done]. intros c' Hc'. by repeat split.
    + destruct (c_handshake c) eqn:Hhs; try done.
      unfold on_initialize_then. mrun. rewrite Hc. cbn [snd].
      apply follow_alter; [intros; apply follow_settle|].
      apply follow_alter; [|done]. intros c' Hc'. apply follow_settled.
      rewrite Hc in Hc'. injection Hc' as <-. by rewrite Hhs.
    + destruct (c_handshake c) eqn:Hhs; try done.
      unfold on_initialize_catch. mrun. rewrite Hc.
      apply follow_closeSession.
      apply follow_alter; [intros; apply follow_settle|].
      apply follow_alter; [|done]. intros c' Hc'. apply follow_settled.
      rewrite Hc in Hc'. injection Hc' as <-. by rewrite Hhs.
    + unfold on_error. mrun. rewrite Hc.
      destruct (langServerProcess (c_session c)); cbn beta iota.
      * by apply follow_closeSession.
      * apply follow_closeSession. apply follow_alter; [intros; apply follow_settle | done].
    + unfold on_exit. mrun. rewrite Hc. by apply follow_closeSession.
    + unfold on_close, on_exit. mrun. rewrite Hc. by apply follow_closeSession.
Qed.

Lemma follow_run (eas : list (Env * Action)) (w w' : World) :
  launch_inv w → run eas w = Some w' → launch_inv w'.
Proof.
  revert w. induction eas as [|[env a] eas IH]; intros w Hinv Hrun; cbn in Hrun.
  - by injection Hrun as <-.
  - unfold step in Hrun. cbn [fst snd] in Hrun.
    destruct (enabled a w) eqn:Hen; [|done]. cbn in Hrun.
    eapply IH; [|exact Hrun]. by apply follow_perform.
Qed.

Lemma event_cell_started (e : ProcessEvent) (c : Closure) :
  c_handshake c ≠ NotCalled ∨ e = Spawn → c_handshake (event_cell e c) ≠ NotCalled.
Proof.
  intros H.
  assert (Hkeep : ∀ p c0, c_handshake (settle p c0) = c_handshake c0).
  { intros p c0. exact (proj1 (proj2 (settle_promise p c0))). }
  destruct e; unfold event_cell; rewrite ?Hkeep; try done.
  - destruct (langServerProcess (c_session c)); rewrite ?Hkeep; by destruct H.
  - by destruct H.
  - by destruct H.
Qed.

(** A handshake that has been started stays started, and ['spawn'] starts
    it. *)
Lemma step_started (env : Env) (a : Action) (w : World) (r : Ref) (s : Status) :
  enabled a w = true → statuses w !! r = Some s →
  st_handshake s ≠ NotCalled ∨ a = Event r Spawn →
  ∃ s', statuses (perform env a w).2 !! r = Some s' ∧ st_handshake s' ≠ NotCalled.
Proof.
  intros Hen Hs Hstart.
  assert (Hother : (∀ r0 e, a ≠ Event r0 e) →
            ∃ s', statuses (perform env a w).2 !! r = Some s'
                  ∧ st_handshake s' ≠ NotCalled).
  { intros Hnot. destruct Hstart as [Hstart | ->]; [|by destruct (Hnot r Spawn)].
    destruct (step_statuses env a w Hen)
      as [-> | [(sid & ->) | (r0 & e & _ & _ & -> & _)]].
    - by exists s.
    - exists s. rewrite lookup_app_l; [done|]. by eapply lookup_lt_Some.
    - by destruct (Hnot r0 e). }
  destruct a as [sid|sid|opts|dir opts| |rv| |r0 e]; try (by apply Hother).
  clear Hother. cbn [enabled] in Hen. destruct (heap w !! r0) as [c|] eqn:Hc; [|done].
  rewrite (event_statuses env r0 e w c Hc).
  destruct (decide (r0 = r)) as [->|Hne].
  - rewrite list_lookup_insert_eq by (by eapply lookup_lt_Some).
    unfold statuses in Hs. rewrite list_lookup_fmap, Hc in Hs. injection Hs as <-.
    eexists. split; [done|]. cbn in *. apply event_cell_started.
    destruct Hstart as [H | [= ->]]; [by left | by right].
  - rewrite list_lookup_insert_ne by done. exists s. split; [done|].
    destruct Hstart as [H | [= -> _]]; done.
Qed.

Lemma started_run (eas : list (Env * Action)) (acts : list Action) (w w' : World) :
  (∀ r, Event r Spawn ∈ acts →
        ∃ s, statuses w !! r = Some s ∧ st_handshake s ≠ NotCalled) →
  run eas w = Some w' →
  ∀ r, Event r Spawn ∈ acts ++ eas.*2 →
       ∃ s, statuses w' !! r = Some s ∧ st_handshake s ≠ NotCalled.
Proof.
  revert acts w. induction eas as [|[env a] eas IH]; intros acts w Hacc Hrun; cbn in Hrun.
  - injection Hrun as <-. rewrite app_nil_r. exact Hacc.
  - unfold step in Hrun. cbn [fst snd] in Hrun.
    destruct (enabled a w) eqn:Hen; [|done]. cbn in Hrun.
    rewrite fmap_cons. cbn [snd].
    change (acts ++ a :: eas.*2) with (acts ++ [a] ++ eas.*2). rewrite app_assoc.
    eapply IH; [|exact Hrun].
    intros r [Hin | Hin%list_elem_of_singleton]%elem_of_app.
    + destruct (Hacc r Hin) as (s & Hs & Hne).
      apply (step_started env a w r s Hen Hs). by left.
    + subst a. pose proof Hen as Hen'. cbn [enabled] in Hen'.
      destruct (heap w !! r) as [c|] eqn:Hc; [|done].
      apply (step_started env (Event r Spawn) w r (status_of c) Hen).
      * unfold statuses. by rewrite list_lookup_fmap, Hc.
      * by right.
Qed.

(** C1, amended. In every world the server can reach: a launch puts its
    record into the registry at once, with no handles and its promise
    pending; every id in the registry leads to a record of that id which has
    neither the worker handle nor the client handle as long as its worker has
    not reported ['spawn'], and has both, the handle of its own worker and
    the client made for it, once the worker has reported ['spawn']; and a
    promise of [startSession] is resolved, with the id of its session, only
    after the worker has reported ['spawn'] and the handshake started by it
    has succeeded. *)
Theorem registration_precedes_handshake (disk : gmap Path Node)
    (eas : list (Env * Action)) (w : World) :
  run eas (initial disk) = Some w →
  (∀ env binaryDirPath sessionOptions,
     let started := startSession env binaryDirPath sessionOptions w in
     started.1 = Ok (length (heap w))
     ∧ map_get (uuid env) (activeSessions started.2) = Some (length (heap w))
     ∧ ∃ c, heap started.2 !! length (heap w) = Some c
            ∧ langServerProcess (c_session c) = None
            ∧ langClient (c_session c) = None
            ∧ c_promise c = Pending)
  ∧ (∀ sessionId r, map_get sessionId (activeSessions w) = Some r →
       ∃ c, heap w !! r = Some c
            ∧ c_sessionId c = sessionId
            ∧ id (c_session c) = sessionId
            ∧ (Event r Spawn ∉ eas.*2 →
               langServerProcess (c_session c) = None
               ∧ langClient (c_session c) = None)
            ∧ (Event r Spawn ∈ eas.*2 →
               langServerProcess (c_session c) = Some (c_process c)
               ∧ langClient (c_session c) = Some (NewLspClient (c_process c))))
  ∧ (∀ r c v, heap w !! r = Some c → c_promise c = Resolved v →
       v = c_sessionId c
       ∧ ∃ pre mid post,
           eas.*2 = pre ++ Event r Spawn :: mid ++ Event r InitializeResolved :: post).
Proof.
  intros Hrun.
  assert (Hacc : accounts_for ([] ++ eas.*2) (statuses w)).
  { eapply accounts_for_run; [|exact Hrun]. intros r0 s0 Hs0. done. }
  split; [|split].
  - intros env dir opts started. subst started.
    destruct (startSession_run env dir opts w) as (fs' & cs & ->).
    cbn [fst snd heap activeSessions].
    split; [done|]. split; [apply map_get_set_eq|].
    exists (new_cell env). rewrite lookup_app_r by done. by rewrite Nat.sub_diag.
  - intros sessionId r Hget.
    assert (Hinv : launch_inv w).
    { eapply follow_run; [|exact Hrun]. intros sid r0 Hget0. done. }
    destruct (Hinv _ _ Hget) as (c & Hc & Hid & Hid' & Hfol).
    exists c. split; [done|]. split; [done|]. split; [done|].
    unfold handles_follow_spawn in Hfol. split.
    + intros Hnot. destruct (c_handshake c) eqn:Hhs; [done|..]; exfalso; apply Hnot;
        apply (proj1 (Hacc r (status_of c)
                 ltac:(unfold statuses; by rewrite list_lookup_fmap, Hc)));
        cbn; by rewrite Hhs.
    + intros Hin.
      destruct (started_run eas [] (initial disk) w) with (r := r) as (s & Hs & Hne);
        [intros r0 Hr0; by apply elem_of_nil in Hr0 | exact Hrun | exact Hin |].
      unfold statuses in Hs. rewrite list_lookup_fmap, Hc in Hs. injection Hs as <-.
      cbn in Hne. by destruct (c_handshake c).
  - intros r c v Hc Hv.
    destruct (Hacc r (status_of c)) as [_ H].
    { unfold statuses. by rewrite list_lookup_fmap, Hc. }
    exact (H v Hv).
Qed.

Lemma registration_precedes_handshake_witness :
  (∃ c, heap (perform_all successful_launch (initial ∅)) !! 0%nat = Some c
        ∧ c_sessionId c = uuid calm
        ∧ id (c_session c) = uuid calm
        ∧ (Event 0%nat Spawn ∉ successful_launch.*2 →
           langServerProcess (c_session c) = None ∧ langClient (c_session c) = None)
        ∧ (Event 0%nat Spawn ∈ successful_launch.*2 →
           langServerProcess (c_session c) = Some (c_process c)
           ∧ langClient (c_session c) = Some (NewLspClient (c_process c))))
  ∧ (∀ r c v, heap (perform_all successful_launch (initial ∅)) !! r = Some c →
       c_promise c = Resolved v →
       v = c_sessionId c
       ∧ ∃ pre mid post,
           successful_launch.*2
           = pre ++ Event r Spawn :: mid ++ Event r InitializeResolved :: post).
Proof.
  pose proof (registration_precedes_handshake ∅ successful_launch
                (perform_all successful_launch (initial ∅))
                (run_enabled_along successful_launch (initial ∅) eq_refl))
    as (_ & Hreg & Hres).
  split; [|exact Hres]. apply (Hreg (uuid calm)). reflexivity.
Defined.

End Registration.

(** ** Creating a session *)

Section CreateExtras.

(** A creation request in two turns. The turn of the caller arms the sweep
    timer when none is pending and then only installs: the install allocates
    and registers nothing and leaves the timer alone, and the turn settles
    with the outcome of [installPyright], so that a failed resolution or
    install registers no session. The [then] callback, in whatever world it
    meets later, registers exactly one new session under the fresh id and
    leaves the timer as it finds it: when the timer has fired in between and
    was not armed again, the session is registered with no sweep pending. *)
Theorem createNewSession_outcome (env : Env) (sessionOptions : option SessionOptions)
    (w : World) :
  let armed := (scheduleSessionLifetimeTimer w).2 in
  let res := createNewSession env sessionOptions w in
  is_Some (lifetimeTimer armed)
  ∧ res = installPyright env (opt_field pyrightVersion sessionOptions) armed
  ∧ heap res.2 = heap w
  ∧ activeSessions res.2 = activeSessions w
  ∧ lifetimeTimer res.2 = lifetimeTimer armed
  ∧ ∀ env' info w',
      let started := createNewSession_then env' sessionOptions info w' in
      started.1 = Ok (length (heap w'))
      ∧ heap started.2 = heap w' ++ [new_cell env']
      ∧ activeSessions started.2
        = map_set (uuid env') (length (heap w')) (activeSessions w')
      ∧ lifetimeTimer started.2 = lifetimeTimer w'.
Proof.
  intros armed res. subst armed res. rewrite createNewSession_run.
  assert (Ht : is_Some (lifetimeTimer (scheduleSessionLifetimeTimer w).2)).
  { unfold scheduleSessionLifetimeTimer. mrun.
    destruct (lifetimeTimer w) eqn:E; cbn; [by rewrite E | by eexists]. }
  destruct (scheduleSessionLifetimeTimer_frame w) as (_ & Hh & Ha & _).
  destruct (installPyright_frame env (opt_field pyrightVersion sessionOptions)
              (scheduleSessionLifetimeTimer w).2) as (Hh' & Ha' & Ht').
  split; [done|]. split; [done|]. split; [congruence|]. split; [congruence|].
  split; [done|].
  intros env' info w' started. subst started. unfold createNewSession_then.
  destruct (startSession_run env' (Info.localDirectory info) sessionOptions w')
    as (disk & cs & ->).
  done.
Qed.

Lemma createNewSession_outcome_witness :
  reachable (perform_all creation_across_sweep (initial ∅))
  ∧ is_Some (lifetimeTimer (scheduleSessionLifetimeTimer (initial ∅)).2)
  ∧ lifetimeTimer
      (createNewSession_then second None
         {| Info.pyrightVersion := "2.1.0"; Info.localDirectory := dirName "2.1.0" |}
         (perform_all creation_across_sweep (initial ∅))).2 = None
  ∧ length (activeSessions
      (createNewSession_then second None
         {| Info.pyrightVersion := "2.1.0"; Info.localDirectory := dirName "2.1.0" |}
         (perform_all creation_across_sweep (initial ∅))).2) = 2%nat.
Proof.
  split; [exists ∅, creation_across_sweep; apply run_enabled_along; vm_compute; reflexivity|].
  split; [exact (proj1 (createNewSession_outcome calm None (initial ∅)))|].
  destruct (proj2 (proj2 (proj2 (proj2 (proj2
              (createNewSession_outcome calm None (initial ∅))))))
              second
              {| Info.pyrightVersion := "2.1.0"; Info.localDirectory := dirName "2.1.0" |}
              (perform_all creation_across_sweep (initial ∅)))
    as (_ & _ & Hreg & Htimer).
  split.
  - rewrite Htimer. vm_compute. reflexivity.
  - rewrite Hreg. vm_compute. reflexivity.
Defined.

Lemma installPyright_named_failure_witness :
  (∃ reason, JsString "Failed to install pyright@1.0.0"
             = JsError ("Failed to get latest version of pyright: " +:+ reason))
  ∨ (∃ version, JsString "Failed to install pyright@1.0.0"
                = JsString ("Failed to install pyright@" +:+ version)).
Proof.
  refine (installPyright_named_failure (broken_installer calm) (Some "1.0.0") (initial ∅)
            _ _).
  vm_compute. reflexivity.
Defined.

(** A successful install can be relied on: the directory of the version
    exists afterwards, and every later request for the version, whatever the
    collaborators would answer then, returns the same directory without
    touching anything. *)
Theorem install_then_cache_hit (env env' : Env) (version : string) (w : World)
    (info : InstallPyrightInfo) :
  truthy (Some version) = true →
  (installPyright env (Some version) w).1 = Ok info →
  let w' := (installPyright env (Some version) w).2 in
  info = {| Info.pyrightVersion := version; Info.localDirectory := dirName version |}
  ∧ existsSync (dirName version) w' = true
  ∧ installPyright env' (Some version) w' = (Ok info, w').
Proof.
  intros Ht Hok w'.
  assert (H : info = {| Info.pyrightVersion := version;
                        Info.localDirectory := dirName version |}
              ∧ existsSync (dirName version) w' = true).
  { subst w'. revert Hok. rewrite installPyright_run, resolveVersion_run, Ht.
    cbn beta iota zeta. change (default "" (Some version)) with version.
    destruct (existsSync (dirName version) w) eqn:Hex.
    { cbn [fst snd]. intros [= <-]. done. }
    rewrite mkdir_install_run.
    destruct (mkdir_fails env _ || existsb _ _); [done|].
    destruct (install_fails env version); [done|].
    cbn [fst snd]. intros [= <-]. split; [done|].
    unfold existsSync. apply bool_decide_eq_true_2.
    unfold after_install_call, after_mkdir. cbn [fs set_fs set_calls].
    rewrite lookup_insert_ne.
    2: { unfold dirName. intros Heq. apply (f_equal length) in Heq. done. }
    rewrite prefix_created; [by eexists|]. unfold dirName. cbn. set_solver. }
  destruct H as [-> Hex]. split; [done|]. split; [done|].
  by apply installPyright_cache_hit.
Qed.

Lemma install_then_cache_hit_witness :
  existsSync (dirName "1.0.0") (installPyright calm (Some "1.0.0") (initial ∅)).2 = true.
Proof.
  refine (proj1 (proj2 (install_then_cache_hit calm (broken_installer calm) "1.0.0"
                          (initial ∅) _ _ _))); [reflexivity|].
  vm_compute. reflexivity.
Defined.

End CreateExtras.

(** ** More about the listings and the configuration *)

Section ListingExtras.
Import Versions.

Lemma elem_of_take_in {A} (n : nat) (l : list A) (x : A) : x ∈ take n l → x ∈ l.
Proof. intros H. rewrite <- (take_drop n l). apply elem_of_app. by left. Qed.

Lemma filter_release_elem (vs : list string) (v : string) :
  v ∈ List.filter is_release vs ↔ v ∈ vs ∧ includes_hyphen v = false.
Proof.
  rewrite !list_elem_of_In, filter_In. unfold is_release.
  by rewrite negb_true_iff.
Qed.

(** The server never lists a prerelease and never more than fifty versions;
    what it lists are the releases of the response, the last of the response
    first. A failed query is reported under the name of the listing. *)
Theorem server_listing_releases_only (answer : Result Packument) :
  match answer, getPyrightVersions answer with
  | Ok response, Ok listed =>
      (length listed ≤ 50)%nat
      ∧ listed `prefix_of` reverse (List.filter is_release (versions response))
      ∧ (∀ v, v ∈ listed → v ∈ versions response ∧ includes_hyphen v = false)
      ∧ (length (List.filter is_release (versions response)) ≤ 50 →
         ∀ v, v ∈ versions response → includes_hyphen v = false → v ∈ listed)%nat
  | Throw err, Throw e =>
      e = JsError ("Failed to get versions of pyright: " +:+ template err)
  | _, _ => False
  end.
Proof.
  destruct answer as [[vs]|err]; unfold getPyrightVersions; cbn beta iota zeta; [|done].
  cbn [versions]. change maxPyrightVersionCount with 50%nat.
  split; [rewrite length_take; lia|]. split; [apply prefix_take|]. split.
  - intros v Hin. apply elem_of_take_in in Hin. rewrite elem_of_reverse in Hin.
    by apply filter_release_elem in Hin as [? ?].
  - intros Hlen v Hin Hv. rewrite take_ge by (by rewrite length_reverse).
    rewrite elem_of_reverse. apply filter_release_elem. by split.
Qed.

Lemma server_listing_releases_only_witness :
  "3.0.0" ∈ ["2.0.1"; "2.1.0-rc1"; "3.0.0"] ∧ includes_hyphen "3.0.0" = false.
Proof.
  refine (proj1 (proj2 (proj2
            (server_listing_releases_only
               (Ok {| versions := ["2.0.1"; "2.1.0-rc1"; "3.0.0"] |})))) "3.0.0" _).
  apply list_elem_of_here.
Defined.

End ListingExtras.

Section ConfigExtras.

(** What the server writes besides the defaults: a truthy option of the
    caller is written as given unless an override replaces it; the Python
    version and platform are always present; and no key is written that is
    neither one of the three option keys nor the name of an override. *)
Theorem config_explicit_values_and_keys (sessionOptions : option SessionOptions) :
  let overrides := overrides_of sessionOptions in
  let config := synthesizeConfig sessionOptions in
  (∀ v, opt_field pythonVersion sessionOptions = Some v → v ≠ "" →
        overrides !! "pythonVersion" = None →
        config !! "pythonVersion" = Some (JString v))
  ∧ (∀ v, opt_field pythonPlatform sessionOptions = Some v → v ≠ "" →
          overrides !! "pythonPlatform" = None →
          config !! "pythonPlatform" = Some (JString v))
  ∧ (∀ v, opt_field typeCheckingMode sessionOptions = Some v → v ≠ "" →
          overrides !! "typeCheckingMode" = None →
          config !! "typeCheckingMode" = Some (JString v))
  ∧ is_Some (config !! "pythonVersion")
  ∧ is_Some (config !! "pythonPlatform")
  ∧ (∀ key, is_Some (config !! key) →
       key = "pythonVersion" ∨ key = "pythonPlatform" ∨ key = "typeCheckingMode"
       ∨ is_Some (overrides !! key)).
Proof.
  intros overrides config. subst overrides config.
  assert (Htruthy : ∀ v, v ≠ "" → truthy (Some v) = true).
  { intros v Hv. cbn. apply negb_true_iff, String.eqb_neq. done. }
  assert (Hpresent : ∀ key, key ≠ "__proto__" →
            (∀ b, overrides_of sessionOptions !! key = Some b →
                  synthesizeConfig sessionOptions !! key = Some (JBool b))).
  { intros key Hkey b Hb. unfold synthesizeConfig, overrides_of in *.
    destruct (opt_field configOverrides sessionOptions) as [ov|]; cbn in Hb.
    - apply merge_overrides_present; [apply NoDup_fst_map_to_list| |done].
      by apply elem_of_map_to_list.
    - by rewrite lookup_empty in Hb. }
  repeat split.
  - intros v Hv Hne Hov. rewrite synthesizeConfig_lookup by done. cbn.
    by rewrite Hv, (Htruthy v Hne).
  - intros v Hv Hne Hov. rewrite synthesizeConfig_lookup by done. cbn.
    by rewrite Hv, (Htruthy v Hne).
  - intros v Hv Hne Hov. rewrite synthesizeConfig_lookup by done. cbn.
    by rewrite Hv, (Htruthy v Hne).
  - destruct (overrides_of sessionOptions !! "pythonVersion") as [b|] eqn:Hov.
    + rewrite (Hpresent "pythonVersion" ltac:(done) b Hov). by eexists.
    + rewrite synthesizeConfig_lookup by done. cbn. by eexists.
  - destruct (overrides_of sessionOptions !! "pythonPlatform") as [b|] eqn:Hov.
    + rewrite (Hpresent "pythonPlatform" ltac:(done) b Hov). by eexists.
    + rewrite synthesizeConfig_lookup by done. cbn. by eexists.
  - intros key [x Hx].
    destruct (overrides_of sessionOptions !! key) as [b|] eqn:Hov.
    { right. right. right. by eexists. }
    rewrite synthesizeConfig_lookup in Hx by done.
    repeat case_decide; try done; auto.
Qed.

Lemma config_explicit_values_and_keys_witness :
  synthesizeConfig (Some sample_options) !! "locale" = None.
Proof.
  destruct (config_explicit_values_and_keys (Some sample_options))
    as (_ & _ & _ & _ & _ & Hkeys).
  destruct (synthesizeConfig (Some sample_options) !! "locale") as [x|] eqn:E; [|done].
  destruct (Hkeys "locale") as [H|[H|[H|[y H]]]]; [by eexists|done..|].
  vm_compute in H. done.
Defined.

End ConfigExtras.

(** ** The in-browser client *)

Section BrowserExtras.
Import Versions Browser.

Lemma head_take {A} (n : nat) (l : list A) : take (S n) l !! 0%nat = l !! 0%nat.
Proof. by destruct l. Qed.

Lemma reverse_lookup_0 {A} (l : list A) : reverse l !! 0%nat = last l.
Proof. rewrite <- head_lookup. apply head_reverse. Qed.

(** The first entry of either client listing. *)
Lemma client_listing_first (vs : list string) :
  let releases := List.filter is_release vs in
  ∃ listed listed',
    client_getPyrightVersions (Ok {| versions := vs |}) = Ok listed
    ∧ client_getPyrightVersions_uncapped (Ok {| versions := vs |}) = Ok listed'
    ∧ listed !! 0%nat = listed' !! 0%nat
    ∧ listed' !! 0%nat = match releases with [] => last vs | _ => last releases end.
Proof.
  intros releases. eexists _, _. split; [done|]. split; [done|]. cbn [versions].
  fold releases. change maxPyrightVersionCount with 50%nat. split.
  - apply head_take.
  - rewrite reverse_lookup_0. by destruct releases.
Qed.

(** The worker script the client loads. Without options the call fails with
    a [TypeError] before any query. A version given in the options, even the
    empty string, is used as it is and the index is not consulted. Otherwise
    the script of the last release of the index answer is loaded, that of the
    last entry when the answer has no release, and that of "undefined" when
    the answer is empty; a failed query rejects the call. *)
Theorem worker_script_version (options : SessionOptions) (answer : Result Packument) :
  let url version :=
    "https://cdn.jsdelivr.net/npm/browser-basedpyright@" +:+ version
      +:+ "/dist/pyright.worker.js" in
  workerScript None answer = TypeErrorThrown
  ∧ (∀ v, pyrightVersion options = Some v →
          workerScript (Some options) answer = Fulfilled (url v))
  ∧ (pyrightVersion options = None →
     match answer with
     | Ok response =>
         workerScript (Some options) answer
         = Fulfilled (url (template_opt
             match List.filter is_release (versions response) with
             | [] => last (versions response)
             | releases => last releases
             end))
     | Throw err =>
         workerScript (Some options) answer
         = RejectedWith (JsError ("Failed to get versions of pyright: " +:+ template err))
     end).
Proof.
  intros url. split; [done|]. split.
  - intros v Hv. unfold workerScript. by rewrite Hv.
  - intros Hnone. unfold workerScript. rewrite Hnone.
    destruct answer as [[vs]|err]; [|done].
    destruct (client_listing_first vs) as (listed & listed' & -> & _ & -> & ->).
    subst url. cbn [versions]. by destruct (List.filter is_release vs).
Qed.

Lemma worker_script_version_witness :
  workerScript (Some sample_options)
    (Ok {| versions := ["1.28.0"; "1.29.0"; "1.30.0-dev1"] |})
  = Fulfilled "https://cdn.jsdelivr.net/npm/browser-basedpyright@1.29.0/dist/pyright.worker.js".
Proof.
  exact (proj2 (proj2 (worker_script_version sample_options
           (Ok {| versions := ["1.28.0"; "1.29.0"; "1.30.0-dev1"] |}))) eq_refl).
Defined.

(** Both client listings show only versions of the answer, never more than
    fifty in the capped copy, and no prerelease as soon as the answer has a
    release. *)
Theorem client_listing_sound (vs listed : list string) :
  client_getPyrightVersions (Ok {| versions := vs |}) = Ok listed
  ∨ client_getPyrightVersions_uncapped (Ok {| versions := vs |}) = Ok listed →
  (∀ v, v ∈ listed → v ∈ vs)
  ∧ (client_getPyrightVersions (Ok {| versions := vs |}) = Ok listed →
     (length listed ≤ 50)%nat)
  ∧ (Exists (λ v, includes_hyphen v = false) vs →
     ∀ v, v ∈ listed → includes_hyphen v = false).
Proof.
  intros Hlisted.
  set (chosen := if bool_decide (length (List.filter is_release vs) ≠ 0%nat)
                 then List.filter is_release vs else vs).
  assert (Hsub : ∀ v, v ∈ listed → v ∈ chosen).
  { intros v Hv. destruct Hlisted as [[= <-]|[= <-]].
    - apply elem_of_take_in in Hv. by rewrite elem_of_reverse in Hv.
    - by rewrite elem_of_reverse in Hv. }
  split; [|split].
  - intros v Hv. specialize (Hsub v Hv). subst chosen.
    case_bool_decide; [|done]. by apply filter_release_elem in Hsub as [? ?].
  - intros [= <-]. change maxPyrightVersionCount with 50%nat. rewrite length_take. lia.
  - intros Hex v Hv. specialize (Hsub v Hv). subst chosen.
    rewrite bool_decide_eq_true_2 in Hsub.
    + by apply filter_release_elem in Hsub as [? ?].
    + clear -Hex. induction Hex as [x l Hx | x l _ IH]; cbn.
      * unfold is_release at 1. by rewrite Hx.
      * destruct (is_release x); cbn; [lia | done].
Qed.

Lemma client_listing_sound_witness :
  includes_hyphen "1.29.0" = false.
Proof.
  refine (proj2 (proj2 (client_listing_sound ["1.28.0"; "1.29.0"; "1.30.0-dev1"]
                          ["1.29.0"; "1.28.0"] _)) _ "1.29.0" _).
  - left. reflexivity.
  - apply Exists_cons_hd. reflexivity.
  - apply list_elem_of_here.
Defined.

(** The configuration the client hands to its worker: an override replaces
    an option of the same name; [typeshedPath] is "/typeshed" unless an
    override carries that name; and, unlike on the server, an option the
    caller left out gets no default, so the key is missing. *)
Theorem client_config_merge (options : SessionOptions) :
  let config := pyrightconfig options in
  let overrides := default ∅ (configOverrides options) in
  (∀ key b, overrides !! key = Some b → config !! key = Some (CFlag b))
  ∧ (overrides !! "typeshedPath" = None →
     config !! "typeshedPath" = Some (CString "/typeshed"))
  ∧ (overrides !! "pythonVersion" = None →
     config !! "pythonVersion" = CString <$> pythonVersion options)
  ∧ (overrides !! "pythonPlatform" = None →
     config !! "pythonPlatform" = CString <$> pythonPlatform options)
  ∧ (overrides !! "configOverrides" = None →
     config !! "configOverrides" = COverrides <$> configOverrides options).
Proof.
  intros config overrides. subst config overrides. unfold pyrightconfig, option_entry.
  destruct options as [pv pp prv tcm co loc]. cbn [pythonVersion pythonPlatform
    pyrightVersion typeCheckingMode configOverrides locale].
  destruct co as [m|]; cbn [from_option Datatypes.id].
  - split; [|repeat split]; [intros key b Hb|intros Hnone..].
    + apply lookup_union_Some_l. by rewrite lookup_fmap, Hb.
    + rewrite lookup_union_r by (by rewrite lookup_fmap, Hnone).
      destruct pv, pp, prv, tcm, loc; by simplify_map_eq.
    + rewrite lookup_union_r by (by rewrite lookup_fmap, Hnone).
      destruct pv, pp, prv, tcm, loc; by simplify_map_eq.
    + rewrite lookup_union_r by (by rewrite lookup_fmap, Hnone).
      destruct pv, pp, prv, tcm, loc; by simplify_map_eq.
    + rewrite lookup_union_r by (by rewrite lookup_fmap, Hnone).
      destruct pv, pp, prv, tcm, loc; by simplify_map_eq.
  - split; [|repeat split]; [intros key b Hb; by rewrite lookup_empty in Hb|intros _..];
      destruct pv, pp, prv, tcm, loc; by simplify_map_eq.
Qed.

Lemma client_config_merge_witness :
  pyrightconfig sample_options !! "pythonPlatform" = Some (CFlag true)
  ∧ pyrightconfig sample_options !! "pythonVersion" = None.
Proof.
  destruct (client_config_merge sample_options) as (Hover & _ & Hversion & _).
  split; [apply Hover; vm_compute; reflexivity|].
  rewrite Hversion by (vm_compute; reflexivity). reflexivity.
Defined.

End BrowserExtras.

(** ** Diagnostics requests of the browser client *)

Section LspExtras.
Import Lsp.

Lemma answer_once_idem (a old : Answer) : answer_once a (answer_once a old) = answer_once a old.
Proof. by destruct old, a. Qed.

Lemma foldl_alter_lookup {A} (f : A → A) (rs : list nat) (l : list A) (p : nat) :
  (∀ x, f (f x) = f x) →
  foldl (λ a r, alter f r a) l rs !! p
  = if decide (p ∈ rs) then f <$> l !! p else l !! p.
Proof.
  intros Hf. revert l. induction rs as [|r rs IH]; intros l; cbn.
  - by rewrite decide_False by apply not_elem_of_nil.
  - rewrite IH. destruct (decide (r = p)) as [->|Hne].
    + rewrite list_lookup_alter_eq.
      rewrite (decide_True (P := p ∈ p :: rs)) by (by left).
      case_decide; [|done]. destruct (l !! p); cbn; [|done]. by rewrite Hf.
    + rewrite list_lookup_alter_ne by done.
      case_decide as Hin.
      * rewrite decide_True; [done|]. by right.
      * rewrite decide_False; [done|]. intros [?|?]%elem_of_cons; congruence.
Qed.

Lemma queued_elem (c : Client) (p : Request) :
  p ∈ mjoin (map_to_list (pendingDiagRequests c)).*2
  ↔ ∃ v requestList, pendingDiagRequests c !! v = Some requestList ∧ p ∈ requestList.
Proof.
  rewrite list_elem_of_join. split.
  - intros (l & Hp & Hl). apply list_elem_of_fmap in Hl as ([v l'] & -> & Hvl).
    apply elem_of_map_to_list in Hvl. by exists v, l'.
  - intros (v & l & Hvl & Hp). exists l. split; [done|].
    apply list_elem_of_fmap. exists (v, l). split; [done|].
    by apply elem_of_map_to_list.
Qed.

(** [cancelRequests] empties the queue and rejects every queued request that
    was still waiting with "Request canceled"; requests that were not queued,
    and answers already given, stay as they are; a second call changes
    nothing. *)
Theorem cancelRequests_rejects_queued (c : Client) :
  let c' := cancelRequests c in
  pendingDiagRequests c' = ∅
  ∧ (∀ v requestList p,
       pendingDiagRequests c !! v = Some requestList → p ∈ requestList →
       answers c !! p = Some Waiting →
       answers c' !! p = Some (Rejected "Request canceled"))
  ∧ (∀ p a, answers c !! p = Some a → a ≠ Waiting → answers c' !! p = Some a)
  ∧ (∀ p, (∀ v requestList, pendingDiagRequests c !! v = Some requestList →
                            p ∉ requestList) →
          answers c' !! p = answers c !! p)
  ∧ cancelRequests c' = c'.
Proof.
  intros c'. subst c'. unfold cancelRequests.
  cbn [set_pending set_answers pendingDiagRequests answers].
  split; [done|]. split; [|split; [|split]].
  - intros v l p Hvl Hp Hw.
    rewrite foldl_alter_lookup by apply answer_once_idem.
    rewrite decide_True by (apply queued_elem; by exists v, l). by rewrite Hw.
  - intros p a Ha Hne. rewrite foldl_alter_lookup by apply answer_once_idem.
    case_decide; rewrite Ha; [|done]. by destruct a.
  - intros p Hnot. rewrite foldl_alter_lookup by apply answer_once_idem.
    rewrite decide_False; [done|]. intros (v & l & Hvl & Hp)%queued_elem.
    by apply (Hnot v l).
  - by rewrite map_to_list_empty.
Qed.

Lemma cancelRequests_rejects_queued_witness :
  answers (cancelRequests (reacts [GetDiagnostics "x = 1"; AfterSend 0%nat true] fresh))
    !! 0%nat = Some (Rejected "Request canceled").
Proof.
  refine (proj1 (proj2 (cancelRequests_rejects_queued
            (reacts [GetDiagnostics "x = 1"; AfterSend 0%nat true] fresh)))
            2 [0%nat] 0%nat _ _ _); [vm_compute; reflexivity | by left | reflexivity].
Defined.

(** One react: promises are only added, and an answer changes only from
    waiting to the rejection of a cancelled request. *)
Lemma step_answers (s : Input) (c : Client) (p : Request) (a : Answer) :
  answers c !! p = Some a →
  answers (react s c) !! p = Some a
  ∨ (a = Waiting ∧ answers (react s c) !! p = Some (Rejected "Request canceled")).
Proof.
  intros Ha. destruct s as [code|code|request delivered|diagInfo|]; cbn [react].
  - by left.
  - left. unfold getDiagnostics.
    destruct (negb _); [|destruct (documentDiags c)]; cbn;
      (rewrite lookup_app_l; [done | by eapply lookup_lt_Some]).
  - left. unfold afterSend. destruct (list_find _ _) as [[i [q v]]|]; [|done].
    by destruct delivered.
  - by left.
  - unfold cancelRequests. cbn [set_pending set_answers answers].
    rewrite foldl_alter_lookup by apply answer_once_idem.
    case_decide; rewrite Ha; [|by left]. destruct a; cbn; [right|left..]; done.
Qed.

(** However the client is used, a diagnostics request that is waiting is
    never resolved with diagnostics: it keeps waiting or is rejected with
    "Request canceled". An answer once given never changes. *)
Theorem waiting_request_never_resolves (ss : list Input) (c : Client) (p : Request)
    (a : Answer) :
  answers c !! p = Some a →
  answers (reacts ss c) !! p = Some a
  ∨ (a = Waiting ∧ answers (reacts ss c) !! p = Some (Rejected "Request canceled")).
Proof.
  revert c a. induction ss as [|s ss IH]; intros c a Ha; [by left|].
  cbn [reacts foldl]. fold (reacts ss (react s c)).
  destruct (step_answers s c p a Ha) as [H|[-> H]].
  - by apply IH.
  - right. split; [done|]. destruct (IH _ _ H) as [?|[? _]]; done.
Qed.

Lemma waiting_request_never_resolves_witness :
  answers (reacts [Publish {| version := Some 2; diagnostics := [Diag "unused"] |};
                  GetDiagnostics "x = 1"]
             (reacts [GetDiagnostics "x = 1"; AfterSend 0%nat true] fresh)) !! 0%nat
  = Some Waiting.
Proof.
  destruct (waiting_request_never_resolves
              [Publish {| version := Some 2; diagnostics := [Diag "unused"] |};
               GetDiagnostics "x = 1"]
              (reacts [GetDiagnostics "x = 1"; AfterSend 0%nat true] fresh)
              0%nat Waiting eq_refl) as [H|[_ H]]; [exact H|].
  vm_compute in H. discriminate.
Defined.

End LspExtras.

Section LspQueue.
Import Lsp.

Lemma length_foldl_alter {A} (f : A → A) (rs : list nat) (l : list A) :
  length (foldl (λ a r, alter f r a) l rs) = length l.
Proof.
  revert l. induction rs as [|r rs IH]; intros l; cbn; [done|].
  by rewrite IH, length_alter.
Qed.

Lemma step_length (s : Input) (c : Client) :
  (length (answers c) ≤ length (answers (react s c)))%nat.
Proof.
  destruct s as [code|code|request delivered|diagInfo|]; cbn [react]; try done.
  - unfold getDiagnostics. destruct (negb _); [|destruct (documentDiags c)]; cbn;
      rewrite length_app; lia.
  - unfold afterSend. destruct (list_find _ _) as [[i [q v]]|]; [|done].
    by destruct delivered.
  - unfold cancelRequests. cbn. by rewrite length_foldl_alter.
Qed.

Lemma held_queue (v : Z) (request p : Request) (c : Client) :
  held p (queue v request c) → held p c ∨ p = request.
Proof.
  intros [(v' & l & Hl & Hp)|Hs]; [|left; by right].
  unfold queue in Hl. cbn [set_pending pendingDiagRequests] in Hl.
  destruct (decide (v = v')) as [<-|Hne].
  - rewrite lookup_insert_eq in Hl. injection Hl as <-.
    apply elem_of_app in Hp as [Hp|Hp%list_elem_of_singleton]; [|by right].
    left. left. destruct (pendingDiagRequests c !! v) as [l|] eqn:E; cbn in Hp.
    + by exists v, l.
    + by apply elem_of_nil in Hp.
  - rewrite lookup_insert_ne in Hl by done. left. left. by exists v', l.
Qed.

(** A react holds only requests that were held before and the one it hands
    out. *)
Lemma held_step (s : Input) (c : Client) (p : Request) :
  held p (react s c) → held p c ∨ p = length (answers c).
Proof.
  destruct s as [code|code|request delivered|diagInfo|]; cbn [react].
  - intros H. by left.
  - unfold getDiagnostics. destruct (negb _); [|destruct (documentDiags c)]; cbn [snd].
    + intros [H|(v & Hv)]; [left; by left|].
      cbn in Hv. apply elem_of_app in Hv as [Hv|Hv%list_elem_of_singleton].
      * left. right. by exists v.
      * right. by injection Hv.
    + intros H. by left.
    + intros H. apply held_queue in H as [H|H]; [by left | by right].
  - unfold afterSend. destruct (list_find _ _) as [[i [q v]]|] eqn:Hfind; [|by left].
    apply list_find_Some in Hfind as (Hi & Hq & _). cbn in Hq. subst q.
    assert (Hdel : ∀ p0, held p0 (set_suspended (delete i (suspended c)) c) → held p0 c).
    { intros p0 [H|(v0 & Hv0)]; [by left|]. right. exists v0.
      exact (list_elem_of_delete_inv _ i _ Hv0). }
    destruct delivered.
    + intros H. apply held_queue in H as [H|H]; left; [by apply Hdel|].
      subst p. right. exists v. by eapply list_elem_of_lookup_2.
    + intros H. left. by apply Hdel.
  - intros [(v & l & Hl & Hp)|H]; [|left; by right]. left. left.
    cbn in Hl. apply lookup_delete_Some in Hl as [_ Hl]. by exists v, l.
  - intros [(v & l & Hl & Hp)|H]; [|left; by right]. cbn in Hl.
    by rewrite lookup_empty in Hl.
Qed.

Lemma wf_step (s : Input) (c : Client) : lsp_wf c → lsp_wf (react s c).
Proof.
  intros Hwf p Hp. pose proof (step_length s c) as Hlen.
  destruct (held_step s c p Hp) as [H| ->].
  - specialize (Hwf p H). lia.
  - destruct s as [code|code|request delivered|diagInfo|]; cbn [react] in *.
    + destruct Hp as [H|H]; specialize (Hwf _ (ltac:(first [by left | by right]))); lia.
    + unfold getDiagnostics. destruct (negb _); [|destruct (documentDiags c)]; cbn;
        rewrite length_app; cbn; lia.
    + exfalso. revert Hp. unfold afterSend.
      destruct (list_find _ _) as [[i [q v]]|] eqn:Hfind.
      2: { intros H. specialize (Hwf _ H). lia. }
      apply list_find_Some in Hfind as (Hi & Hq & _). cbn in Hq. subst q.
      assert (Hreq : (request < length (answers c))%nat).
      { apply Hwf. right. exists v. by eapply list_elem_of_lookup_2. }
      assert (Hdel : ∀ p0, held p0 (set_suspended (delete i (suspended c)) c) → held p0 c).
      { intros p0 [H|(v0 & Hv0)]; [by left|]. right. exists v0.
        exact (list_elem_of_delete_inv _ i _ Hv0). }
      destruct delivered.
      * intros H. apply held_queue in H as [H|H]; [|lia].
        specialize (Hwf _ (Hdel _ H)). lia.
      * intros H. specialize (Hwf _ (Hdel _ H)). lia.
    + exfalso. destruct Hp as [(v & l & Hl & Hp)|H].
      * cbn in Hl. apply lookup_delete_Some in Hl as [_ Hl].
        assert (held (length (answers c)) c) as H by (left; by exists v, l).
        specialize (Hwf _ H). lia.
      * assert (held (length (answers c)) c) as H' by (by right).
        specialize (Hwf _ H'). lia.
    + exfalso. destruct Hp as [(v & l & Hl & Hp)|H].
      * cbn in Hl. by rewrite lookup_empty in Hl.
      * assert (held (length (answers c)) c) as H' by (by right).
        specialize (Hwf _ H'). lia.
Qed.

Lemma wf_steps (ss : list Input) (c : Client) : lsp_wf c → lsp_wf (reacts ss c).
Proof.
  revert c. induction ss as [|s ss IH]; intros c Hwf; [done|].
  cbn [reacts foldl]. fold (reacts ss (react s c)). by apply IH, wf_step.
Qed.

Lemma wf_fresh : lsp_wf fresh.
Proof.
  intros p [(v & l & Hl & _)|(v & Hv)]; cbn in *.
  - by rewrite lookup_empty in Hl.
  - by apply elem_of_nil in Hv.
Qed.

(** A request nobody holds keeps its answer through one react. *)
Lemma unheld_step (s : Input) (c : Client) (p : Request) (a : Answer) :
  lsp_wf c → ¬ held p c → answers c !! p = Some a →
  lsp_wf (react s c) ∧ ¬ held p (react s c) ∧ answers (react s c) !! p = Some a.
Proof.
  intros Hwf Hnot Ha. split; [by apply wf_step|]. split.
  - intros H. destruct (held_step s c p H) as [?| ->]; [done|].
    apply lookup_lt_Some in Ha. lia.
  - destruct s as [code|code|request delivered|diagInfo|]; cbn [react].
    + done.
    + unfold getDiagnostics.
      destruct (negb _); [|destruct (documentDiags c)]; cbn;
        (rewrite lookup_app_l; [done | by eapply lookup_lt_Some]).
    + unfold afterSend. destruct (list_find _ _) as [[i [q v]]|]; [|done].
      by destruct delivered.
    + done.
    + unfold cancelRequests. cbn [set_pending set_answers answers].
      rewrite foldl_alter_lookup by apply answer_once_idem.
      rewrite decide_False; [done|]. intros (v & l & Hvl & Hp)%queued_elem.
      apply Hnot. left. by exists v, l.
Qed.

Lemma unheld_steps (ss : list Input) (c : Client) (p : Request) (a : Answer) :
  lsp_wf c → ¬ held p c → answers c !! p = Some a →
  answers (reacts ss c) !! p = Some a.
Proof.
  revert c. induction ss as [|s ss IH]; intros c Hwf Hnot Ha; [done|].
  cbn [reacts foldl]. fold (reacts ss (react s c)).
  destruct (unheld_step s c p a Hwf Hnot Ha) as (Hwf' & Hnot' & Ha').
  by apply IH.
Qed.

(** Diagnostics that arrive for a version drop the requests queued for it
    without answering them: such a request, waiting and held nowhere else,
    waits forever, whatever happens afterwards, a cancellation included. *)
Theorem dropped_request_waits_forever (before after : list Input) (diagInfo : Published)
    (p : Request) :
  let c := reacts before fresh in
  answers c !! p = Some Waiting →
  (∀ v requestList, pendingDiagRequests c !! v = Some requestList → p ∈ requestList →
                    v = default (-1) (version diagInfo)) →
  (∀ v, (p, v) ∉ suspended c) →
  answers (reacts after (onPublishDiagnostics diagInfo c)) !! p = Some Waiting.
Proof.
  intros c Hw Hq Hs. apply unheld_steps; [| |done].
  - apply (wf_step (Publish diagInfo)), wf_steps, wf_fresh.
  - intros [(v & l & Hl & Hp)|(v & Hv)].
    + cbn in Hl. apply lookup_delete_Some in Hl as [Hne Hl].
      by rewrite (Hq v l Hl Hp) in Hne.
    + by apply (Hs v).
Qed.

Lemma dropped_request_waits_forever_witness :
  answers (reacts [CancelRequests; GetDiagnostics "x = 2"; CancelRequests]
             (onPublishDiagnostics {| version := Some 2; diagnostics := [] |}
                (reacts [GetDiagnostics "x = 1"; AfterSend 0%nat true] fresh))) !! 0%nat
  = Some Waiting.
Proof.
  refine (dropped_request_waits_forever [GetDiagnostics "x = 1"; AfterSend 0%nat true]
            [CancelRequests; GetDiagnostics "x = 2"; CancelRequests]
            {| version := Some 2; diagnostics := [] |} 0%nat _ _ _).
  - reflexivity.
  - intros v l Hl Hp. vm_compute in Hl.
    destruct (decide (v = 2)) as [->|Hne]; [done|].
    change (({[ 2 := [0%nat] ]} : gmap Z (list Request)) !! v = Some l) in Hl.
    by rewrite lookup_singleton_ne in Hl.
  - intros v Hv. vm_compute in Hv. by apply elem_of_nil in Hv.
Defined.

Lemma list_find_app_fresh (l : list (Request * Z)) (p : Request) (v : Z) :
  (∀ v', (p, v') ∉ l) →
  list_find (λ entry, entry.1 = p) (l ++ [(p, v)]) = Some (length l, (p, v)).
Proof.
  intros Hnot. apply list_find_Some. split; [|split; [done|]].
  - by rewrite lookup_app_r, Nat.sub_diag by lia.
  - intros j [q v'] Hj Hlt Hq. cbn in Hq. subst q.
    rewrite lookup_app_l in Hj by done.
    apply (Hnot v'). by eapply list_elem_of_lookup_2.
Qed.

(** A request for code that differs from the text the client holds bumps the
    document version by one and sends that version with the code, once; the
    request is queued only when the send has succeeded, under the version
    sent. When the send fails the request is queued nowhere and its promise
    is neither resolved nor rejected, then or ever after. *)
Theorem changed_code_request_follows_send (before after : list Input) (code : string) :
  let c := reacts before fresh in
  documentText c ≠ code →
  let p := (getDiagnostics code c).1 in
  let c1 := (getDiagnostics code c).2 in
  let v := documentVersion c + 1 in
  documentVersion c1 = v
  ∧ sent c1 = sent c ++ [(v, code)]
  ∧ pendingDiagRequests c1 = pendingDiagRequests c
  ∧ answers c1 !! p = Some Waiting
  ∧ (∃ requestList, pendingDiagRequests (afterSend p true c1) !! v = Some requestList
                    ∧ p ∈ requestList)
  ∧ ¬ held p (afterSend p false c1)
  ∧ answers (reacts after (afterSend p false c1)) !! p = Some Waiting.
Proof.
  intros c Hne p c1 v.
  assert (Hwf : lsp_wf c) by apply wf_steps, wf_fresh.
  assert (Hfresh : ¬ held (length (answers c)) c).
  { intros H. specialize (Hwf _ H). lia. }
  assert (Hchanged : negb (String.eqb (documentText c) code) = true).
  { apply negb_true_iff. by apply String.eqb_neq. }
  assert (Hp : p = length (answers c)).
  { subst p. unfold getDiagnostics. by rewrite Hchanged. }
  assert (Hc1 : c1 = set_suspended (suspended c ++ [(length (answers c), v)])
                       (updateTextDocument code
                          (set_answers (answers c ++ [Waiting]) c)).2).
  { subst c1. unfold getDiagnostics. by rewrite Hchanged. }
  assert (Hfind : list_find (λ entry, entry.1 = p) (suspended c1)
                  = Some (length (suspended c), (p, v))).
  { rewrite Hc1, Hp. cbn [set_suspended suspended].
    apply list_find_app_fresh. intros v' Hv'. apply Hfresh. right. by exists v'. }
  assert (Hdel : delete (length (suspended c)) (suspended c1) = suspended c).
  { rewrite Hc1. cbn [set_suspended suspended].
    by rewrite delete_middle, app_nil_r. }
  assert (Hanswer : answers c1 !! p = Some Waiting).
  { rewrite Hc1, Hp. cbn. by rewrite lookup_app_r, Nat.sub_diag by lia. }
  assert (Hfailed : ¬ held p (afterSend p false c1)).
  { unfold afterSend. rewrite Hfind, Hdel, Hp.
    intros [(v' & l & Hl & Hin)|(v' & Hin)]; apply Hfresh.
    - left. exists v', l. split; [|done]. by rewrite Hc1 in Hl.
    - right. by exists v'. }
  split; [by rewrite Hc1|]. split; [by rewrite Hc1|]. split; [by rewrite Hc1|].
  split; [done|]. split; [|split; [done|]].
  - unfold afterSend. rewrite Hfind. unfold queue.
    cbn [set_pending pendingDiagRequests]. rewrite lookup_insert_eq.
    eexists. split; [done|]. apply elem_of_app. right. by left.
  - apply unheld_steps; [|done|].
    + apply (wf_step (AfterSend p false)), (wf_step (GetDiagnostics code)), Hwf.
    + unfold afterSend. by rewrite Hfind.
Qed.

Lemma changed_code_request_follows_send_witness :
  answers (reacts [CancelRequests; Publish {| version := Some 2; diagnostics := [] |}]
             (afterSend 0%nat false (getDiagnostics "x = 1" fresh).2)) !! 0%nat
  = Some Waiting.
Proof.
  refine (proj2 (proj2 (proj2 (proj2 (proj2 (proj2
            (changed_code_request_follows_send []
               [CancelRequests; Publish {| version := Some 2; diagnostics := [] |}]
               "x = 1" _))))))).
  cbn. discriminate.
Defined.

(** The cached diagnostics never go back: once diagnostics are cached, the
    cache holds either the same notification or one of a later version than
    the first; diagnostics cached without a version are never replaced. *)
Theorem diagnostics_cache_never_goes_back (ss : list Input) (c : Client)
    (cached : Published) :
  documentDiags c = Some cached →
  ∃ cached', documentDiags (reacts ss c) = Some cached'
             ∧ (cached' = cached
                ∨ ∃ v, version cached = Some v ∧ v < default (-1) (version cached')).
Proof.
  revert c cached. induction ss as [|s ss IH]; intros c cached Hc.
  - exists cached. split; [done | by left].
  - cbn [reacts foldl]. fold (reacts ss (react s c)).
    assert (Hstep : ∃ cached1, documentDiags (react s c) = Some cached1
                      ∧ (cached1 = cached
                         ∨ ∃ v, version cached = Some v
                                ∧ v < default (-1) (version cached1))).
    { destruct s as [code|code|request delivered|diagInfo|]; cbn [react].
      - exists cached. split; [done | by left].
      - exists cached. split; [|by left]. unfold getDiagnostics.
        destruct (negb _); [|rewrite Hc]; done.
      - exists cached. split; [|by left]. unfold afterSend.
        destruct (list_find _ _) as [[i [q v]]|]; [|done]. by destruct delivered.
      - unfold onPublishDiagnostics. cbn [documentDiags]. rewrite Hc.
        destruct (version cached) as [v|] eqn:Hv.
        + case_bool_decide as Hlt.
          * exists diagInfo. split; [done|]. right. by exists v.
          * exists cached. split; [done | by left].
        + exists cached. split; [done | by left].
      - exists cached. split; [done | by left]. }
    destruct Hstep as (cached1 & Hc1 & Hrel).
    destruct (IH _ _ Hc1) as (cached' & Hc' & Hrel').
    exists cached'. split; [done|].
    destruct Hrel as [->|(v & Hv & Hlt)]; [done|].
    destruct Hrel' as [->|(v1 & Hv1 & Hlt1)]; right; exists v; (split; [done|]).
    + done.
    + rewrite Hv1 in Hlt. cbn in Hlt. lia.
Qed.

Lemma diagnostics_cache_never_goes_back_witness :
  ∃ cached', documentDiags (reacts [Publish {| version := Some 5; diagnostics := [] |}]
                              (reacts [Publish {| version := None;
                                                 diagnostics := [Diag "unused"] |}] fresh))
             = Some cached'
             ∧ (cached' = {| version := None; diagnostics := [Diag "unused"] |}
                ∨ ∃ v, version {| version := None; diagnostics := [Diag "unused"] |} = Some v
                       ∧ v < default (-1) (version cached')).
Proof.
  exact (diagnostics_cache_never_goes_back
           [Publish {| version := Some 5; diagnostics := [] |}]
           (reacts [Publish {| version := None; diagnostics := [Diag "unused"] |}] fresh)
           {| version := None; diagnostics := [Diag "unused"] |} eq_refl).
Defined.

(** [updateCode] stores the text without sending it: a request for the same
    code that follows is answered at once from the cache, with the
    diagnostics of the earlier text, and the server is told nothing. *)
Theorem updateCode_answers_from_stale_cache (code : string) (c : Client)
    (cached : Published) :
  documentDiags c = Some cached →
  let p := (getDiagnostics code (updateCode code c)).1 in
  let c' := (getDiagnostics code (updateCode code c)).2 in
  answers c' !! p = Some (Resolved (diagnostics cached))
  ∧ sent c' = sent c
  ∧ documentVersion c' = documentVersion c
  ∧ pendingDiagRequests c' = pendingDiagRequests c
  ∧ suspended c' = suspended c.
Proof.
  intros Hc p c'. subst p c'. unfold getDiagnostics, updateCode.
  cbn [set_text documentText documentDiags]. rewrite String.eqb_refl, Hc. cbn.
  by rewrite lookup_app_r, Nat.sub_diag by lia.
Qed.

Lemma updateCode_answers_from_stale_cache_witness :
  answers (getDiagnostics "x = 2"
             (updateCode "x = 2"
                (reacts [Publish {| version := Some 1; diagnostics := [Diag "unused"] |}]
                   fresh))).2 !! 0%nat
  = Some (Resolved [Diag "unused"]).
Proof.
  exact (proj1 (updateCode_answers_from_stale_cache "x = 2"
                  (reacts [Publish {| version := Some 1; diagnostics := [Diag "unused"] |}]
                     fresh)
                  {| version := Some 1; diagnostics := [Diag "unused"] |} eq_refl)).
Defined.

End LspQueue.
